(** * apt-caching-mirror: a shallow embedding of the cache engine, the mirror
    registry, the blacklist and the request router, with the properties the
    specification states about them.

    Python [str] values are modelled as [string] (their UTF-8 bytes); the
    case mapping below is the one of [str.lower] on ASCII text.  Dictionaries
    are [gmap]s, the file system is a finite map from paths to nodes, and
    every function that reads or writes process state takes and returns that
    state explicitly. *)

From Stdlib Require Import ZArith Ascii String List Bool Lia.
From stdpp Require Import base option list gmap strings pretty.

Local Open Scope Z_scope.

(** ** Python string primitives used by the sources *)

Module PyStr.

(** [c.lower()] for one ASCII character. *)
Definition lower_ascii (c : ascii) : ascii :=
  let n := nat_of_ascii c in
  if ((65 <=? n) && (n <=? 90))%nat then ascii_of_nat (n + 32) else c.

(** [s.lower()] *)
Fixpoint lower (s : string) : string :=
  match s with
  | EmptyString => EmptyString
  | String c s' => String (lower_ascii c) (lower s')
  end.

(** [s.startswith(pre)] *)
Fixpoint startswith (s pre : string) {struct pre} : bool :=
  match pre, s with
  | EmptyString, _ => true
  | String _ _, EmptyString => false
  | String a pre', String b s' => if ascii_dec a b then startswith s' pre' else false
  end.

(** [needle in hay] *)
Fixpoint contains (needle hay : string) : bool :=
  startswith hay needle ||
  match hay with
  | EmptyString => false
  | String _ hay' => contains needle hay'
  end.

(** [c in s] for a single character. *)
Fixpoint has_char (c : ascii) (s : string) : bool :=
  match s with
  | EmptyString => false
  | String a s' => if ascii_dec a c then true else has_char c s'
  end.

(** [s.split(sep)] for a one-character separator: never empty, the fields
    in order. *)
Fixpoint split (sep : ascii) (s : string) : list string :=
  match s with
  | EmptyString => [EmptyString]
  | String a s' =>
      if ascii_dec a sep then EmptyString :: split sep s'
      else match split sep s' with
           | f :: fs => String a f :: fs
           | [] => [String a EmptyString]
           end
  end.

(** [s.split(sep, 1)]: the text before the first separator and, when there
    is one, the text after it. *)
Fixpoint split1 (sep : ascii) (s : string) : string * option string :=
  match s with
  | EmptyString => (EmptyString, None)
  | String a s' =>
      if ascii_dec a sep then (EmptyString, Some s')
      else let '(h, t) := split1 sep s' in (String a h, t)
  end.

(** [s.replace(c, by)] for a one-character pattern. *)
Fixpoint replace_char (c : ascii) (by_ : string) (s : string) : string :=
  match s with
  | EmptyString => EmptyString
  | String a s' =>
      if ascii_dec a c then by_ +:+ replace_char c by_ s'
      else String a (replace_char c by_ s')
  end.

(** [s[:n]] *)
Fixpoint take (n : nat) (s : string) : string :=
  match n, s with
  | S n', String a s' => String a (take n' s')
  | _, _ => EmptyString
  end.

(** [sep.join(l)] *)
Fixpoint join (sep : string) (l : list string) : string :=
  match l with
  | [] => EmptyString
  | [x] => x
  | x :: l' => x +:+ sep +:+ join sep l'
  end.

Lemma app_nil_l (t : string) : EmptyString +:+ t = t.
Proof. reflexivity. Qed.

Lemma app_cons (a : ascii) (s t : string) :
  String a s +:+ t = String a (s +:+ t).
Proof. reflexivity. Qed.

Lemma app_nil_r (s : string) : s +:+ EmptyString = s.
Proof. induction s as [|a s IH]; [reflexivity |]. rewrite app_cons. now rewrite IH. Qed.

Lemma app_assoc (s t u : string) : (s +:+ t) +:+ u = s +:+ (t +:+ u).
Proof. induction s as [|a s IH]; [reflexivity |]. rewrite !app_cons. now rewrite IH. Qed.

Lemma length_app (s t : string) :
  String.length (s +:+ t) = (String.length s + String.length t)%nat.
Proof.
  induction s as [|a s IH]; [reflexivity |].
  rewrite app_cons. simpl. now rewrite IH.
Qed.

Lemma app_ne_self (s t : string) : t <> EmptyString -> s +:+ t <> s.
Proof.
  intros Ht Heq. apply (f_equal String.length) in Heq.
  rewrite length_app in Heq. destruct t; [congruence | simpl in Heq; lia].
Qed.

Lemma startswith_spec (s pre : string) :
  startswith s pre = true <-> exists t, s = pre +:+ t.
Proof.
  revert s; induction pre as [|a pre IH]; intros s; simpl.
  - split; [intros _; now exists s | reflexivity].
  - destruct s as [|b s].
    + split; [discriminate | intros [t Ht]; discriminate].
    + destruct (ascii_dec a b) as [->|Hne].
      * rewrite IH. split; intros [t Ht]; exists t.
        -- rewrite app_cons. congruence.
        -- rewrite app_cons in Ht. congruence.
      * split; [discriminate | intros [t Ht]; rewrite app_cons in Ht; congruence].
Qed.

Lemma startswith_app (s t : string) : startswith (s +:+ t) s = true.
Proof. apply startswith_spec. now exists t. Qed.

Lemma contains_spec (needle hay : string) :
  contains needle hay = true <-> exists l r, hay = l +:+ needle +:+ r.
Proof.
  induction hay as [|a hay IH]; simpl.
  - rewrite orb_false_r, startswith_spec. split.
    + intros [t Ht]. exists EmptyString, t. exact Ht.
    + intros [l [r H]]. destruct l; [now exists r | discriminate].
  - rewrite orb_true_iff, startswith_spec, IH. split.
    + intros [[t Ht] | [l [r H]]].
      * exists EmptyString, t. exact Ht.
      * exists (String a l), r. rewrite app_cons. now rewrite H.
    + intros [l [r H]]. destruct l as [|b l].
      * left. now exists r.
      * right. exists l, r. rewrite app_cons in H. congruence.
Qed.

End PyStr.

(** ** Exceptions *)

Module Py.

(** What a Python expression evaluates to: a value, or a raised exception. *)
Inductive outcome (A : Type) : Type :=
| Returned (a : A)
| Raised.
Arguments Returned {A} a.
Arguments Raised {A}.

(** [try: body except: handler], the handler catching every exception. *)
Definition try_except {A : Type} (body handler : outcome A) : outcome A :=
  match body with
  | Returned a => Returned a
  | Raised => handler
  end.

(** Sequencing: an exception in the first step skips the rest. *)
Definition bind {A B : Type} (x : outcome A) (k : A -> outcome B) : outcome B :=
  match x with
  | Returned a => k a
  | Raised => Raised
  end.

(** A [dict] with string keys, as the list of its items in insertion
    order: [d[k] = v], and the dictionary a comprehension or a loop of
    assignments builds from a sequence of items. *)
Fixpoint dict_set {V : Type} (k : string) (v : V) (d : list (string * V))
    : list (string * V) :=
  match d with
  | [] => [(k, v)]
  | (k', v') :: r =>
      if String.eqb k' k then (k', v) :: r else (k', v') :: dict_set k v r
  end.

Definition dict_of_items {V : Type} (items : list (string * V)) : list (string * V) :=
  fold_left (fun d kv => dict_set kv.1 kv.2 d) items [].

#[global] Instance outcome_bind : MBind outcome := fun A B k x => bind x k.
#[global] Instance outcome_ret : MRet outcome := @Returned.
#[global] Instance outcome_fmap : FMap outcome :=
  fun A B g x => bind x (fun a => Returned (g a)).

End Py.

(** ** utils/config.py: the configuration store *)

Module Config.

(** The values [config.json] holds.  Its numbers are taken to be integers. *)
Inductive value : Type :=
| VNone
| VBool (b : bool)
| VInt (z : Z)
| VStr (s : string).

(** Python's truth value of a configuration value. *)
Definition truthy (v : value) : bool :=
  match v with
  | VNone => false
  | VBool b => b
  | VInt z => negb (z =? 0)
  | VStr s => negb (String.eqb s EmptyString)
  end.

(** [get_config(key, default)] is [CONFIG.get(key, default)]. *)
Definition get_config (CONFIG : gmap string value) (key : string) (default : value) : value :=
  match CONFIG !! key with
  | Some v => v
  | None => default
  end.

End Config.

(** ** Paths and the file system

    [pathlib] paths are kept as [pathlib] keeps them: a root and the list of
    components, ['.'] and empty components dropped, ['..'] kept.  The file
    system maps locations (absolute, resolved component lists) to inodes;
    it has no symbolic links.  Time stamps and the clock are integers, in
    microseconds. *)

Module Fs.
Import PyStr Py.

Record Path := MkPath { root : string; parts : list string }.

Definition parse_root (s : string) : string :=
  if startswith s "///" then "/"
  else if startswith s "//" then "//"
  else if startswith s "/" then "/"
  else EmptyString.

Definition is_component (x : string) : bool :=
  negb (String.eqb x EmptyString) && negb (String.eqb x ".").

Definition parse_parts (s : string) : list string :=
  List.filter is_component (split "/" s).

(** [Path(s)] *)
Definition of_string (s : string) : Path :=
  MkPath (parse_root s) (parse_parts s).

(** [p / s]: an absolute right operand replaces the left one. *)
Definition joinpath (p : Path) (s : string) : Path :=
  let q := of_string s in
  if String.eqb (root q) EmptyString then MkPath (root p) (parts p ++ parts q)
  else q.

(** [p.name] *)
Definition name (p : Path) : string := List.last (parts p) EmptyString.

(** [str(p)] *)
Definition str (p : Path) : string :=
  match root p, parts p with
  | EmptyString, [] => "."
  | r, ps => r +:+ join "/" ps
  end.

(** The text before and after the last [c] of [s], when [s] has one. *)
Fixpoint rsplit (c : ascii) (s : string) : option (string * string) :=
  match s with
  | EmptyString => None
  | String a s' =>
      match rsplit c s' with
      | Some (l, r) => Some (String a l, r)
      | None => if ascii_dec a c then Some (EmptyString, s') else None
      end
  end.

(** [(stem, suffix)] of a file name: the suffix starts at the last dot,
    unless that dot is the first or the last character. *)
Definition split_suffix (nm : string) : string * string :=
  match rsplit "." nm with
  | Some (l, r) =>
      if String.eqb l EmptyString || String.eqb r EmptyString then (nm, EmptyString)
      else (l, String "." r)
  | None => (nm, EmptyString)
  end.

(** [p.with_suffix(suffix)], for a suffix that starts with a dot and has
    no slash; a path without a name raises [ValueError]. *)
Definition with_suffix (p : Path) (suffix : string) : outcome Path :=
  match name p with
  | EmptyString => Raised
  | nm => Returned (MkPath (root p) (removelast (parts p) ++ [fst (split_suffix nm) +:+ suffix]))
  end.

(** [os.path.basename(p)]: the text after the last slash. *)
Definition basename (p : string) : string :=
  match rsplit "/" p with
  | Some (_, r) => r
  | None => p
  end.

(** An inode: a directory ([content = None]) or a regular file with its
    bytes, and the two time stamps the cache reads. *)
Record inode := Inode {
  content : option string;
  st_atime : Z;
  st_mtime : Z
}.

Record filesystem := Filesystem {
  nodes : gmap (list string) inode;
  cwd : list string
}.

Definition is_dir_at (f : filesystem) (loc : list string) : bool :=
  match loc with
  | [] => true
  | _ =>
      match nodes f !! loc with
      | Some (Inode None _ _) => true
      | _ => false
      end
  end.

(** The kernel's path walk: each component is taken from a directory;
    ['..'] leads to the parent. *)
Fixpoint walk (f : filesystem) (cur : list string) (ps : list string) : option (list string) :=
  match ps with
  | [] => Some cur
  | p :: r =>
      if is_dir_at f cur
      then walk f (if String.eqb p ".." then removelast cur else cur ++ [p]) r
      else None
  end.

(** The location a path names, when its directories exist. *)
Definition locate (f : filesystem) (p : Path) : option (list string) :=
  walk f (if String.eqb (root p) EmptyString then cwd f else []) (parts p).

(** The inode at a path ([os.stat]); the root directory carries no stamps. *)
Definition stat (f : filesystem) (p : Path) : outcome inode :=
  match locate f p with
  | Some [] => Returned (Inode None 0 0)
  | Some loc =>
      match nodes f !! loc with
      | Some i => Returned i
      | None => Raised
      end
  | None => Raised
  end.

(** [p.exists()] *)
Definition exists_ (f : filesystem) (p : Path) : bool :=
  match stat f p with
  | Returned _ => true
  | Raised => false
  end.

(** What an observer reads at a path: the bytes of the regular file there. *)
Definition read_file (f : filesystem) (p : Path) : option string :=
  match stat f p with
  | Returned i => content i
  | Raised => None
  end.

Definition set_nodes (f : filesystem) (m : gmap (list string) inode) : filesystem :=
  {| nodes := m; cwd := cwd f |}.

(** [p.unlink()]: removes a regular file. *)
Definition unlink (f : filesystem) (p : Path) : outcome filesystem :=
  match locate f p with
  | Some [] => Raised
  | Some loc =>
      match nodes f !! loc with
      | Some (Inode (Some _) _ _) => Returned (set_nodes f (delete loc (nodes f)))
      | _ => Raised
      end
  | None => Raised
  end.

(** [open(p, 'wb')] at time [now]: creates the file or truncates it, and
    gives the location the file object writes to. *)
Definition open_wb (f : filesystem) (p : Path) (now : Z) : outcome (filesystem * list string) :=
  match locate f p with
  | Some [] => Raised
  | Some loc =>
      match nodes f !! loc with
      | Some (Inode None _ _) => Raised
      | Some (Inode (Some _) at_ _) =>
          Returned (set_nodes f (<[loc := Inode (Some EmptyString) at_ now]> (nodes f)), loc)
      | None =>
          if is_dir_at f (removelast loc)
          then Returned (set_nodes f (<[loc := Inode (Some EmptyString) now now]> (nodes f)), loc)
          else Raised
      end
  | None => Raised
  end.

(** [f.write(data)] on a file object opened at [loc]. *)
Definition write_at (f : filesystem) (loc : list string) (data : string) (now : Z)
    : outcome filesystem :=
  match nodes f !! loc with
  | Some (Inode (Some old) at_ _) =>
      Returned (set_nodes f (<[loc := Inode (Some (old +:+ data)) at_ now]> (nodes f)))
  | _ => Raised
  end.

(** [src.rename(dst)] for a source that is a regular file: it replaces a
    regular file at the destination, and fails on a directory there. *)
Definition rename_file (f : filesystem) (src dst : Path) : outcome filesystem :=
  match locate f src, locate f dst with
  | Some [], _ => Raised
  | Some ls, Some ld =>
      match nodes f !! ls with
      | Some (Inode (Some d) a m) =>
          if decide (ls = ld) then Returned f
          else
            match ld, nodes f !! ld with
            | [], _ => Raised
            | _, Some (Inode None _ _) => Raised
            | _, Some (Inode (Some _) _ _) =>
                Returned (set_nodes f (<[ld := Inode (Some d) a m]> (delete ls (nodes f))))
            | _, None =>
                if is_dir_at f (removelast ld)
                then Returned (set_nodes f (<[ld := Inode (Some d) a m]> (delete ls (nodes f))))
                else Raised
            end
      | _ => Raised
      end
  | _, _ => Raised
  end.

(** [p.mkdir(parents=True, exist_ok=True)]: every missing directory on the
    way is created; a regular file on the way is an error. *)
Fixpoint mkdirs (f : filesystem) (cur : list string) (ps : list string) (now : Z)
    : outcome filesystem :=
  match ps with
  | [] => Returned f
  | p :: r =>
      let next := if String.eqb p ".." then removelast cur else cur ++ [p] in
      match next with
      | [] => mkdirs f next r now
      | _ =>
          match nodes f !! next with
          | Some (Inode None _ _) => mkdirs f next r now
          | Some (Inode (Some _) _ _) => Raised
          | None => mkdirs (set_nodes f (<[next := Inode None now now]> (nodes f))) next r now
          end
      end
  end.

Definition mkdir_parents (f : filesystem) (p : Path) (now : Z) : outcome filesystem :=
  mkdirs f (if String.eqb (root p) EmptyString then cwd f else []) (parts p) now.

Example of_string_normalizes :
  of_string "/srv//apt/./cache/../x/" = MkPath "/" ["srv"; "apt"; "cache"; ".."; "x"].
Proof. reflexivity. Qed.

Example joinpath_absolute : joinpath (of_string "/srv/cache") "/etc/passwd" = of_string "/etc/passwd".
Proof. reflexivity. Qed.

Example with_suffix_replaces :
  with_suffix (of_string "/c/ab/abcd_bash_5.2.deb") ".tmp"
  = Returned (of_string "/c/ab/abcd_bash_5.2.tmp").
Proof. reflexivity. Qed.

Example with_suffix_appends :
  with_suffix (of_string "/c/ab/abcd_InRelease") ".tmp"
  = Returned (of_string "/c/ab/abcd_InRelease.tmp").
Proof. reflexivity. Qed.

Example basename_of_file : basename "pool/main/b/bash/bash_5.2.deb" = "bash_5.2.deb".
Proof. reflexivity. Qed.

Example basename_trailing_slash : basename "dists/jammy/" = "".
Proof. reflexivity. Qed.

(** *** What an operation leaves alone

    [frame ch f f']: from [f] to [f'] only the locations listed in [ch]
    changed, and no location became or ceased to be a directory. *)

Definition frame (ch : list (list string)) (f f' : filesystem) : Prop :=
  cwd f' = cwd f /\
  (forall l, l ∉ ch -> nodes f' !! l = nodes f !! l) /\
  (forall l, is_dir_at f' l = is_dir_at f l).

Lemma frame_refl (ch : list (list string)) (f : filesystem) : frame ch f f.
Proof. repeat split. Qed.

Lemma frame_trans (ch : list (list string)) (f1 f2 f3 : filesystem) :
  frame ch f1 f2 -> frame ch f2 f3 -> frame ch f1 f3.
Proof.
  intros [Hc [Hn Hd]] [Hc' [Hn' Hd']]. repeat split.
  - congruence.
  - intros l Hl. rewrite Hn', Hn; auto.
  - intros l. rewrite Hd', Hd; auto.
Qed.

Lemma frame_weaken (ch ch' : list (list string)) (f f' : filesystem) :
  (forall l, l ∈ ch -> l ∈ ch') -> frame ch f f' -> frame ch' f f'.
Proof. intros Hsub [Hc [Hn Hd]]. repeat split; auto. Qed.

Lemma frame_walk (ch : list (list string)) (f f' : filesystem) (ps cur : list string) :
  frame ch f f' -> walk f' cur ps = walk f cur ps.
Proof.
  intros [_ [_ Hd]]. revert cur; induction ps as [|p r IH]; intros cur; [reflexivity |].
  cbn [walk]. rewrite Hd. destruct (is_dir_at f cur); [apply IH | reflexivity].
Qed.

Lemma frame_locate (ch : list (list string)) (f f' : filesystem) (p : Path) :
  frame ch f f' -> locate f' p = locate f p.
Proof.
  intros H. unfold locate. destruct H as [Hc H']. rewrite Hc.
  eapply frame_walk. split; [exact Hc | exact H'].
Qed.

Lemma frame_stat (ch : list (list string)) (f f' : filesystem) (p : Path) :
  frame ch f f' -> (forall l, locate f p = Some l -> l ∉ ch) -> stat f' p = stat f p.
Proof.
  intros H Hl. unfold stat. rewrite (frame_locate ch f f' p H).
  destruct (locate f p) as [[|x l]|]; try reflexivity.
  destruct H as [_ [Hn _]]. rewrite Hn; [reflexivity | now apply Hl].
Qed.

Lemma frame_read_file (ch : list (list string)) (f f' : filesystem) (p : Path) :
  frame ch f f' -> (forall l, locate f p = Some l -> l ∉ ch) ->
  read_file f' p = read_file f p.
Proof. intros H Hl. unfold read_file. now rewrite (frame_stat ch f f' p H Hl). Qed.

Lemma frame_exists (ch : list (list string)) (f f' : filesystem) (p : Path) :
  frame ch f f' -> (forall l, locate f p = Some l -> l ∉ ch) ->
  exists_ f' p = exists_ f p.
Proof. intros H Hl. unfold exists_. now rewrite (frame_stat ch f f' p H Hl). Qed.

Lemma is_dir_at_put_file (f : filesystem) (loc : list string) (d : string) (a m : Z)
    (l : list string) :
  loc <> [] -> is_dir_at f loc = false ->
  is_dir_at (set_nodes f (<[loc := Inode (Some d) a m]> (nodes f))) l = is_dir_at f l.
Proof.
  intros Hne Hnd. destruct (decide (l = loc)) as [->|Hl].
  - rewrite Hnd. destruct loc as [|x loc]; [congruence |].
    cbn [is_dir_at set_nodes nodes]. now rewrite lookup_insert_eq.
  - destruct l as [|x l]; [reflexivity |].
    cbn [is_dir_at set_nodes nodes]. now rewrite lookup_insert_ne.
Qed.

Lemma is_dir_at_remove_file (f : filesystem) (loc l : list string) :
  is_dir_at f loc = false ->
  is_dir_at (set_nodes f (delete loc (nodes f))) l = is_dir_at f l.
Proof.
  intros Hnd. destruct (decide (l = loc)) as [->|Hl].
  - rewrite Hnd. destruct loc as [|x loc]; [discriminate |].
    cbn [is_dir_at set_nodes nodes]. now rewrite lookup_delete_eq.
  - destruct l as [|x l]; [reflexivity |].
    cbn [is_dir_at set_nodes nodes]. now rewrite lookup_delete_ne.
Qed.

Lemma is_dir_at_file (f : filesystem) (loc : list string) (d : string) (a m : Z) :
  nodes f !! loc = Some (Inode (Some d) a m) -> loc <> [] -> is_dir_at f loc = false.
Proof. intros H Hne. destruct loc; [congruence |]. cbn [is_dir_at]. now rewrite H. Qed.

Lemma is_dir_at_absent (f : filesystem) (loc : list string) :
  nodes f !! loc = None -> loc <> [] -> is_dir_at f loc = false.
Proof. intros H Hne. destruct loc; [congruence |]. cbn [is_dir_at]. now rewrite H. Qed.

Lemma open_wb_frame (f f' : filesystem) (p : Path) (now : Z) (loc : list string) :
  open_wb f p now = Returned (f', loc) ->
  locate f p = Some loc /\ loc <> [] /\ frame [loc] f f' /\
  exists a, nodes f' !! loc = Some (Inode (Some EmptyString) a now).
Proof.
  unfold open_wb. destruct (locate f p) as [[|x l]|]; try discriminate.
  destruct (nodes f !! (x :: l)) as [[[d|] a m]|] eqn:E; try discriminate.
  - intros [= <- <-]. split; [reflexivity |]. split; [discriminate |]. split.
    + repeat split.
      * intros l' Hl'. cbn [set_nodes nodes]. rewrite lookup_insert_ne; [reflexivity |].
        set_solver.
      * intros l'. apply is_dir_at_put_file; [discriminate |].
        eapply is_dir_at_file; [exact E | discriminate].
    + exists a. cbn [set_nodes nodes]. apply lookup_insert_eq.
  - destruct (is_dir_at f (removelast (x :: l))); [| discriminate].
    intros [= <- <-]. split; [reflexivity |]. split; [discriminate |]. split.
    + repeat split.
      * intros l' Hl'. cbn [set_nodes nodes]. rewrite lookup_insert_ne; [reflexivity |].
        set_solver.
      * intros l'. apply is_dir_at_put_file; [discriminate |].
        apply is_dir_at_absent; [exact E | discriminate].
    + exists now. cbn [set_nodes nodes]. apply lookup_insert_eq.
Qed.

Lemma write_at_frame (f f' : filesystem) (loc : list string) (data : string) (now : Z) :
  loc <> [] ->
  write_at f loc data now = Returned f' ->
  frame [loc] f f' /\
  exists old a m, nodes f !! loc = Some (Inode (Some old) a m) /\
                  nodes f' !! loc = Some (Inode (Some (old +:+ data)) a now).
Proof.
  intros Hne. unfold write_at.
  destruct (nodes f !! loc) as [[[d|] a m]|] eqn:E; try discriminate.
  intros [= <-]. split.
  - repeat split.
    + intros l' Hl'. cbn [set_nodes nodes]. rewrite lookup_insert_ne; [reflexivity |].
      set_solver.
    + intros l'. apply is_dir_at_put_file; [exact Hne |].
      eapply is_dir_at_file; [exact E | exact Hne].
  - exists d, a, m. split; [reflexivity |]. cbn [set_nodes nodes]. apply lookup_insert_eq.
Qed.

Lemma unlink_frame (f f' : filesystem) (p : Path) :
  unlink f p = Returned f' ->
  exists loc, locate f p = Some loc /\ loc <> [] /\ frame [loc] f f' /\
              nodes f' !! loc = None /\
              exists i, nodes f !! loc = Some i /\ content i <> None.
Proof.
  unfold unlink. destruct (locate f p) as [[|x loc]|]; try discriminate.
  destruct (nodes f !! (x :: loc)) as [[[d|] a m]|] eqn:E; try discriminate.
  intros [= <-]. exists (x :: loc). split; [reflexivity |]. split; [discriminate |].
  assert (Hnd : is_dir_at f (x :: loc) = false).
  { eapply is_dir_at_file; [exact E | discriminate]. }
  split; [| split].
  - repeat split.
    + intros l' Hl'. cbn [set_nodes nodes]. rewrite lookup_delete_ne; [reflexivity |].
      set_solver.
    + intros l'. now apply is_dir_at_remove_file.
  - cbn [set_nodes nodes]. apply lookup_delete_eq.
  - eexists. split; [exact E | discriminate].
Qed.

Lemma rename_file_frame (f f' : filesystem) (src dst : Path) :
  rename_file f src dst = Returned f' ->
  exists ls ld d a m,
    locate f src = Some ls /\ locate f dst = Some ld /\
    nodes f !! ls = Some (Inode (Some d) a m) /\
    ((ls = ld /\ f' = f) \/
     (ls <> ld /\ ld <> [] /\ frame [ls; ld] f f' /\ nodes f' !! ls = None /\
      nodes f' !! ld = Some (Inode (Some d) a m))).
Proof.
  unfold rename_file. destruct (locate f src) as [[|x ls]|]; try discriminate.
  destruct (locate f dst) as [ld|]; [| discriminate].
  destruct (nodes f !! (x :: ls)) as [[[d|] a m]|] eqn:E; try discriminate.
  intros H. exists (x :: ls), ld, d, a, m.
  split; [reflexivity |]. split; [reflexivity |]. split; [exact E |].
  destruct (decide (x :: ls = ld)) as [Heq|Hne].
  { left. split; [exact Heq | congruence]. }
  right. split; [exact Hne |].
  assert (Hsrc : is_dir_at f (x :: ls) = false).
  { eapply is_dir_at_file; [exact E | discriminate]. }
  assert (Hgoal : ld <> [] -> is_dir_at f ld = false ->
            f' = set_nodes f (<[ld := Inode (Some d) a m]> (delete (x :: ls) (nodes f))) ->
            ld <> [] /\ frame [x :: ls; ld] f f' /\ nodes f' !! (x :: ls) = None /\
            nodes f' !! ld = Some (Inode (Some d) a m)).
  { intros Hld Hnd ->. split; [exact Hld |]. split; [| split].
    - repeat split.
      + intros l Hl. cbn [set_nodes nodes].
        rewrite lookup_insert_ne by set_solver. rewrite lookup_delete_ne by set_solver.
        reflexivity.
      + intros l.
        change (set_nodes f (<[ld := Inode (Some d) a m]> (delete (x :: ls) (nodes f))))
          with (set_nodes (set_nodes f (delete (x :: ls) (nodes f)))
                  (<[ld := Inode (Some d) a m]>
                     (nodes (set_nodes f (delete (x :: ls) (nodes f)))))).
        rewrite is_dir_at_put_file; [now apply is_dir_at_remove_file | exact Hld |].
        now rewrite is_dir_at_remove_file.
    - cbn [set_nodes nodes]. rewrite lookup_insert_ne by congruence. apply lookup_delete_eq.
    - cbn [set_nodes nodes]. apply lookup_insert_eq. }
  destruct ld as [|y ld]; [discriminate |].
  destruct (nodes f !! (y :: ld)) as [[[d'|] a' m']|] eqn:E'; try discriminate.
  - apply Hgoal; [discriminate | | congruence].
    eapply is_dir_at_file; [exact E' | discriminate].
  - destruct (is_dir_at f (removelast (y :: ld))); [| discriminate].
    apply Hgoal; [discriminate | | congruence].
    apply is_dir_at_absent; [exact E' | discriminate].
Qed.

Lemma walk_app (f : filesystem) (a b cur : list string) :
  walk f cur (a ++ b) = match walk f cur a with
                        | Some c => walk f c b
                        | None => None
                        end.
Proof.
  revert cur; induction a as [|p a IH]; intros cur; [reflexivity |].
  cbn [app walk]. destruct (is_dir_at f cur); [apply IH | reflexivity].
Qed.

(** The path [with_suffix] returns is a sibling of its argument. *)
Lemma with_suffix_sibling (p q : Path) (suffix : string) :
  with_suffix p suffix = Returned q ->
  exists d x,
    parts p = d ++ [x] /\ x <> EmptyString /\
    q = MkPath (root p) (d ++ [fst (split_suffix x) +:+ suffix]).
Proof.
  unfold with_suffix, name. destruct (List.last (parts p) EmptyString) as [|c nm] eqn:E;
    [discriminate |].
  intros [= <-]. exists (removelast (parts p)), (String c nm).
  split; [| split; [discriminate | reflexivity]].
  rewrite <- E. apply app_removelast_last. intros Hnil. rewrite Hnil in E. discriminate.
Qed.

(** Two paths in one directory with different names, the first not ['..'],
    never name the same location. *)
Lemma locate_siblings_distinct (f : filesystem) (r : string) (d : list string) (x y : string)
    (lx ly : list string) :
  y <> x -> y <> ".." ->
  locate f (MkPath r (d ++ [y])) = Some ly ->
  locate f (MkPath r (d ++ [x])) = Some lx ->
  ly <> lx.
Proof.
  intros Hxy Hy. unfold locate. cbn [root parts]. rewrite !walk_app.
  destruct (walk f _ d) as [e|]; [| discriminate]. cbn [walk].
  destruct (is_dir_at f e); [| discriminate].
  destruct (String.eqb y "..") eqn:Ey; [apply String.eqb_eq in Ey; contradiction |].
  intros [= <-]. destruct (String.eqb x "..").
  - intros [= <-] Heq. apply (f_equal (@length string)) in Heq.
    rewrite List.length_app in Heq. cbn [length] in Heq.
    assert (Hlen : (length (removelast e) <= length e)%nat).
    { clear. induction e as [|a e IH]; [reflexivity |].
      destruct e; cbn [removelast length] in *; lia. }
    lia.
  - intros [= <-] Heq. apply app_inv_head in Heq. congruence.
Qed.

End Fs.

(** ** MD5 (RFC 1321), as [hashlib.md5(data).hexdigest()] computes it *)

Module MD5.

Definition mask32 : Z := 0xffffffff.
Definition add32 (a b : Z) : Z := Z.land (a + b) mask32.
Definition not32 (a : Z) : Z := Z.lxor a mask32.
Definition rotl32 (x c : Z) : Z :=
  Z.land (Z.lor (Z.shiftl x c) (Z.shiftr x (32 - c))) mask32.

(** The per-round shift amounts. *)
Definition shifts : list Z :=
  [
   7; 12; 17; 22; 7; 12; 17; 22; 7; 12; 17; 22; 7; 12; 17; 22;
   5; 9; 14; 20; 5; 9; 14; 20; 5; 9; 14; 20; 5; 9; 14; 20;
   4; 11; 16; 23; 4; 11; 16; 23; 4; 11; 16; 23; 4; 11; 16; 23;
   6; 10; 15; 21; 6; 10; 15; 21; 6; 10; 15; 21; 6; 10; 15; 21 ].

(** [K[i] = floor(2^32 * abs(sin(i + 1)))] *)
Definition K : list Z :=
  [
   0xd76aa478; 0xe8c7b756; 0x242070db; 0xc1bdceee;
   0xf57c0faf; 0x4787c62a; 0xa8304613; 0xfd469501;
   0x698098d8; 0x8b44f7af; 0xffff5bb1; 0x895cd7be;
   0x6b901122; 0xfd987193; 0xa679438e; 0x49b40821;
   0xf61e2562; 0xc040b340; 0x265e5a51; 0xe9b6c7aa;
   0xd62f105d; 0x02441453; 0xd8a1e681; 0xe7d3fbc8;
   0x21e1cde6; 0xc33707d6; 0xf4d50d87; 0x455a14ed;
   0xa9e3e905; 0xfcefa3f8; 0x676f02d9; 0x8d2a4c8a;
   0xfffa3942; 0x8771f681; 0x6d9d6122; 0xfde5380c;
   0xa4beea44; 0x4bdecfa9; 0xf6bb4b60; 0xbebfbc70;
   0x289b7ec6; 0xeaa127fa; 0xd4ef3085; 0x04881d05;
   0xd9d4d039; 0xe6db99e5; 0x1fa27cf8; 0xc4ac5665;
   0xf4292244; 0x432aff97; 0xab9423a7; 0xfc93a039;
   0x655b59c3; 0x8f0ccc92; 0xffeff47d; 0x85845dd1;
   0x6fa87e4f; 0xfe2ce6e0; 0xa3014314; 0x4e0811a1;
   0xf7537e82; 0xbd3af235; 0x2ad7d2bb; 0xeb86d391 ].

Fixpoint bytes_of_string (s : string) : list Z :=
  match s with
  | EmptyString => []
  | String c s' => Z.of_nat (nat_of_ascii c) :: bytes_of_string s'
  end.

(** The [n] low bytes of [x], least significant first. *)
Definition le_bytes (n : nat) (x : Z) : list Z :=
  List.map (fun i => Z.land (Z.shiftr x (8 * Z.of_nat i)) 0xff) (seq 0 n).

(** The message, a 1 bit, zeros up to 56 mod 64 bytes, and the bit length
    on 64 bits. *)
Definition pad (msg : list Z) : list Z :=
  let len := Z.of_nat (length msg) in
  let zeros := Z.to_nat ((55 - len) mod 64) in
  msg ++ [0x80] ++ repeat 0 zeros ++ le_bytes 8 (Z.land (8 * len) 0xffffffffffffffff).

(** Little-endian 32-bit words. *)
Fixpoint words (bs : list Z) : list Z :=
  match bs with
  | b0 :: b1 :: b2 :: b3 :: r =>
      (b0 + Z.shiftl b1 8 + Z.shiftl b2 16 + Z.shiftl b3 24) :: words r
  | _ => []
  end.

Definition digest_state : Type := Z * Z * Z * Z.

Definition init_state : digest_state :=
  (0x67452301, 0xefcdab89, 0x98badcfe, 0x10325476).

Definition round (M : list Z) (st : digest_state) (i : nat) : digest_state :=
  let '(A, B, C, D) := st in
  let '(F, g) :=
    if (i <? 16)%nat then (Z.lor (Z.land B C) (Z.land (not32 B) D), i)
    else if (i <? 32)%nat then (Z.lor (Z.land D B) (Z.land (not32 D) C), (5 * i + 1) mod 16)%nat
    else if (i <? 48)%nat then (Z.lxor (Z.lxor B C) D, (3 * i + 5) mod 16)%nat
    else (Z.lxor C (Z.lor B (not32 D)), (7 * i) mod 16)%nat in
  let F := add32 (add32 (add32 F A) (nth i K 0)) (nth g M 0) in
  (D, add32 B (rotl32 F (nth i shifts 0)), B, C).

(** One 512-bit block, given as its 16 words. *)
Definition compress (st : digest_state) (M : list Z) : digest_state :=
  let '(a0, b0, c0, d0) := st in
  let '(A, B, C, D) := fold_left (round M) (seq 0 64) st in
  (add32 a0 A, add32 b0 B, add32 c0 C, add32 d0 D).

Fixpoint absorb (blocks : nat) (ws : list Z) (st : digest_state) : digest_state :=
  match blocks with
  | O => st
  | S n => absorb n (skipn 16 ws) (compress st (firstn 16 ws))
  end.

Definition digest (msg : list Z) : list Z :=
  let ws := words (pad msg) in
  let '(a, b, c, d) := absorb (length ws / 16) ws init_state in
  le_bytes 4 a ++ le_bytes 4 b ++ le_bytes 4 c ++ le_bytes 4 d.

Definition hex_digits : list ascii :=
  ["0"; "1"; "2"; "3"; "4"; "5"; "6"; "7"; "8"; "9"; "a"; "b"; "c"; "d"; "e"; "f"]%char.

Definition hex_digit (n : Z) : ascii := nth (Z.to_nat n) hex_digits "0"%char.

Fixpoint hex_of_bytes (bs : list Z) : string :=
  match bs with
  | [] => EmptyString
  | b :: r => String (hex_digit (b / 16)) (String (hex_digit (b mod 16)) (hex_of_bytes r))
  end.

(** [hashlib.md5(s.encode()).hexdigest()] *)
Definition hexdigest (s : string) : string := hex_of_bytes (digest (bytes_of_string s)).

(** The test suite of RFC 1321, appendix A.5. *)
Example md5_empty : hexdigest "" = "d41d8cd98f00b204e9800998ecf8427e".
Proof. vm_compute. reflexivity. Qed.

Example md5_a : hexdigest "a" = "0cc175b9c0f1b6a831c399e269772661".
Proof. vm_compute. reflexivity. Qed.

Example md5_abc : hexdigest "abc" = "900150983cd24fb0d6963f7d28e17f72".
Proof. vm_compute. reflexivity. Qed.

Example md5_message_digest : hexdigest "message digest" = "f96b697d7cb7938d525a2f31aaf161d0".
Proof. vm_compute. reflexivity. Qed.

Example md5_alphabet :
  hexdigest "abcdefghijklmnopqrstuvwxyz" = "c3fcd3d76192e4007dfb496cca67e13b".
Proof. vm_compute. reflexivity. Qed.

Example md5_two_blocks :
  hexdigest "12345678901234567890123456789012345678901234567890123456789012345678901234567890"
  = "57edf4a22be3c955ac49da2e2107b67a".
Proof. vm_compute. reflexivity. Qed.

(** The digest has 16 bytes, its rendering 32 hexadecimal digits. *)
Lemma length_digest (msg : list Z) : length (digest msg) = 16%nat.
Proof.
  unfold digest. destruct (absorb _ _ _) as [[[a b] c] d].
  unfold le_bytes. now rewrite !List.length_app, !List.length_map, !List.length_seq.
Qed.

Lemma hex_digit_in (n : Z) : In (hex_digit n) hex_digits.
Proof.
  unfold hex_digit. generalize (Z.to_nat n). intros k.
  do 16 (destruct k as [|k]; [simpl; auto 20 |]). destruct k; simpl; auto.
Qed.

Definition hex_string (s : string) : Prop :=
  Forall (fun c => In c hex_digits) (list_ascii_of_string s).

Lemma hex_of_bytes_hex (bs : list Z) : hex_string (hex_of_bytes bs).
Proof.
  unfold hex_string. induction bs as [|b r IH]; [constructor |].
  cbn [hex_of_bytes list_ascii_of_string].
  constructor; [apply hex_digit_in |]. constructor; [apply hex_digit_in | exact IH].
Qed.

Lemma length_hex_of_bytes (bs : list Z) :
  String.length (hex_of_bytes bs) = (2 * length bs)%nat.
Proof. induction bs as [|b r IH]; [reflexivity |]. cbn [hex_of_bytes String.length length]. lia. Qed.

Lemma hexdigest_hex (s : string) : hex_string (hexdigest s).
Proof. apply hex_of_bytes_hex. Qed.

Lemma length_hexdigest (s : string) : String.length (hexdigest s) = 32%nat.
Proof. unfold hexdigest. now rewrite length_hex_of_bytes, length_digest. Qed.

End MD5.

(** ** services/mirrors.py: the mirror registry *)

Module Mirrors.
Import PyStr.

(** One entry of [MIRRORS_CACHE], and one row of the [mirrors] table (whose
    [urls] column holds the same list, JSON-encoded). *)
Record mirror := Mirror { urls : list string; status : string }.

(** What the registry reaches outside the process.  [None] stands for a
    raised exception ([socket.gaierror], [requests.RequestException], ...):
    - [gethostbyname h], [gethostname ()] of the [socket] module;
    - [getaddrinfo h None], as the list of the [info[4][0]] of its entries;
    - the status code answered to [requests.head(url, timeout=5)];
    - whether the statements sent to the database succeed. *)
Record net := Net {
  gethostbyname : string -> option string;
  gethostname : string;
  getaddrinfo : string -> option (list string);
  http_head : string -> option Z;
  db_ok : bool
}.

(** The persistent [mirrors] table and the in-memory [MIRRORS_CACHE]. *)
Record state := State {
  db_mirrors : gmap string mirror;
  MIRRORS_CACHE : gmap string mirror
}.

Definition self_names : list string :=
  ["localhost"; "127.0.0.1"; "::1"; "0.0.0.0"].

(** [hostname = host.split(':')[0]] *)
Definition strip_port (host : string) : string :=
  match split ":" host with
  | h :: _ => h
  | [] => EmptyString
  end.

(** The set [local_ips] that [is_self] builds; each of the two lookups is
    skipped when it raises, and empty addresses are left out. *)
Definition local_ips (n : net) : gset string :=
  let local_hostname := gethostname n in
  let s1 : gset string :=
    match gethostbyname n local_hostname with
    | Some ip => {[ ip ]}
    | None => ∅
    end in
  let s2 : gset string :=
    match getaddrinfo n local_hostname with
    | Some infos =>
        list_to_set (List.filter (fun ip => negb (String.eqb ip EmptyString)) infos)
    | None => ∅
    end in
  s1 ∪ s2.

Definition is_self (n : net) (host : string) : bool :=
  let hostname := strip_port host in
  if bool_decide (hostname ∈ self_names) then true
  else
    match gethostbyname n hostname with
    | Some host_ip => bool_decide (host_ip ∈ local_ips n)
    | None => false
    end.

Definition validate_mirror (n : net) (url : string) : bool :=
  match http_head n url with
  | Some code => code <? 400
  | None => false
  end.

(** [save_mirror_to_db(name, urls, status)]: the returned flag and the state
    it leaves.  The caller passes [status]; its default is ['pending']. *)
Definition save_mirror_to_db (n : net) (st : state)
    (name : string) (urls : list string) (status : string) : bool * state :=
  if is_self n name then (false, st)
  else
    let valid_urls := List.filter (validate_mirror n) urls in
    match valid_urls with
    | [] => (false, st)
    | _ :: _ =>
        if db_ok n then
          (true,
           {| db_mirrors := <[name := Mirror valid_urls status]> (db_mirrors st);
              MIRRORS_CACHE := <[name := Mirror valid_urls status]> (MIRRORS_CACHE st) |})
        else (false, st)
    end.

(** [get_all_mirrors()]: the approved entries only, as [name -> urls]. *)
Definition get_all_mirrors (cache : gmap string mirror) : gmap string (list string) :=
  urls <$> filter (fun kv => status kv.2 = "approved") cache.

Definition get_upstream_key (cache : gmap string mirror)
    (distro package_path : string) : string :=
  let path_lower := lower package_path in
  let mirrors := get_all_mirrors cache in
  if contains "security" path_lower then
    let sec_key := distro +:+ "-security" in
    match mirrors !! sec_key with
    | Some _ => sec_key
    | None => distro
    end
  else distro.

(** A name is a key of [get_all_mirrors] exactly when the registry holds it
    with status ['approved']. *)
Lemma get_all_mirrors_lookup (cache : gmap string mirror) (name : string) (us : list string) :
  get_all_mirrors cache !! name = Some us <->
  exists m, cache !! name = Some m /\ status m = "approved" /\ urls m = us.
Proof.
  unfold get_all_mirrors. rewrite lookup_fmap, fmap_Some. split.
  - intros [m [Hm ->]]. apply map_lookup_filter_Some in Hm as [Hm Hs].
    exists m. simpl in Hs. auto.
  - intros [m [Hm [Hs <-]]]. exists m. split; [| reflexivity].
    apply map_lookup_filter_Some. auto.
Qed.

Lemma get_all_mirrors_in (cache : gmap string mirror) (name : string) :
  name ∈ dom (get_all_mirrors cache) <->
  exists m, cache !! name = Some m /\ status m = "approved".
Proof.
  rewrite elem_of_dom. unfold is_Some. split.
  - intros [us H]. apply get_all_mirrors_lookup in H as [m [? [? ?]]]. eauto.
  - intros [m [? ?]]. exists (urls m). apply get_all_mirrors_lookup. eauto.
Qed.

(** What [is_self] decides. *)
Lemma is_self_spec (n : net) (host : string) :
  is_self n host = true <->
  strip_port host ∈ self_names \/
  exists ip, gethostbyname n (strip_port host) = Some ip /\ ip ∈ local_ips n.
Proof.
  unfold is_self. case_bool_decide as Hs.
  - split; auto.
  - destruct (gethostbyname n (strip_port host)) as [ip|].
    + rewrite bool_decide_eq_true. split.
      * intros H. right. eauto.
      * intros [H | [ip' [Hip H]]]; [contradiction | congruence].
    + split; [discriminate |].
      intros [H | [ip' [Hip H]]]; [contradiction | discriminate].
Qed.

(** C7. [get_upstream_key distro package_path] is [distro-security] exactly
    when the lowercased path contains ["security"] and [distro-security] is
    an approved mirror; in every other case it is [distro] itself. *)
Theorem get_upstream_key_security_iff
    (cache : gmap string mirror) (distro package_path : string) :
  let sec_key := distro +:+ "-security" in
  let cond := contains "security" (lower package_path) = true /\
              sec_key ∈ dom (get_all_mirrors cache) in
  (get_upstream_key cache distro package_path = sec_key <-> cond) /\
  (~ cond -> get_upstream_key cache distro package_path = distro).
Proof.
  intros sec_key cond. subst cond. unfold get_upstream_key. fold sec_key.
  assert (Hne : distro <> sec_key).
  { intros H. symmetry in H. revert H. apply app_ne_self. discriminate. }
  rewrite elem_of_dom.
  destruct (contains "security" (lower package_path)).
  - destruct (get_all_mirrors cache !! sec_key) as [us|] eqn:Hk.
    + split; [| intros H; exfalso; apply H; eauto]. split; eauto.
    + split; [| reflexivity]. split; [contradiction |].
      intros [_ [x Hx]]. discriminate.
  - split; [| reflexivity]. split; [contradiction | intros [? _]; discriminate].
Qed.

(** The host part of a name holds no colon. *)
Lemma strip_port_no_colon (host : string) : has_char ":" (strip_port host) = false.
Proof.
  unfold strip_port. induction host as [|a s IH]; [reflexivity |].
  cbn [split]. destruct (ascii_dec a ":") as [-> | Hne]; [reflexivity |].
  destruct (split ":" s) as [|f fs]; cbn [has_char];
    destruct (ascii_dec a ":"); try contradiction; [reflexivity | exact IH].
Qed.

(** A name [is_self] recognizes is refused. *)
Lemma save_mirror_to_db_refuses_self
    (n : net) (st : state) (name : string) (us : list string) (status : string) :
  is_self n name = true -> save_mirror_to_db n st name us status = (false, st).
Proof. intros H. unfold save_mirror_to_db. now rewrite H. Qed.

(** A host on which nothing resolves and every HEAD request succeeds. *)
Definition net_offline : net :=
  {| gethostbyname := fun _ => None;
     gethostname := "cache01";
     getaddrinfo := fun _ => None;
     http_head := fun _ => Some 200;
     db_ok := true |}.

(** A host named [cache01] whose name resolves to 10.0.0.5. *)
Definition net_lan : net :=
  {| gethostbyname := fun h =>
       if String.eqb h "cache01" then Some "10.0.0.5"
       else if String.eqb h "apt.internal" then Some "10.0.0.5"
       else if String.eqb h "deb.debian.org" then Some "151.101.2.132"
       else None;
     gethostname := "cache01";
     getaddrinfo := fun h =>
       if String.eqb h "cache01" then Some ["10.0.0.5"; "fe80::1"] else None;
     http_head := fun _ => Some 200;
     db_ok := true |}.

Definition st_empty : state := {| db_mirrors := ∅; MIRRORS_CACHE := ∅ |}.

(** The host of [net_lan], on which the empty host name resolves to the
    wildcard address, as [socket.gethostbyname('')] answers, and a second
    name resolves to the loopback address. *)
Definition net_wildcard : net :=
  {| gethostbyname := fun h =>
       if String.eqb h EmptyString then Some "0.0.0.0"
       else if String.eqb h "loop.example" then Some "127.0.0.1"
       else gethostbyname net_lan h;
     gethostname := "cache01";
     getaddrinfo := getaddrinfo net_lan;
     http_head := fun _ => Some 200;
     db_ok := true |}.

(** C8 at the name [::1].  [is_self] cuts the name at its first colon before
    it compares, so of [::1] it compares the empty text: no name at all has
    [::1] as its host part, [is_self] answers [False] for the IPv6 loopback
    address unless the empty host name resolves to an address of the local
    host name, and [save_mirror_to_db] answers [True] and stores the proxy's
    own loopback address as a mirror, in the table and in [MIRRORS_CACHE]. *)
Theorem save_mirror_to_db_stores_ipv6_loopback :
  (forall name : string, strip_port name <> "::1") /\
  (forall n : net,
     match gethostbyname n EmptyString with
     | Some ip => ip ∉ local_ips n
     | None => True
     end -> is_self n "::1" = false) /\
  is_self net_wildcard "::1" = false /\
  save_mirror_to_db net_wildcard st_empty "::1" ["http://[::1]:8080/debian"] "pending"
  = (true,
     {| db_mirrors := {[ "::1" := Mirror ["http://[::1]:8080/debian"] "pending" ]};
        MIRRORS_CACHE := {[ "::1" := Mirror ["http://[::1]:8080/debian"] "pending" ]} |}).
Proof.
  split; [| split; [| split]].
  - intros name H. pose proof (strip_port_no_colon name) as Hc. rewrite H in Hc.
    discriminate Hc.
  - intros n Hn. unfold is_self. change (strip_port "::1") with EmptyString.
    rewrite bool_decide_eq_false_2.
    + destruct (gethostbyname n EmptyString) as [ip|]; [| reflexivity].
      now apply bool_decide_eq_false_2.
    + unfold self_names. intros H. repeat (apply elem_of_cons in H as [H | H]; [discriminate |]).
      now apply elem_of_nil in H.
  - vm_compute. reflexivity.
  - vm_compute. reflexivity.
Qed.

(** A name that resolves to the host is refused. *)
Example save_mirror_to_db_rejects_own_name :
  is_self net_lan "apt.internal:8080" = true /\
  save_mirror_to_db net_lan st_empty "apt.internal:8080"
    ["http://apt.internal:8080"] "pending" = (false, st_empty).
Proof. split; vm_compute; reflexivity. Qed.

(** Only the records of the local host name count as local: a name that
    resolves to the loopback address is not recognized. *)
Example is_self_loopback_name : is_self net_wildcard "loop.example" = false.
Proof. vm_compute. reflexivity. Qed.

Example is_self_localhost : is_self net_offline "localhost:3142" = true.
Proof. reflexivity. Qed.

Example is_self_other : is_self net_lan "deb.debian.org" = false.
Proof. vm_compute. reflexivity. Qed.

(** The port is cut at the first colon, so of the literal ["::1"] only the
    empty text before it is compared with [self_names]. *)
Example is_self_ipv6_loopback : is_self net_offline "::1" = false.
Proof. reflexivity. Qed.

(** A mirror that is not the proxy itself is stored in both places. *)
Example save_mirror_to_db_stores :
  save_mirror_to_db net_lan st_empty "deb.debian.org" ["http://deb.debian.org"] "pending"
  = (true,
     {| db_mirrors := {[ "deb.debian.org" := Mirror ["http://deb.debian.org"] "pending" ]};
        MIRRORS_CACHE := {[ "deb.debian.org" := Mirror ["http://deb.debian.org"] "pending" ]} |}).
Proof. vm_compute. reflexivity. Qed.

Definition cache_ubuntu : gmap string mirror :=
  <["ubuntu" := Mirror ["http://archive.ubuntu.com/ubuntu"] "approved"]>
  (<["ubuntu-security" := Mirror ["http://security.ubuntu.com/ubuntu"] "approved"]>
  (<["debian-security" := Mirror ["http://security.debian.org"] "pending"]> ∅)).

Example get_upstream_key_security :
  get_upstream_key cache_ubuntu "ubuntu" "dists/jammy-Security/InRelease" = "ubuntu-security".
Proof. vm_compute. reflexivity. Qed.

Example get_upstream_key_plain :
  get_upstream_key cache_ubuntu "ubuntu" "dists/jammy/InRelease" = "ubuntu".
Proof. vm_compute. reflexivity. Qed.

Example get_upstream_key_pending :
  get_upstream_key cache_ubuntu "debian" "dists/bookworm-security/InRelease" = "debian".
Proof. vm_compute. reflexivity. Qed.

Lemma get_upstream_key_security_iff_witness :
  get_upstream_key cache_ubuntu "ubuntu" "dists/jammy-security/InRelease" = "ubuntu-security" /\
  get_upstream_key cache_ubuntu "debian" "dists/bookworm-security/InRelease" = "debian".
Proof.
  split.
  - apply (get_upstream_key_security_iff cache_ubuntu "ubuntu" "dists/jammy-security/InRelease").
    split; [reflexivity |]. apply get_all_mirrors_in. eexists. split; reflexivity.
  - apply (get_upstream_key_security_iff cache_ubuntu "debian"
             "dists/bookworm-security/InRelease").
    intros [_ Hin]. apply get_all_mirrors_in in Hin as [m [Hm Hs]].
    vm_compute in Hm. injection Hm as <-. discriminate Hs.
Defined.

End Mirrors.

(** ** services/cache_manager.py: the package blacklist *)

Module Blacklist.
Import PyStr Py.

(** [re.search(regex, text, re.IGNORECASE)]: a match object, [None], or an
    exception ([re.error] from the regex compiler, or any other). *)
Inductive re_result : Type := ReMatch | ReNoMatch | ReError.

(** [pattern.replace('.', '\.').replace('*', '.*')] *)
Definition glob_to_regex (pattern : string) : string :=
  replace_char "*" ".*" (replace_char "." "\." pattern).

(** The translation as the specification words it: every ['.'] escaped,
    every ['*'] turned into ['.*'], in one pass over the pattern. *)
Fixpoint escape_dots_expand_stars (pattern : string) : string :=
  match pattern with
  | EmptyString => EmptyString
  | String c p' =>
      (if ascii_dec c "." then "\."
       else if ascii_dec c "*" then ".*"
       else String c EmptyString) +:+ escape_dots_expand_stars p'
  end.

Section WithRegexEngine.

(** The regular-expression engine is the [re] module of the interpreter;
    the blacklist is verified for every engine. *)
Variable re_search_ignorecase : string -> string -> re_result.

(** The body of the [try] block for one pattern: [Some true] when it
    executes [return True], [None] when it falls through. *)
Definition test_pattern (pattern filename : string) : outcome (option bool) :=
  if contains "*" pattern then
    let regex := glob_to_regex pattern in
    match re_search_ignorecase regex filename with
    | ReMatch => Returned (Some true)
    | ReNoMatch => Returned None
    | ReError => Raised
    end
  else if contains (lower pattern) (lower filename) then Returned (Some true)
  else Returned None.

(** [is_blacklisted(filename)], over the patterns of [BLACKLIST_PATTERNS]. *)
Fixpoint is_blacklisted (patterns : list string) (filename : string) : outcome bool :=
  match patterns with
  | [] => Returned false
  | pattern :: rest =>
      match try_except (test_pattern pattern filename) (Returned None) with
      | Returned (Some b) => Returned b
      | Returned None => is_blacklisted rest filename
      | Raised => Raised
      end
  end.

(** A pattern matches a file name, as the specification words it. *)
Definition pattern_matches (filename pattern : string) : bool :=
  if contains "*" pattern then
    match re_search_ignorecase (escape_dots_expand_stars pattern) filename with
    | ReMatch => true
    | _ => false
    end
  else contains (lower pattern) (lower filename).

End WithRegexEngine.

Lemma replace_star_escaped_dot (s : string) :
  replace_char "*" ".*" ("\." +:+ s) = "\." +:+ replace_char "*" ".*" s.
Proof. reflexivity. Qed.

Lemma glob_to_regex_one_pass (pattern : string) :
  glob_to_regex pattern = escape_dots_expand_stars pattern.
Proof.
  unfold glob_to_regex. induction pattern as [|c p IH]; [reflexivity |].
  cbn [replace_char escape_dots_expand_stars].
  destruct (ascii_dec c ".") as [->|Hdot].
  - rewrite replace_star_escaped_dot. now rewrite IH.
  - cbn [replace_char]. destruct (ascii_dec c "*") as [->|Hstar]; now rewrite IH.
Qed.

Lemma test_pattern_matches re (pattern filename : string) :
  try_except (test_pattern re pattern filename) (Returned None)
  = Returned (if pattern_matches re filename pattern then Some true else None).
Proof.
  unfold test_pattern, pattern_matches. rewrite glob_to_regex_one_pass.
  destruct (contains "*" pattern).
  - now destruct (re _ filename).
  - now destruct (contains (lower pattern) (lower filename)).
Qed.

Lemma is_blacklisted_existsb re (patterns : list string) (filename : string) :
  is_blacklisted re patterns filename
  = Returned (existsb (pattern_matches re filename) patterns).
Proof.
  induction patterns as [|p ps IH]; [reflexivity |].
  cbn [is_blacklisted existsb]. rewrite test_pattern_matches.
  destruct (pattern_matches re filename p); [reflexivity | exact IH].
Qed.

(** C6. [is_blacklisted] tests the patterns in list order and
    case-insensitively: a pattern with a ['*'] by regex search of its
    translation (every ['.'] escaped, every ['*'] made ['.*']), any other
    by substring search of the lowercased texts.  It answers [True] at the
    first pattern that matches, whatever follows it, and [False] when none
    does. *)
Theorem is_blacklisted_first_match
    (re : string -> string -> re_result) (patterns : list string) (filename : string) :
  is_blacklisted re patterns filename
    = Returned (existsb (pattern_matches re filename) patterns) /\
  (is_blacklisted re patterns filename = Returned true <->
   exists before p after,
     patterns = before ++ p :: after /\
     Forall (fun q => pattern_matches re filename q = false) before /\
     pattern_matches re filename p = true) /\
  (is_blacklisted re patterns filename = Returned false <->
   Forall (fun q => pattern_matches re filename q = false) patterns).
Proof.
  split; [apply is_blacklisted_existsb |].
  induction patterns as [|p ps [IHt IHf]].
  - split; split.
    + discriminate.
    + intros [before [p [after [H _]]]]. now destruct before.
    + constructor.
    + reflexivity.
  - cbn [is_blacklisted]. rewrite test_pattern_matches.
    destruct (pattern_matches re filename p) eqn:Hp.
    + split; split.
      * intros _. exists [], p, ps. repeat split; [constructor | exact Hp].
      * reflexivity.
      * discriminate.
      * intros H. inversion H; congruence.
    + split; split.
      * intros H. apply IHt in H as [before [q [after [-> [Hb Hq]]]]].
        exists (p :: before), q, after. repeat split; [constructor |]; assumption.
      * intros [before [q [after [Heq [Hb Hq]]]]]. apply IHt.
        destruct before as [|b before]; simpl in Heq; inversion Heq; subst.
        -- congruence.
        -- inversion Hb; subst. exists before, q, after. auto.
      * intros H. constructor; [exact Hp | now apply IHf].
      * intros H. inversion H; subst. now apply IHf.
Qed.

(** C10. [is_blacklisted] always returns a boolean.  A pattern whose
    translation the regex compiler refuses is passed over: alone it answers
    [False], and the list answers as it does without that pattern. *)
Theorem is_blacklisted_never_raises
    (re : string -> string -> re_result) (patterns : list string) (filename : string) :
  (exists b, is_blacklisted re patterns filename = Returned b) /\
  (forall before p after,
     patterns = before ++ p :: after ->
     contains "*" p = true ->
     re (glob_to_regex p) filename = ReError ->
     is_blacklisted re [p] filename = Returned false /\
     is_blacklisted re patterns filename = is_blacklisted re (before ++ after) filename).
Proof.
  split; [rewrite is_blacklisted_existsb; eauto |].
  intros before p after -> Hstar Herr.
  assert (Hp : pattern_matches re filename p = false).
  { unfold pattern_matches. rewrite Hstar, <- glob_to_regex_one_pass, Herr. reflexivity. }
  rewrite !is_blacklisted_existsb, !existsb_app. cbn [existsb]. rewrite Hp. auto.
Qed.

(** *** A regex engine for the translated globs

    The engine below interprets the part of [re]'s syntax that a glob over
    file names translates to: ordinary characters, escaped punctuation,
    ['.'], and ['*'] after one of these, with [re.IGNORECASE].  It refuses a
    ['*'] with nothing to repeat, a trailing backslash and an opening
    bracket or parenthesis without its closing one, as [re] does; syntax
    beyond the fragment is refused as well. *)

Inductive token : Type := TLit (c : ascii) | TAny | TStar.
Inductive atom : Type := Lit (c : ascii) | AnyChar.
Inductive piece : Type := Once (a : atom) | Many (a : atom).

Definition is_word_char (c : ascii) : bool :=
  let n := nat_of_ascii c in
  ((48 <=? n) && (n <=? 57) || (65 <=? n) && (n <=? 90) ||
   (97 <=? n) && (n <=? 122) || (n =? 95))%nat.

Fixpoint lex (regex : string) : option (list token) :=
  match regex with
  | EmptyString => Some []
  | String "\" EmptyString => None
  | String "\" (String c r) =>
      if is_word_char c then None else cons (TLit c) <$> lex r
  | String "." r => cons TAny <$> lex r
  | String "*" r => cons TStar <$> lex r
  | String c r =>
      if contains (String c EmptyString) "+?()[{|^$" then None
      else cons (TLit c) <$> lex r
  end.

Fixpoint pieces (ts : list token) : option (list piece) :=
  match ts with
  | [] => Some []
  | TStar :: _ => None
  | TLit c :: TStar :: r => cons (Many (Lit c)) <$> pieces r
  | TLit c :: r => cons (Once (Lit c)) <$> pieces r
  | TAny :: TStar :: r => cons (Many AnyChar) <$> pieces r
  | TAny :: r => cons (Once AnyChar) <$> pieces r
  end.

Definition atom_ok (a : atom) (c : ascii) : bool :=
  match a with
  | Lit p => if ascii_dec (lower_ascii p) (lower_ascii c) then true else false
  | AnyChar => if ascii_dec c "010" then false else true
  end.

Fixpoint match_here (ps : list piece) : string -> bool :=
  match ps with
  | [] => fun _ => true
  | Once a :: r => fun s =>
      match s with
      | String c s' => atom_ok a c && match_here r s'
      | EmptyString => false
      end
  | Many a :: r =>
      fix many (s : string) : bool :=
        match_here r s ||
        match s with
        | String c s' => atom_ok a c && many s'
        | EmptyString => false
        end
  end.

Fixpoint search_from (ps : list piece) (text : string) : bool :=
  match_here ps text ||
  match text with
  | String _ text' => search_from ps text'
  | EmptyString => false
  end.

Definition glob_re_search (regex text : string) : re_result :=
  match lex regex with
  | Some ts =>
      match pieces ts with
      | Some ps => if search_from ps text then ReMatch else ReNoMatch
      | None => ReError
      end
  | None => ReError
  end.

Example glob_to_regex_deb : glob_to_regex "*.deb" = ".*\.deb".
Proof. reflexivity. Qed.

Example is_blacklisted_glob :
  is_blacklisted glob_re_search ["*.deb"] "Linux-Image_6.1.DEB" = Returned true.
Proof. vm_compute. reflexivity. Qed.

Example is_blacklisted_glob_dot_is_literal :
  is_blacklisted glob_re_search ["*.deb"] "libdebian1_amd64" = Returned false.
Proof. vm_compute. reflexivity. Qed.

Example is_blacklisted_substring :
  is_blacklisted glob_re_search ["nvidia"; "*.udeb"] "NVIDIA-driver.deb" = Returned true.
Proof. vm_compute. reflexivity. Qed.

Example is_blacklisted_none :
  is_blacklisted glob_re_search ["nvidia"; "*.udeb"] "bash_5.2.deb" = Returned false.
Proof. vm_compute. reflexivity. Qed.

(** ["lib(*"] translates to ["lib(.*"], an unterminated group. *)
Example is_blacklisted_invalid_regex_skipped :
  glob_re_search (glob_to_regex "lib(*") "bash_5.2.deb" = ReError /\
  is_blacklisted glob_re_search ["lib(*"; "*.deb"] "bash_5.2.deb" = Returned true.
Proof. vm_compute. auto. Qed.

Lemma is_blacklisted_never_raises_witness :
  (exists b, is_blacklisted glob_re_search ["lib(*"; "*.deb"] "bash_5.2.deb" = Returned b) /\
  is_blacklisted glob_re_search ["lib(*"] "bash_5.2.deb" = Returned false /\
  is_blacklisted glob_re_search ["lib(*"; "*.deb"] "bash_5.2.deb"
    = is_blacklisted glob_re_search ["*.deb"] "bash_5.2.deb".
Proof.
  destruct (is_blacklisted_never_raises glob_re_search ["lib(*"; "*.deb"] "bash_5.2.deb")
    as [Htotal Hskip].
  split; [exact Htotal |].
  apply (Hskip [] "lib(*" ["*.deb"]); reflexivity.
Defined.

End Blacklist.

(** ** services/cache_manager.py: freshness of a cache entry *)

Module Freshness.
Import PyStr Py Config Fs.

Definition day_us : Z := 86400 * 1000000.

(** [timedelta(days=v)]: a number of days within the range of [timedelta];
    [True] and [False] count as 1 and 0, anything else is a [TypeError]. *)
Definition timedelta_days (v : value) : outcome Z :=
  match v with
  | VInt z => if Z.abs z <=? 999999999 then Returned (z * day_us) else Raised
  | VBool b => Returned ((if b then 1 else 0) * day_us)
  | _ => Raised
  end.

(** The reading of the wall clock of the local zone at the instant [t].
    [utcoffset t] is the offset of the local zone from UTC at the instant
    [t], in microseconds; it changes where daylight saving time starts or
    ends.  A reading is kept as the number of microseconds it lies after
    1970-01-01 00:00, so that the difference of two readings is their
    [timedelta]. *)
Definition wall_clock (utcoffset : Z -> Z) (t : Z) : Z := t + utcoffset t.

(** The readings a [datetime] can hold, from 0001-01-01 00:00:00 to
    9999-12-31 23:59:59.999999. *)
Definition datetime_min : Z := - 62135596800 * 1000000.
Definition datetime_max : Z := 253402300800 * 1000000 - 1.

(** [datetime.fromtimestamp(t)], and [datetime.now()] at the instant [t]:
    the naive local datetime, which is the reading of the local wall clock;
    an exception when the reading is outside the years 1 to 9999. *)
Definition fromtimestamp (utcoffset : Z -> Z) (t : Z) : outcome Z :=
  let reading := wall_clock utcoffset t in
  if (datetime_min <=? reading) && (reading <=? datetime_max) then Returned reading
  else Raised.

(** [is_cache_valid(cache_path)] at the instant [now], in the local zone
    [utcoffset]. *)
Definition is_cache_valid (utcoffset : Z -> Z) (CONFIG : gmap string value)
    (f : filesystem) (now : Z) (cache_path : Path) : outcome bool :=
  if negb (exists_ f cache_path) then Returned false
  else if negb (truthy (get_config CONFIG "cache_retention_enabled" (VBool true)))
  then Returned true
  else
    let cache_days := get_config CONFIG "cache_days" (VInt 7) in
    last_access ← try_except (st_atime <$> stat f cache_path)
                             (st_mtime <$> stat f cache_path);
    datetime_now ← fromtimestamp utcoffset now;
    accessed ← fromtimestamp utcoffset last_access;
    let file_age := datetime_now - accessed in
    delta ← timedelta_days cache_days;
    Returned (file_age <? delta).

(** The test [clean_old_cache] applies to each file it walks over: the file
    is removed when the later of its two stamps is before the cutoff. *)
Definition clean_old_cache_removes (cache_days : Z) (now : Z) (i : inode) : bool :=
  let cutoff_time := now - cache_days * day_us in
  let last_access := st_atime i in
  let last_access := if st_mtime i >? last_access then st_mtime i else last_access in
  last_access <? cutoff_time.

(** The freshness rule of the specification, on the stamps of a file. *)
Definition fresh_by_max (cache_days : Z) (now : Z) (i : inode) : bool :=
  now - Z.max (st_atime i) (st_mtime i) <? cache_days * day_us.

(** The instant [t] has a [datetime] in the local zone. *)
Definition representable (utcoffset : Z -> Z) (t : Z) : Prop :=
  datetime_min <= wall_clock utcoffset t <= datetime_max.

Lemma fromtimestamp_representable (utcoffset : Z -> Z) (t : Z) :
  representable utcoffset t -> fromtimestamp utcoffset t = Returned (wall_clock utcoffset t).
Proof.
  intros [Hmin Hmax]. unfold fromtimestamp.
  apply Z.leb_le in Hmin, Hmax. now rewrite Hmin, Hmax.
Qed.

Lemma fromtimestamp_returned (utcoffset : Z -> Z) (t reading : Z) :
  fromtimestamp utcoffset t = Returned reading ->
  reading = wall_clock utcoffset t /\ representable utcoffset t.
Proof.
  unfold fromtimestamp, representable.
  destruct (datetime_min <=? wall_clock utcoffset t) eqn:Hmin; [| discriminate].
  destruct (wall_clock utcoffset t <=? datetime_max) eqn:Hmax; [| discriminate].
  cbn [andb]. intros [= <-]. apply Z.leb_le in Hmin, Hmax. auto.
Qed.

(** What [is_cache_valid] computes: the age is taken from [st_atime], as
    the difference of two readings of the local wall clock. *)
Lemma is_cache_valid_atime (utcoffset : Z -> Z) (CONFIG : gmap string value)
    (f : filesystem) (now : Z) (cache_path : Path) (i : inode) (days : Z) :
  stat f cache_path = Returned i ->
  get_config CONFIG "cache_days" (VInt 7) = VInt days ->
  Z.abs days <= 999999999 ->
  representable utcoffset now -> representable utcoffset (st_atime i) ->
  is_cache_valid utcoffset CONFIG f now cache_path
  = Returned (negb (truthy (get_config CONFIG "cache_retention_enabled" (VBool true)))
              || (wall_clock utcoffset now - wall_clock utcoffset (st_atime i)
                  <? days * day_us)).
Proof.
  intros Hstat Hdays Hrange Hnow Hatime. unfold is_cache_valid, exists_.
  rewrite Hstat, Hdays. cbn [negb]. destruct (truthy _); cbn [negb orb]; [| reflexivity].
  cbn [fmap outcome_fmap bind try_except mbind outcome_bind].
  rewrite (fromtimestamp_representable _ _ Hnow), (fromtimestamp_representable _ _ Hatime).
  cbn [bind timedelta_days]. apply Z.leb_le in Hrange. now rewrite Hrange.
Qed.

Lemma is_cache_valid_absent (utcoffset : Z -> Z) (CONFIG : gmap string value)
    (f : filesystem) (now : Z) (cache_path : Path) :
  exists_ f cache_path = false ->
  is_cache_valid utcoffset CONFIG f now cache_path = Returned false.
Proof. intros H. unfold is_cache_valid. now rewrite H. Qed.

(** A cache directory with one entry, last read on day 0 and last written
    on day 9. *)
Definition fs_rewritten : filesystem :=
  {| nodes :=
       <[ ["srv"] := Inode None 0 0 ]>
       (<[ ["srv"; "cache"] := Inode None 0 0 ]>
       (<[ ["srv"; "cache"; "ubuntu"] := Inode None 0 0 ]>
       (<[ ["srv"; "cache"; "ubuntu"; "3b"] := Inode None 0 0 ]>
       (<[ ["srv"; "cache"; "ubuntu"; "3b"; "3b5d_InRelease"]
             := Inode (Some "Origin: Ubuntu") 0 (9 * day_us) ]> ∅))));
     cwd := [] |}.

Definition config_week : gmap string value :=
  <["cache_days" := VInt 7]> (<["cache_retention_enabled" := VBool true]> ∅).

Definition entry_rewritten : Path := of_string "/srv/cache/ubuntu/3b/3b5d_InRelease".

Definition hour_us : Z := 3600 * 1000000.

(** The zone of a host that keeps UTC, and a zone one hour east of UTC
    whose clocks are an hour further ahead from [start] until [stop]. *)
Definition utc (t : Z) : Z := 0.

Definition summer_time (start stop : Z) (t : Z) : Z :=
  if (start <=? t) && (t <? stop) then 2 * hour_us else hour_us.

(** C1 at an entry whose [mtime] is newer than its [atime]: on day 10 the
    entry is one day old by [max(atime, mtime)], and [clean_old_cache] keeps
    it, yet [is_cache_valid] answers [False], on a host that keeps UTC and
    whatever else the local zone is (an offset from UTC is less than a
    day). *)
Lemma is_cache_valid_ignores_mtime :
  is_cache_valid utc config_week fs_rewritten (10 * day_us) entry_rewritten = Returned false /\
  (forall utcoffset : Z -> Z,
     (forall t, Z.abs (utcoffset t) < day_us) ->
     is_cache_valid utcoffset config_week fs_rewritten (10 * day_us) entry_rewritten
     = Returned false) /\
  (exists i, stat fs_rewritten entry_rewritten = Returned i /\
             fresh_by_max 7 (10 * day_us) i = true /\
             clean_old_cache_removes 7 (10 * day_us) i = false).
Proof.
  split; [vm_compute; reflexivity |]. split.
  - intros utcoffset Hzone.
    rewrite (is_cache_valid_atime utcoffset config_week fs_rewritten (10 * day_us)
               entry_rewritten (Inode (Some "Origin: Ubuntu") 0 (9 * day_us)) 7);
      [| vm_compute; reflexivity | reflexivity | vm_compute; discriminate
       | pose proof (Hzone (10 * day_us)) as H1;
         unfold representable, wall_clock, datetime_min, datetime_max, day_us in *; lia
       | pose proof (Hzone 0) as H0; cbn [st_atime];
         unfold representable, wall_clock, datetime_min, datetime_max, day_us in *; lia].
    cbn [st_atime]. f_equal. change (negb (truthy _)) with false. cbn [orb].
    apply Z.ltb_ge. unfold wall_clock.
    pose proof (Hzone (10 * day_us)) as H1. pose proof (Hzone 0) as H0.
    unfold day_us in *. lia.
  - eexists. split; [vm_compute; reflexivity |]. split; vm_compute; reflexivity.
Qed.

Example is_cache_valid_stale :
  is_cache_valid utc config_week fs_rewritten (10 * day_us) entry_rewritten = Returned false /\
  is_cache_valid (summer_time (3 * day_us) (200 * day_us)) config_week fs_rewritten
    (10 * day_us) entry_rewritten = Returned false.
Proof. split; vm_compute; reflexivity. Qed.

Example is_cache_valid_fresh :
  is_cache_valid utc config_week fs_rewritten (6 * day_us) entry_rewritten = Returned true.
Proof. vm_compute. reflexivity. Qed.

(** The age is read off the wall clock: where the clocks were put forward
    in between, an entry is stale an hour before [cache_days] have passed. *)
Example is_cache_valid_summer_time :
  let almost_a_week := 7 * day_us - hour_us / 2 in
  is_cache_valid utc config_week fs_rewritten almost_a_week entry_rewritten = Returned true /\
  is_cache_valid (summer_time (3 * day_us) (200 * day_us)) config_week fs_rewritten
    almost_a_week entry_rewritten = Returned false.
Proof. split; vm_compute; reflexivity. Qed.

Example is_cache_valid_no_retention :
  is_cache_valid utc (<["cache_retention_enabled" := VBool false]> config_week)
    fs_rewritten (400 * day_us) entry_rewritten = Returned true.
Proof. vm_compute. reflexivity. Qed.

Example is_cache_valid_missing :
  is_cache_valid utc config_week fs_rewritten 0 (of_string "/srv/cache/ubuntu/3b/none")
  = Returned false.
Proof. vm_compute. reflexivity. Qed.

End Freshness.

(** ** services/cache_manager.py: the path of a cache entry *)

Module CachePath.
Import PyStr Py Config Fs.

(** [Path(v)] for a configuration value: anything but a string is a
    [TypeError]. *)
Definition path_of_value (v : value) : outcome Path :=
  match v with
  | VStr s => Returned (of_string s)
  | _ => Raised
  end.

(** The directory [get_cache_path] creates for an entry. *)
Definition cache_dir (storage_path : Path) (distro path : string) : Path :=
  joinpath (joinpath storage_path distro) (take 2 (MD5.hexdigest path)).

(** [get_cache_path(distro, path)]: the path it returns and the file system
    its [mkdir] leaves. *)
Definition get_cache_path (CONFIG : gmap string value) (f : filesystem) (now : Z)
    (distro path : string) : outcome (Path * filesystem) :=
  storage_path ← path_of_value (get_config CONFIG "storage_path_resolved" VNone);
  let path_hash := MD5.hexdigest path in
  let filename :=
    if String.eqb (basename path) EmptyString then "index" else basename path in
  let cache_dir := joinpath (joinpath storage_path distro) (take 2 path_hash) in
  f' ← mkdir_parents f cache_dir now;
  Returned (joinpath cache_dir (path_hash +:+ "_" +:+ filename), f').

(** The name of an entry as the specification words it: the last of the
    slash-delimited segments of the package path, or [index] when that
    segment is empty, after the MD5 of the whole path. *)
Definition last_segment (package_path : string) : string :=
  List.last (split "/" package_path) EmptyString.

Definition entry_basename (package_path : string) : string :=
  if String.eqb (last_segment package_path) EmptyString then "index"
  else last_segment package_path.

Definition entry_name (package_path : string) : string :=
  MD5.hexdigest package_path +:+ "_" +:+ entry_basename package_path.

(** *** Splitting at slashes *)

Lemma split_rsplit (c : ascii) (s : string) :
  match rsplit c s with
  | None => split c s = [s]
  | Some (_, r) => exists f fs, split c s = f :: fs ++ [r]
  end.
Proof.
  induction s as [|a s IH]; [reflexivity |].
  cbn [rsplit split]. destruct (rsplit c s) as [[l r]|].
  - destruct IH as [f [fs IH]]. rewrite IH.
    destruct (ascii_dec a c).
    + exists EmptyString, (f :: fs). reflexivity.
    + exists (String a f), fs. reflexivity.
  - rewrite IH. destruct (ascii_dec a c).
    + exists EmptyString, []. reflexivity.
    + reflexivity.
Qed.

Lemma basename_last_segment (p : string) : basename p = last_segment p.
Proof.
  unfold basename, last_segment. pose proof (split_rsplit "/" p) as H.
  destruct (rsplit "/" p) as [[l r]|].
  - destruct H as [f [fs ->]]. change (f :: fs ++ [r]) with ((f :: fs) ++ [r]).
    now rewrite List.last_last.
  - now rewrite H.
Qed.

Lemma has_char_app (c : ascii) (s t : string) :
  has_char c (s +:+ t) = has_char c s || has_char c t.
Proof.
  induction s as [|a s IH]; [reflexivity |].
  rewrite app_cons. cbn [has_char]. now destruct (ascii_dec a c).
Qed.

Lemma rsplit_None (c : ascii) (s : string) :
  has_char c s = false -> rsplit c s = None.
Proof.
  induction s as [|a s IH]; [reflexivity |].
  cbn [has_char rsplit]. destruct (ascii_dec a c); [discriminate |].
  intros H. now rewrite (IH H).
Qed.

Lemma rsplit_tail_no_sep (c : ascii) (s l r : string) :
  rsplit c s = Some (l, r) -> has_char c r = false.
Proof.
  revert l r; induction s as [|a s IH]; intros l r; [discriminate |].
  cbn [rsplit]. destruct (rsplit c s) as [[l' r']|] eqn:E.
  - intros [= <- <-]. eapply IH. reflexivity.
  - destruct (ascii_dec a c); [| discriminate].
    intros [= <- <-]. clear IH. revert E. induction s as [|b s IHs]; [reflexivity |].
    cbn [rsplit has_char]. destruct (rsplit c s) as [[? ?]|]; [discriminate |].
    destruct (ascii_dec b c); [discriminate |]. intros _. now apply IHs.
Qed.

Lemma split_no_sep (c : ascii) (s : string) :
  has_char c s = false -> split c s = [s].
Proof.
  intros H. pose proof (split_rsplit c s) as Hs. now rewrite (rsplit_None c s H) in Hs.
Qed.

Lemma basename_no_slash (p : string) : has_char "/" (basename p) = false.
Proof.
  unfold basename. destruct (rsplit "/" p) as [[l r]|] eqn:E.
  - eapply rsplit_tail_no_sep. exact E.
  - clear -E. induction p as [|a p IH]; [reflexivity |].
    revert E. cbn [rsplit has_char]. destruct (rsplit "/" p) as [[? ?]|]; [discriminate |].
    destruct (ascii_dec a "/"); [discriminate |]. intros _. now apply IH.
Qed.

(** *** Names made of hexadecimal digits are path components *)

Lemma hex_no_char (c : ascii) (s : string) :
  ~ In c MD5.hex_digits -> MD5.hex_string s -> has_char c s = false.
Proof.
  intros Hc. unfold MD5.hex_string. induction s as [|a s IH]; [reflexivity |].
  cbn [list_ascii_of_string has_char]. intros H. inversion H; subst.
  destruct (ascii_dec a c) as [->|]; [contradiction | auto].
Qed.

Lemma slash_not_hex : ~ In "/"%char MD5.hex_digits.
Proof. simpl. intuition discriminate. Qed.

Lemma dot_not_hex : ~ In "."%char MD5.hex_digits.
Proof. simpl. intuition discriminate. Qed.

Lemma hex_string_take (n : nat) (s : string) : MD5.hex_string s -> MD5.hex_string (take n s).
Proof.
  unfold MD5.hex_string. revert s; induction n as [|n IH]; intros [|a s] H;
    cbn [take list_ascii_of_string]; try constructor.
  - now inversion H.
  - apply IH. now inversion H.
Qed.

Lemma length_take (n : nat) (s : string) :
  String.length (take n s) = Nat.min n (String.length s).
Proof.
  revert s; induction n as [|n IH]; intros [|a s]; try reflexivity.
  cbn [take String.length]. now rewrite IH.
Qed.

Lemma parse_root_relative (s : string) :
  startswith s "/" = false -> parse_root s = EmptyString.
Proof.
  unfold parse_root. destruct s as [|a s]; [reflexivity |].
  cbn [startswith]. destruct (ascii_dec "/" a); [discriminate | reflexivity].
Qed.

Lemma joinpath_relative (p : Path) (s : string) :
  startswith s "/" = false ->
  joinpath p s = MkPath (root p) (parts p ++ parse_parts s).
Proof.
  intros H. unfold joinpath, of_string. cbn [root parts].
  now rewrite (parse_root_relative s H).
Qed.

Lemma no_slash_relative (s : string) : has_char "/" s = false -> startswith s "/" = false.
Proof.
  destruct s as [|a s]; [reflexivity |]. cbn [has_char startswith].
  destruct (ascii_dec a "/") as [->|Hne]; [discriminate |].
  destruct (ascii_dec "/" a); [congruence | reflexivity].
Qed.

Lemma parse_parts_component (s : string) :
  is_component s = true -> has_char "/" s = false -> parse_parts s = [s].
Proof.
  intros Hc Hs. unfold parse_parts. rewrite (split_no_sep "/" s Hs).
  cbn [List.filter]. now rewrite Hc.
Qed.

Lemma joinpath_component (p : Path) (s : string) :
  is_component s = true -> has_char "/" s = false ->
  joinpath p s = MkPath (root p) (parts p ++ [s]).
Proof.
  intros Hc Hs. rewrite (joinpath_relative p s (no_slash_relative s Hs)).
  now rewrite (parse_parts_component s Hc Hs).
Qed.

(** A name that starts with a hexadecimal digit is neither empty nor ['.']. *)
Lemma is_component_hex_head (a : ascii) (s : string) :
  In a MD5.hex_digits -> is_component (String a s) = true.
Proof.
  intros Ha. unfold is_component. cbn [String.eqb negb andb].
  destruct (Ascii.eqb a ".") eqn:E; [| reflexivity].
  apply Ascii.eqb_eq in E. subst. exfalso. now apply dot_not_hex.
Qed.

Lemma hexdigest_cons (s : string) :
  exists a b t, MD5.hexdigest s = String a (String b t) /\
                In a MD5.hex_digits /\ In b MD5.hex_digits.
Proof.
  pose proof (MD5.length_hexdigest s) as Hl. pose proof (MD5.hexdigest_hex s) as Hh.
  destruct (MD5.hexdigest s) as [|a [|b t]]; try discriminate.
  exists a, b, t. unfold MD5.hex_string in Hh. cbn [list_ascii_of_string] in Hh.
  inversion Hh as [|? ? Ha Hh']; subst. inversion Hh'; subst. auto.
Qed.

Lemma hash_prefix_component (s : string) :
  is_component (take 2 (MD5.hexdigest s)) = true /\
  has_char "/" (take 2 (MD5.hexdigest s)) = false /\
  String.length (take 2 (MD5.hexdigest s)) = 2%nat.
Proof.
  destruct (hexdigest_cons s) as [a [b [t [E [Ha Hb]]]]].
  split; [| split].
  - rewrite E. cbn [take]. now apply is_component_hex_head.
  - apply hex_no_char; [apply slash_not_hex |]. apply hex_string_take, MD5.hexdigest_hex.
  - now rewrite length_take, MD5.length_hexdigest.
Qed.

Lemma entry_basename_no_slash (p : string) : has_char "/" (entry_basename p) = false.
Proof.
  unfold entry_basename. rewrite <- basename_last_segment.
  destruct (String.eqb (basename p) EmptyString); [reflexivity | apply basename_no_slash].
Qed.

Lemma entry_name_component (p : string) :
  is_component (entry_name p) = true /\ has_char "/" (entry_name p) = false.
Proof.
  unfold entry_name. split.
  - destruct (hexdigest_cons p) as [a [b [t [E [Ha Hb]]]]]. rewrite E, app_cons.
    now apply is_component_hex_head.
  - rewrite !has_char_app, entry_basename_no_slash.
    rewrite (hex_no_char "/" _ slash_not_hex (MD5.hexdigest_hex p)). reflexivity.
Qed.

(** *** [mkdir(parents=True, exist_ok=True)] *)

Lemma mkdirs_keeps (ps : list string) (f f' : filesystem) (cur : list string) (now : Z)
    (l : list string) (i : inode) :
  mkdirs f cur ps now = Returned f' -> nodes f !! l = Some i -> nodes f' !! l = Some i.
Proof.
  revert f cur; induction ps as [|p r IH]; intros f cur; cbn [mkdirs].
  - now intros [= ->].
  - set (next := if String.eqb p ".." then removelast cur else cur ++ [p]).
    destruct next as [|x next'] eqn:En; [apply IH |].
    destruct (nodes f !! (x :: next')) as [[[d|] a m]|] eqn:E; [discriminate | apply IH |].
    intros H Hl. eapply IH; [exact H |]. cbn [set_nodes nodes].
    rewrite lookup_insert_ne; [exact Hl | congruence].
Qed.

Lemma mkdirs_cwd (ps : list string) (f f' : filesystem) (cur : list string) (now : Z) :
  mkdirs f cur ps now = Returned f' -> cwd f' = cwd f.
Proof.
  revert f cur; induction ps as [|p r IH]; intros f cur; cbn [mkdirs].
  - now intros [= ->].
  - set (next := if String.eqb p ".." then removelast cur else cur ++ [p]).
    destruct next as [|x next'] eqn:En; [apply IH |].
    destruct (nodes f !! (x :: next')) as [[[d|] a m]|] eqn:E; [discriminate | apply IH |].
    intros H. now rewrite (IH _ _ H).
Qed.

(** Once the directories are there, making them again changes nothing. *)
Lemma mkdirs_idempotent (ps : list string) (f f' : filesystem) (cur : list string)
    (now now' : Z) :
  mkdirs f cur ps now = Returned f' -> mkdirs f' cur ps now' = Returned f'.
Proof.
  revert f cur; induction ps as [|p r IH]; intros f cur; cbn [mkdirs]; [reflexivity |].
  set (next := if String.eqb p ".." then removelast cur else cur ++ [p]).
  destruct next as [|x next'] eqn:En; [apply IH |].
  destruct (nodes f !! (x :: next')) as [[[d|] a m]|] eqn:E; [discriminate | |].
  - intros H. rewrite (mkdirs_keeps _ _ _ _ _ _ _ H E). eapply IH. exact H.
  - intros H.
    assert (Hn : nodes f' !! (x :: next') = Some (Inode None now now)).
    { eapply mkdirs_keeps; [exact H |]. cbn [set_nodes nodes]. apply lookup_insert_eq. }
    rewrite Hn. eapply IH. exact H.
Qed.

Lemma mkdir_parents_idempotent (f f' : filesystem) (p : Path) (now now' : Z) :
  mkdir_parents f p now = Returned f' -> mkdir_parents f' p now' = Returned f'.
Proof.
  unfold mkdir_parents. intros H. rewrite (mkdirs_cwd _ _ _ _ _ H).
  eapply mkdirs_idempotent. exact H.
Qed.

Lemma str_parts (r : string) (ps : list string) :
  ps <> [] -> str (MkPath r ps) = r +:+ join "/" ps.
Proof. intros H. unfold str. cbn [root parts]. destruct r; destruct ps; congruence. Qed.

(** C9. The path of a cache entry is [STORAGE / distro / h[0:2] / h_basename],
    the slashes being those of [pathlib], with [h] the 32 hexadecimal digits
    of the MD5 of the package path and [basename] its last slash-delimited
    segment, or [index] when that is empty.  It is returned whenever the
    directory can be made, and it depends on neither the file system nor the
    clock: two derivations, also the second after the first, give the same
    path and the same text.  For a relative [distro] the components are
    those of [STORAGE], those of [distro], [h[0:2]] and [h_basename]. *)
Theorem get_cache_path_deterministic
    (CONFIG : gmap string value) (storage distro package_path : string) :
  get_config CONFIG "storage_path_resolved" VNone = VStr storage ->
  let h := MD5.hexdigest package_path in
  let name := h +:+ "_" +:+ entry_basename package_path in
  let derived :=
    joinpath (joinpath (joinpath (of_string storage) distro) (take 2 h)) name in
  (String.length h = 32%nat /\ MD5.hex_string h) /\
  (forall f now,
     get_cache_path CONFIG f now distro package_path
     = (f' ← mkdir_parents f (cache_dir (of_string storage) distro package_path) now;
        Returned (derived, f'))) /\
  (forall f1 now1 p1 f1' f2 now2 p2 f2',
     get_cache_path CONFIG f1 now1 distro package_path = Returned (p1, f1') ->
     get_cache_path CONFIG f2 now2 distro package_path = Returned (p2, f2') ->
     p1 = p2 /\ str p1 = str p2) /\
  (forall f now p f' now',
     get_cache_path CONFIG f now distro package_path = Returned (p, f') ->
     get_cache_path CONFIG f' now' distro package_path = Returned (p, f')) /\
  (startswith distro "/" = false ->
   derived = MkPath (root (of_string storage))
               (parts (of_string storage) ++ parse_parts distro ++ [take 2 h; name])) /\
  (is_component distro = true -> has_char "/" distro = false ->
   str derived
   = root (of_string storage)
     +:+ join "/" (parts (of_string storage) ++ [distro; take 2 h; name])).
Proof.
  intros Hcfg h name derived.
  assert (Hget : forall f now,
     get_cache_path CONFIG f now distro package_path
     = (f' ← mkdir_parents f (cache_dir (of_string storage) distro package_path) now;
        Returned (derived, f'))).
  { intros f now. unfold get_cache_path. rewrite Hcfg. cbn [path_of_value].
    subst derived name h. unfold entry_basename. rewrite <- basename_last_segment.
    reflexivity. }
  assert (Hrel : startswith distro "/" = false ->
     derived = MkPath (root (of_string storage))
                 (parts (of_string storage) ++ parse_parts distro ++ [take 2 h; name])).
  { intros Hd. subst derived.
    destruct (hash_prefix_component package_path) as [Hc [Hs _]].
    destruct (entry_name_component package_path) as [Hc' Hs'].
    rewrite (joinpath_relative _ distro Hd).
    rewrite (joinpath_component _ (take 2 h) Hc Hs).
    rewrite (joinpath_component _ name Hc' Hs'). cbn [root parts].
    now rewrite <- !List.app_assoc. }
  split; [split; [apply MD5.length_hexdigest | apply MD5.hexdigest_hex] |].
  split; [exact Hget |].
  split; [| split; [| split; [exact Hrel |]]].
  - intros f1 now1 p1 f1' f2 now2 p2 f2'. rewrite !Hget.
    destruct (mkdir_parents f1 _ now1); [| discriminate].
    destruct (mkdir_parents f2 _ now2); [| discriminate].
    cbn. intros [= <- _] [= <- _]. auto.
  - intros f now p f' now'. rewrite !Hget.
    destruct (mkdir_parents f _ now) as [g|] eqn:E; [| discriminate].
    cbn. intros [= <- <-]. now rewrite (mkdir_parents_idempotent _ _ _ _ now' E).
  - intros Hc Hs. rewrite (Hrel (no_slash_relative distro Hs)).
    rewrite (parse_parts_component distro Hc Hs).
    apply str_parts. now destruct (parts (of_string storage)).
Qed.

Definition config_srv : gmap string value :=
  <["storage_path_resolved" := VStr "/srv/cache"]>
  (<["cache_days" := VInt 7]> ∅).

Definition fs_srv : filesystem :=
  {| nodes := <[ ["srv"] := Inode None 0 0 ]> (<[ ["srv"; "cache"] := Inode None 0 0 ]> ∅);
     cwd := [] |}.

Example get_cache_path_inrelease :
  (p ← get_cache_path config_srv fs_srv 5 "ubuntu" "dists/jammy/InRelease";
   Returned (str p.1))
  = Returned "/srv/cache/ubuntu/28/28ddda974305f9a6e583e8a25aa8443b_InRelease".
Proof. vm_compute. reflexivity. Qed.

Example get_cache_path_index :
  (p ← get_cache_path config_srv fs_srv 5 "debian" "dists/bookworm/";
   Returned (str p.1))
  = Returned "/srv/cache/debian/54/5433d267f7f172c104e35058df6a386a_index".
Proof. vm_compute. reflexivity. Qed.

Lemma get_cache_path_deterministic_witness :
  get_config config_srv "storage_path_resolved" VNone = VStr "/srv/cache" /\
  (forall f now p f' now',
     get_cache_path config_srv f now "ubuntu" "dists/jammy/InRelease" = Returned (p, f') ->
     get_cache_path config_srv f' now' "ubuntu" "dists/jammy/InRelease" = Returned (p, f')) /\
  str (joinpath (joinpath (joinpath (of_string "/srv/cache") "ubuntu")
                   (take 2 (MD5.hexdigest "dists/jammy/InRelease")))
         (MD5.hexdigest "dists/jammy/InRelease" +:+ "_" +:+ entry_basename "dists/jammy/InRelease"))
  = "/srv/cache/ubuntu/28/28ddda974305f9a6e583e8a25aa8443b_InRelease".
Proof.
  assert (Hcfg : get_config config_srv "storage_path_resolved" VNone = VStr "/srv/cache")
    by reflexivity.
  destruct (get_cache_path_deterministic config_srv "/srv/cache" "ubuntu"
              "dists/jammy/InRelease" Hcfg) as [_ [_ [_ [Hagain [_ Hstr]]]]].
  split; [exact Hcfg |]. split; [exact Hagain |].
  rewrite Hstr by reflexivity. vm_compute. reflexivity.
Defined.

End CachePath.

(** ** services/cache_manager.py: fetching from the mirrors

    [STATS['bytes_served']], the file system and the requests the mirrors
    receive are the state.  The logger, the log ring and the thread that
    saves the counters are left out: they feed nothing back. *)

Module Fetch.
Import PyStr Py Fs Blacklist.

(** What [response.iter_content] delivers: chunks, each written to the
    cache file with or without an [OSError], then the end of the stream or
    an exception of [requests]. *)
Inductive stream_event : Type :=
| Data (chunk : string)
| DataWriteError (chunk : string).

Inductive stream_end : Type := EndOfStream | StreamError.

Record body := Body { events : list stream_event; ending : stream_end }.

(** The outcome of [requests.get(url, stream=True, headers=..., timeout=20)]:
    [requests.Timeout], another [requests.RequestException] with its text,
    or a response. *)
Inductive get_result : Type :=
| GetTimeout
| GetError (text : string)
| GetResponse (status_code : Z) (headers : list (string * string)) (content : body).

Record world := World {
  fs : filesystem;
  bytes_served : Z;
  requested : list string
}.

(** The generators a response streams from. *)
Inductive generator : Type :=
| generate_cached (temp_path cache_path : Path) (b : body)
| generate_partial (b : body)
| generate_stream (b : body).

Inductive payload : Type :=
| Text (s : string)
| NoBody
| Stream (g : generator).

Record Response := MkResponse {
  status : Z;
  resp_headers : list (string * string);
  payload_of : payload
}.

Definition excluded_headers : list string :=
  ["transfer-encoding"; "connection"; "content-encoding"; "content-length"].

(** The loop that fills [resp_headers] from [response.headers.items()]. *)
Definition sanitize (hs : list (string * string)) : list (string * string) :=
  dict_of_items
    (List.filter (fun kv => negb (bool_decide (lower kv.1 ∈ excluded_headers))) hs).

(** [parts = filename.split('_', 1)]; [parts[1] if len(parts) > 1 else filename] *)
Definition real_filename (filename : string) : string :=
  match split1 "_" filename with
  | (_, Some t) => t
  | (_, None) => filename
  end.

(** [str(last_error)] inside the f-string of the 502 body. *)
Definition show_error (last_error : option string) : string :=
  match last_error with
  | Some e => e
  | None => "None"
  end.

Definition all_failed (last_error : option string) : Response :=
  MkResponse 502 [] (Text ("All upstream mirrors failed. Last error: " +:+ show_error last_error)).

(** The argument [urls]: one URL as a string, or a list. *)
Inductive urls_arg : Type := OneUrl (url : string) | UrlList (urls : list string).

Definition urls_of (a : urls_arg) : list string :=
  match a with
  | OneUrl u => [u]
  | UrlList l => l
  end.

Section StreamAndCache.

Variable re_search_ignorecase : string -> string -> re_result.
Variable BLACKLIST_PATTERNS : list string.

(** The mirrors: what the [n]-th request of a call gets, by URL and
    request headers. *)
Variable upstream : nat -> string -> list (string * string) -> get_result.

Definition send (w : world) (url : string) : world :=
  {| fs := fs w; bytes_served := bytes_served w; requested := requested w ++ [url] |}.

(** The [for url in urls] loop; [n] requests were made before, and
    [last_error] is what the loop recorded last. *)
Fixpoint try_urls (should_cache : bool) (cache_path : Path)
    (headers : list (string * string)) (urls : list string)
    (n : nat) (last_error : option string) (w : world) : outcome (Response * world) :=
  match urls with
  | [] => Returned (all_failed last_error, w)
  | url :: rest =>
      let w := send w url in
      match upstream n url headers with
      | GetTimeout => try_urls should_cache cache_path headers rest (S n) (Some "Timeout") w
      | GetError e => try_urls should_cache cache_path headers rest (S n) (Some e) w
      | GetResponse code hs b =>
          if code =? 404
          then try_urls should_cache cache_path headers rest (S n) (Some "404 Not Found") w
          else if bool_decide (code ∈ [200; 206; 304]) then
            let resp_headers := sanitize hs in
            if code =? 304 then Returned (MkResponse 304 resp_headers NoBody, w)
            else if code =? 206
            then Returned (MkResponse 206 resp_headers (Stream (generate_partial b)), w)
            else if should_cache then
              temp_path ← with_suffix cache_path ".tmp";
              Returned (MkResponse 200 resp_headers
                          (Stream (generate_cached temp_path cache_path b)), w)
            else Returned (MkResponse 200 resp_headers (Stream (generate_stream b)), w)
          else
            try_urls should_cache cache_path headers rest (S n)
              (Some ("HTTP " +:+ pretty code)) w
      end
  end.

(** [stream_and_cache(urls, cache_path, headers)] *)
Definition stream_and_cache (w : world) (urls : urls_arg) (cache_path : Path)
    (headers : list (string * string)) : outcome (Response * world) :=
  let urls := urls_of urls in
  let filename := name cache_path in
  let real_filename := real_filename filename in
  blacklisted ← is_blacklisted re_search_ignorecase BLACKLIST_PATTERNS real_filename;
  let should_cache := negb blacklisted in
  try_urls should_cache cache_path headers urls 0 None w.

(** The error a failed attempt records, as the specification lists them;
    [None] for a response that ends the loop. *)
Definition failure (r : get_result) : option string :=
  match r with
  | GetTimeout => Some "Timeout"
  | GetError e => Some e
  | GetResponse code _ _ =>
      if code =? 404 then Some "404 Not Found"
      else if (code =? 200) || (code =? 206) || (code =? 304) then None
      else Some ("HTTP " +:+ pretty code)
  end.

(** The error recorded when the loop has gone through [urls]. *)
Fixpoint last_failure (headers : list (string * string)) (urls : list string)
    (n : nat) (last_error : option string) : option string :=
  match urls with
  | [] => last_error
  | url :: rest => last_failure headers rest (S n) (failure (upstream n url headers))
  end.

Definition send_all (w : world) (urls : list string) : world :=
  {| fs := fs w; bytes_served := bytes_served w; requested := requested w ++ urls |}.

Lemma in_success_codes (code : Z) :
  bool_decide (code ∈ [200; 206; 304]) = (code =? 200) || (code =? 206) || (code =? 304).
Proof.
  apply eq_true_iff_eq. rewrite bool_decide_eq_true, !orb_true_iff, !Z.eqb_eq.
  rewrite !elem_of_cons, elem_of_nil. tauto.
Qed.

Lemma send_send_all (w : world) (url : string) (rest : list string) :
  send_all (send w url) rest = send_all w (url :: rest).
Proof. unfold send_all, send. cbn. now rewrite <- List.app_assoc. Qed.

(** A failed attempt moves the loop to the next URL with its error recorded. *)
Lemma try_urls_failed (sc : bool) (cp : Path) (hs : list (string * string))
    (url : string) (rest : list string) (n : nat) (le : option string) (w : world) (e : string) :
  failure (upstream n url hs) = Some e ->
  try_urls sc cp hs (url :: rest) n le w = try_urls sc cp hs rest (S n) (Some e) (send w url).
Proof.
  cbn [try_urls]. unfold failure. destruct (upstream n url hs) as [| t | code h b].
  - now intros [= <-].
  - now intros [= <-].
  - rewrite in_success_codes. destruct (code =? 404); [now intros [= <-] |].
    destruct ((code =? 200) || (code =? 206) || (code =? 304)); [discriminate |].
    now intros [= <-].
Qed.

Lemma try_urls_all_failed (sc : bool) (cp : Path) (hs : list (string * string))
    (urls : list string) (n : nat) (le : option string) (w : world) :
  (forall i url, urls !! i = Some url -> is_Some (failure (upstream (n + i) url hs))) ->
  try_urls sc cp hs urls n le w
  = Returned (all_failed (last_failure hs urls n le), send_all w urls).
Proof.
  revert n le w; induction urls as [|url rest IH]; intros n le w Hall.
  - cbn. unfold send_all. rewrite List.app_nil_r. now destruct w.
  - destruct (Hall 0%nat url eq_refl) as [e He]. rewrite Nat.add_0_r in He.
    rewrite (try_urls_failed _ _ _ _ _ _ _ _ e He). cbn [last_failure]. rewrite He.
    rewrite IH, send_send_all; [reflexivity |].
    intros i u Hi. specialize (Hall (S i) u Hi). now rewrite Nat.add_succ_r in Hall.
Qed.

Lemma last_failure_snoc (hs : list (string * string)) (pre : list string) (u : string)
    (n : nat) (le : option string) :
  last_failure hs (pre ++ [u]) n le = failure (upstream (n + length pre) u hs).
Proof.
  revert n le; induction pre as [|x pre IH]; intros n le; cbn [app last_failure length].
  - now rewrite Nat.add_0_r.
  - rewrite IH. now rewrite Nat.add_succ_r.
Qed.

Lemma try_urls_skip_failed (sc : bool) (cp : Path) (hs : list (string * string))
    (pre rest : list string) (n : nat) (le : option string) (w : world) :
  (forall i u, pre !! i = Some u -> is_Some (failure (upstream (n + i) u hs))) ->
  try_urls sc cp hs (pre ++ rest) n le w
  = try_urls sc cp hs rest (n + length pre) (last_failure hs pre n le) (send_all w pre).
Proof.
  revert n le w; induction pre as [|x pre IH]; intros n le w Hall.
  - cbn [app length last_failure]. rewrite Nat.add_0_r. unfold send_all.
    rewrite List.app_nil_r. now destruct w.
  - destruct (Hall 0%nat x eq_refl) as [e He]. rewrite Nat.add_0_r in He.
    cbn [app]. rewrite (try_urls_failed _ _ _ _ _ _ _ _ e He).
    cbn [last_failure length]. rewrite He, IH.
    + now rewrite send_send_all, Nat.add_succ_r.
    + intros i u Hi. specialize (Hall (S i) u Hi). now rewrite Nat.add_succ_r in Hall.
Qed.

(** A usable answer ends the loop: nothing is requested after it. *)
Lemma try_urls_usable (sc : bool) (cp : Path) (hs : list (string * string))
    (url : string) (rest : list string) (n : nat) (le : option string) (w : world) :
  failure (upstream n url hs) = None ->
  match try_urls sc cp hs (url :: rest) n le w with
  | Returned (r, w') =>
      w' = send w url /\
      exists code h b, upstream n url hs = GetResponse code h b /\
                       status r = code /\ resp_headers r = sanitize h
  | Raised => sc = true /\ name cp = EmptyString
  end.
Proof.
  cbn [try_urls]. unfold failure. destruct (upstream n url hs) as [| t | code h b]; try discriminate.
  rewrite in_success_codes. destruct (code =? 404); [discriminate |].
  destruct ((code =? 200) || (code =? 206) || (code =? 304)) eqn:Eok; [| discriminate].
  intros _. destruct (code =? 304) eqn:E304.
  { apply Z.eqb_eq in E304. subst. split; [reflexivity |]. now exists 304, h, b. }
  destruct (code =? 206) eqn:E206.
  { apply Z.eqb_eq in E206. subst. split; [reflexivity |]. now exists 206, h, b. }
  rewrite !orb_false_r in Eok. apply Z.eqb_eq in Eok. subst code.
  destruct sc.
  - unfold with_suffix. destruct (name cp) eqn:En; cbn.
    + auto.
    + split; [reflexivity |]. now exists 200, h, b.
  - split; [reflexivity |]. now exists 200, h, b.
Qed.

End StreamAndCache.


(** Three mirrors: the first times out, the second answers 500, the third
    answers 404. *)
Definition mirrors_down (n : nat) (url : string) (hs : list (string * string)) : get_result :=
  if String.eqb url "http://a/x" then GetTimeout
  else if String.eqb url "http://b/x" then GetResponse 500 [] (Body [] EndOfStream)
  else GetResponse 404 [] (Body [] EndOfStream).

Definition mirrors_404 (n : nat) (url : string) (hs : list (string * string)) : get_result :=
  GetResponse 404 [("Content-Length", "0")] (Body [] EndOfStream).

(** The first mirror answers 500, the second 200. *)
Definition mirrors_second (n : nat) (url : string) (hs : list (string * string)) : get_result :=
  if String.eqb url "http://a/x" then GetResponse 500 [] (Body [] EndOfStream)
  else GetResponse 200 [("Content-Length", "2"); ("ETag", "v1")] (Body [Data "OK"] EndOfStream).

Definition w_empty : world :=
  {| fs := {| nodes := ∅; cwd := [] |}; bytes_served := 0; requested := [] |}.

Example stream_and_cache_all_down :
  stream_and_cache glob_re_search [] mirrors_down w_empty
    (UrlList ["http://a/x"; "http://b/x"; "http://c/x"]) (of_string "/c/ab/ab_x") []
  = Returned (MkResponse 502 [] (Text "All upstream mirrors failed. Last error: 404 Not Found"),
              send_all w_empty ["http://a/x"; "http://b/x"; "http://c/x"]).
Proof. vm_compute. reflexivity. Qed.

Example stream_and_cache_last_error_status :
  stream_and_cache glob_re_search [] mirrors_down w_empty
    (UrlList ["http://c/x"; "http://b/x"]) (of_string "/c/ab/ab_x") []
  = Returned (MkResponse 502 [] (Text "All upstream mirrors failed. Last error: HTTP 500"),
              send_all w_empty ["http://c/x"; "http://b/x"]).
Proof. vm_compute. reflexivity. Qed.

Example stream_and_cache_no_urls :
  stream_and_cache glob_re_search [] mirrors_down w_empty (UrlList []) (of_string "/c/ab/ab_x") []
  = Returned (MkResponse 502 [] (Text "All upstream mirrors failed. Last error: None"), w_empty).
Proof. vm_compute. reflexivity. Qed.

(** The third mirror is never asked. *)
Example stream_and_cache_stops_at_first_answer :
  stream_and_cache glob_re_search [] mirrors_second w_empty
    (UrlList ["http://a/x"; "http://b/x"; "http://c/x"]) (of_string "/c/ab/ab_x") []
  = Returned (MkResponse 200 [("ETag", "v1")]
                (Stream (generate_cached (of_string "/c/ab/ab_x.tmp") (of_string "/c/ab/ab_x")
                           (Body [Data "OK"] EndOfStream))),
              send_all w_empty ["http://a/x"; "http://b/x"]).
Proof. vm_compute. reflexivity. Qed.


(** *** The generator of a caching fetch

    [generate_cached] runs when the server pulls from it.  One step below is
    one operation of the generator: opening the temporary file, taking one
    chunk from the upstream and writing it, or leaving the loop.  The server
    may also close the generator (the client has gone), which raises
    [GeneratorExit] inside it; that is no [Exception]. *)

Inductive finish : Type := Committed | Failed | Closed.

Inductive phase : Type :=
| Created
| Writing (loc : list string) (rest : list stream_event)
| Finished (how : finish).

Record gen_state := GenState {
  phase_of : phase;
  world_of : world;
  yielded : list string
}.

Definition set_fs (w : world) (f : filesystem) : world :=
  {| fs := f; bytes_served := bytes_served w; requested := requested w |}.

Definition chunk_of (e : stream_event) : string :=
  match e with
  | Data c => c
  | DataWriteError c => c
  end.

(** The bytes of a run of events, and whether each of its writes succeeds
    (an empty chunk is not written). *)
Definition written (es : list stream_event) : string :=
  fold_right (fun e acc => chunk_of e +:+ acc) EmptyString es.

Definition write_ok (e : stream_event) : bool :=
  match e with
  | Data _ => true
  | DataWriteError c => String.eqb c EmptyString
  end.

Section GenerateCached.

Variables (temp_path cache_path : Path) (b : body) (now : Z).

(** The [except Exception] branch: [if temp_path.exists(): temp_path.unlink()];
    an exception of [unlink] leaves the generator. *)
Definition on_error (w : world) : world :=
  if exists_ (fs w) temp_path then
    match unlink (fs w) temp_path with
    | Returned f' => set_fs w f'
    | Raised => w
    end
  else w.

Definition gen_next (s : gen_state) : gen_state :=
  let w := world_of s in
  match phase_of s with
  | Created =>
      match open_wb (fs w) temp_path now with
      | Returned (f', loc) => GenState (Writing loc (events b)) (set_fs w f') (yielded s)
      | Raised => GenState (Finished Failed) (on_error w) (yielded s)
      end
  | Writing loc [] =>
      match ending b with
      | EndOfStream =>
          match rename_file (fs w) temp_path cache_path with
          | Returned f' => GenState (Finished Committed) (set_fs w f') (yielded s)
          | Raised => GenState (Finished Failed) (on_error w) (yielded s)
          end
      | StreamError => GenState (Finished Failed) (on_error w) (yielded s)
      end
  | Writing loc (Data chunk :: rest) =>
      if String.eqb chunk EmptyString then GenState (Writing loc rest) w (yielded s)
      else
        match write_at (fs w) loc chunk now with
        | Returned f' =>
            GenState (Writing loc rest)
              {| fs := f';
                 bytes_served := bytes_served w + Z.of_nat (String.length chunk);
                 requested := requested w |}
              (yielded s ++ [chunk])
        | Raised => GenState (Finished Failed) (on_error w) (yielded s)
        end
  | Writing loc (DataWriteError chunk :: rest) =>
      if String.eqb chunk EmptyString then GenState (Writing loc rest) w (yielded s)
      else GenState (Finished Failed) (on_error w) (yielded s)
  | Finished _ => s
  end.

Definition gen_close (s : gen_state) : gen_state :=
  match phase_of s with
  | Finished _ => s
  | _ => GenState (Finished Closed) (world_of s) (yielded s)
  end.

Inductive gen_step : gen_state -> gen_state -> Prop :=
| step_next (s : gen_state) : gen_step s (gen_next s)
| step_close (s : gen_state) : gen_step s (gen_close s).

(** The generator pulled [n] times by a server that never closes it. *)
Definition gen_run (n : nat) (s : gen_state) : gen_state := Nat.iter n gen_next s.

Definition tmp_locs (f : filesystem) : list (list string) :=
  match locate f temp_path with
  | Some l => [l]
  | None => []
  end.

Lemma on_error_spec (w : world) :
  frame (tmp_locs (fs w)) (fs w) (fs (on_error w)) /\
  read_file (fs (on_error w)) temp_path = None.
Proof.
  unfold on_error. destruct (exists_ (fs w) temp_path) eqn:Ex.
  - destruct (unlink (fs w) temp_path) as [f'|] eqn:Eu.
    + apply unlink_frame in Eu as [loc [Hloc [Hne [Hfr [Hnone _]]]]].
      cbn [set_fs fs]. unfold tmp_locs. rewrite Hloc. split; [exact Hfr |].
      unfold read_file, stat. rewrite (frame_locate _ _ _ temp_path Hfr), Hloc.
      destruct loc; [congruence |]. now rewrite Hnone.
    + split; [apply frame_refl |].
      revert Ex Eu. unfold exists_, unlink, read_file, stat.
      destruct (locate (fs w) temp_path) as [[|x l]|]; try discriminate; [reflexivity |].
      destruct (nodes (fs w) !! (x :: l)) as [[[d|] a m]|]; try discriminate. reflexivity.
  - split; [apply frame_refl |].
    revert Ex. unfold exists_, read_file. now destruct (stat (fs w) temp_path).
Qed.

Variable w0 : world.

Hypothesis Hdistinct : forall f lt lf,
  locate f temp_path = Some lt -> locate f cache_path = Some lf -> lt <> lf.

(** What holds of every state the generator reaches from [w0]. *)
Definition inv (s : gen_state) : Prop :=
  let f := fs (world_of s) in
  match phase_of s with
  | Created => f = fs w0
  | Writing loc rest =>
      locate (fs w0) temp_path = Some loc /\ loc <> [] /\ frame [loc] (fs w0) f /\
      exists done a m,
        events b = done ++ rest /\ forallb write_ok done = true /\
        nodes f !! loc = Some (Inode (Some (written done)) a m)
  | Finished Committed =>
      exists lt lf a m,
        locate (fs w0) temp_path = Some lt /\ locate (fs w0) cache_path = Some lf /\
        lf <> [] /\ frame [lt; lf] (fs w0) f /\ nodes f !! lt = None /\
        nodes f !! lf = Some (Inode (Some (written (events b))) a m) /\
        forallb write_ok (events b) = true /\ ending b = EndOfStream
  | Finished Failed =>
      frame (tmp_locs (fs w0)) (fs w0) f /\ read_file f temp_path = None
  | Finished Closed => frame (tmp_locs (fs w0)) (fs w0) f
  end.

Lemma tmp_locs_frame (ch : list (list string)) (f : filesystem) :
  frame ch (fs w0) f -> tmp_locs f = tmp_locs (fs w0).
Proof. intros H. unfold tmp_locs. now rewrite (frame_locate _ _ _ temp_path H). Qed.

Lemma inv_failed (w : world) (ys : list string) :
  frame (tmp_locs (fs w0)) (fs w0) (fs w) ->
  inv (GenState (Finished Failed) (on_error w) ys).
Proof.
  intros Hfr. destruct (on_error_spec w) as [Hfr' Hread]. cbn. split; [| exact Hread].
  eapply frame_trans; [exact Hfr |]. now rewrite <- (tmp_locs_frame _ _ Hfr).
Qed.

Lemma written_snoc (done : list stream_event) (e : stream_event) :
  written (done ++ [e]) = written done +:+ chunk_of e.
Proof.
  unfold written. induction done as [|x done IH]; cbn [app fold_right].
  - now rewrite app_nil_r.
  - rewrite IH. now rewrite app_assoc.
Qed.

Lemma forallb_snoc (done : list stream_event) (e : stream_event) :
  forallb write_ok (done ++ [e]) = forallb write_ok done && write_ok e.
Proof. rewrite forallb_app. cbn. now rewrite andb_true_r. Qed.

Lemma inv_next (s : gen_state) : inv s -> inv (gen_next s).
Proof.
  destruct s as [ph w ys]. unfold gen_next. cbn [phase_of world_of yielded].
  destruct ph as [| loc rest | how].
  - (* the generator starts: open(temp_path, 'wb') *)
    cbn. intros Hf. destruct (open_wb (fs w) temp_path now) as [[f' loc]|] eqn:Eo.
    + rewrite Hf in Eo. apply open_wb_frame in Eo as [Hloc [Hne [Hfr [a Ha]]]].
      cbn. repeat (split; [assumption |]). exists [], a, now. auto.
    + apply inv_failed. rewrite Hf. apply frame_refl.
  - intros [Hloc [Hne [Hfr [done [a [m [Hev [Hok Hnode]]]]]]]].
    cbn [inv phase_of world_of] in *.
    assert (Hfr' : frame (tmp_locs (fs w0)) (fs w0) (fs w)).
    { unfold tmp_locs. now rewrite Hloc. }
    destruct rest as [|[chunk|chunk] rest].
    + (* end of the loop *)
      destruct (ending b) eqn:Eend; [| now apply inv_failed].
      destruct (rename_file (fs w) temp_path cache_path) as [f'|] eqn:Er;
        [| now apply inv_failed].
      apply rename_file_frame in Er as [ls [ld [d [a' [m' [Hls [Hld [Hd Hcase]]]]]]]].
      rewrite (frame_locate _ _ _ temp_path Hfr) in Hls.
      rewrite (frame_locate _ _ _ cache_path Hfr) in Hld.
      assert (ls = loc) by congruence. subst ls.
      destruct Hcase as [[Heq _] | [_ [Hldne [Hfr2 [Hnone Hfile]]]]].
      { exfalso. exact (Hdistinct _ _ _ Hloc Hld Heq). }
      rewrite List.app_nil_r in Hev. subst done.
      cbn. exists loc, ld, a', m'. repeat (split; [assumption |]).
      split; [| split; [assumption |]; split; [| split; assumption]].
      * eapply frame_trans; [| exact Hfr2].
        eapply frame_weaken; [| exact Hfr].
        intros l Hl. apply list_elem_of_In. apply list_elem_of_In in Hl. simpl in *. tauto.
      * rewrite Hfile. rewrite Hnode in Hd. congruence.
    + (* a chunk that is written *)
      destruct (String.eqb chunk EmptyString) eqn:Ec.
      * apply String.eqb_eq in Ec. subst chunk. cbn.
        repeat (split; [assumption |]). exists (done ++ [Data EmptyString]), a, m.
        rewrite <- List.app_assoc, written_snoc, forallb_snoc, Hok.
        cbn [chunk_of]. rewrite app_nil_r. auto.
      * destruct (write_at (fs w) loc chunk now) as [f'|] eqn:Ew; [| now apply inv_failed].
        apply (write_at_frame _ _ _ _ _ Hne) in Ew as [Hfr2 [old [a' [m' [Hold Hnew]]]]].
        cbn. repeat (split; [assumption |]).
        split; [eapply frame_trans; eassumption |].
        exists (done ++ [Data chunk]), a', now.
        rewrite <- List.app_assoc, written_snoc, forallb_snoc, Hok. cbn [chunk_of].
        repeat split; [assumption |]. rewrite Hnew. rewrite Hnode in Hold. congruence.
    + (* a chunk whose write fails *)
      destruct (String.eqb chunk EmptyString) eqn:Ec; [| now apply inv_failed].
      apply String.eqb_eq in Ec. subst chunk. cbn.
      repeat (split; [assumption |]). exists (done ++ [DataWriteError EmptyString]), a, m.
      rewrite <- List.app_assoc, written_snoc, forallb_snoc, Hok.
      cbn [chunk_of]. rewrite app_nil_r. auto.
  - auto.
Qed.

Lemma inv_close (s : gen_state) : inv s -> inv (gen_close s).
Proof.
  destruct s as [ph w ys]. unfold gen_close. cbn [phase_of world_of yielded].
  destruct ph as [| loc rest | how]; [| | auto].
  - cbn. intros ->. apply frame_refl.
  - cbn. intros [Hloc [_ [Hfr _]]]. unfold tmp_locs. now rewrite Hloc.
Qed.

Lemma inv_reachable (s : gen_state) :
  rtc gen_step (GenState Created w0 []) s -> inv s.
Proof.
  intros H. eapply (rtc_ind_r (fun s => inv s) (GenState Created w0 [])); [| | exact H].
  - reflexivity.
  - intros y z _ Hstep Hy. destruct Hstep; [now apply inv_next | now apply inv_close].
Qed.

(** A clean stream is committed when the temporary file can be opened and
    the final location is free or holds a regular file. *)
Lemma gen_run_commits (rest : list stream_event) (s : gen_state) (lt lf : list string) :
  phase_of s = Writing lt rest -> inv s ->
  locate (fs w0) cache_path = Some lf ->
  is_dir_at (fs w0) lf = false -> is_dir_at (fs w0) (removelast lf) = true ->
  ending b = EndOfStream -> forallb write_ok rest = true ->
  phase_of (gen_run (S (length rest)) s) = Finished Committed.
Proof.
  intros Hph Hinv Hlf Hnd Hparent Hend. revert s Hph Hinv.
  induction rest as [|e rest IH]; intros s Hph Hinv Hok.
  - cbv [length gen_run Nat.iter nat_rect]. destruct s as [ph w ys]. cbn [phase_of] in Hph. subst ph.
    destruct Hinv as [Hloc [Hne [Hfr [done [a [m [Hev [Hdone Hnode]]]]]]]].
    cbn [phase_of world_of] in *. unfold gen_next. cbn [phase_of world_of]. rewrite Hend.
    assert (Hrename : exists f', rename_file (fs w) temp_path cache_path = Returned f').
    { unfold rename_file.
      rewrite (frame_locate _ _ _ temp_path Hfr), (frame_locate _ _ _ cache_path Hfr).
      rewrite Hloc, Hlf. destruct lt as [|x lt]; [congruence |]. rewrite Hnode.
      pose proof (Hdistinct _ _ _ Hloc Hlf) as Hne'.
      destruct (decide (x :: lt = lf)); [contradiction |].
      destruct lf as [|y lf]; [discriminate |].
      destruct Hfr as [_ [Hn Hd]].
      assert (Hnl : nodes (fs w) !! (y :: lf) = nodes (fs w0) !! (y :: lf)).
      { apply Hn. intros Hin. apply list_elem_of_singleton in Hin. congruence. }
      rewrite Hnl. cbn [is_dir_at] in Hnd.
      destruct (nodes (fs w0) !! (y :: lf)) as [[[d|] a' m']|]; try discriminate; eauto.
      rewrite Hd, Hparent. eauto. }
    destruct Hrename as [f' ->]. reflexivity.
  - cbn [length]. unfold gen_run. rewrite Nat.iter_succ_r. fold (gen_run (S (length rest))).
    cbn [forallb] in Hok. apply andb_true_iff in Hok as [He Hok].
    apply IH; [| now apply inv_next | exact Hok].
    destruct s as [ph w ys]. cbn [phase_of] in Hph. subst ph.
    destruct Hinv as [Hloc [Hne [Hfr [done [a [m [Hev [Hdone Hnode]]]]]]]].
    cbn [phase_of world_of] in *. unfold gen_next. cbn [phase_of world_of].
    destruct e as [chunk|chunk]; cbn [write_ok] in He.
    + destruct (String.eqb chunk EmptyString); [reflexivity |].
      unfold write_at. rewrite Hnode. reflexivity.
    + rewrite He. reflexivity.
Qed.

Lemma gen_run_reachable (n : nat) (s : gen_state) : rtc gen_step s (gen_run n s).
Proof.
  induction n as [|n IH]; [apply rtc_refl |].
  unfold gen_run in *. rewrite Nat.iter_succ. eapply rtc_r; [exact IH | apply step_next].
Qed.

End GenerateCached.

(** The temporary path of a cache path names another location, unless the
    two paths are the same. *)
Lemma temp_location_distinct (temp_path cache_path : Path) :
  with_suffix cache_path ".tmp" = Returned temp_path ->
  temp_path <> cache_path ->
  forall f lt lf,
    locate f temp_path = Some lt -> locate f cache_path = Some lf -> lt <> lf.
Proof.
  intros Hs Hne f lt lf. apply with_suffix_sibling in Hs as [d [x [Hparts [Hx ->]]]].
  destruct cache_path as [r ps]. cbn [root parts] in *. subst ps.
  apply locate_siblings_distinct.
  - intros Heq. apply Hne. now rewrite Heq.
  - intros Heq. apply (f_equal String.length) in Heq. rewrite length_app in Heq.
    cbn in Heq. lia.
Qed.

Lemma gen_run_next (temp_path cache_path : Path) (b : body) (now : Z) (n : nat) (s : gen_state) :
  gen_run temp_path cache_path b now (S n) s
  = gen_run temp_path cache_path b now n (gen_next temp_path cache_path b now s).
Proof. unfold gen_run. apply Nat.iter_succ_r. Qed.

(** What the generator leaves at the two paths, in every state it reaches. *)
Lemma generate_cached_safe
    (temp_path cache_path : Path) (b : body) (now : Z) (w0 : world) (s : gen_state) :
  with_suffix cache_path ".tmp" = Returned temp_path ->
  temp_path <> cache_path ->
  rtc (gen_step temp_path cache_path b now) (GenState Created w0 []) s ->
  let f0 := fs w0 in
  let f := fs (world_of s) in
  (phase_of s <> Finished Committed ->
   frame (tmp_locs temp_path f0) f0 f /\
   stat f cache_path = stat f0 cache_path /\
   read_file f cache_path = read_file f0 cache_path) /\
  (phase_of s = Finished Committed ->
   ending b = EndOfStream /\ forallb write_ok (events b) = true /\
   read_file f cache_path = Some (written (events b)) /\
   read_file f temp_path = None) /\
  (phase_of s = Finished Failed -> read_file f temp_path = None).
Proof.
  intros Hsuffix Hne Hreach f0 f.
  pose proof (temp_location_distinct _ _ Hsuffix Hne) as Hd.
  pose proof (inv_reachable temp_path cache_path b now w0 Hd s Hreach) as Hinv.
  assert (Hkeep : frame (tmp_locs temp_path f0) f0 f ->
            frame (tmp_locs temp_path f0) f0 f /\
            stat f cache_path = stat f0 cache_path /\
            read_file f cache_path = read_file f0 cache_path).
  { intros Hfr.
    assert (Hout : forall l, locate f0 cache_path = Some l -> l ∉ tmp_locs temp_path f0).
    { intros l Hl. unfold tmp_locs. destruct (locate f0 temp_path) as [lt|] eqn:Et.
      - intros Hin. apply list_elem_of_singleton in Hin. subst l. exact (Hd _ _ _ Et Hl eq_refl).
      - apply not_elem_of_nil. }
    split; [exact Hfr |]. split; [now apply (frame_stat _ _ _ _ Hfr) |].
    now apply (frame_read_file _ _ _ _ Hfr). }
  subst f f0. destruct s as [ph w ys]. unfold inv in Hinv. cbn [phase_of world_of] in *.
  destruct ph as [| loc rest | [ | | ]].
  - split; [| split; discriminate]. intros _. apply Hkeep. rewrite Hinv. apply frame_refl.
  - destruct Hinv as [Hloc [_ [Hfr _]]].
    split; [| split; discriminate]. intros _. apply Hkeep. unfold tmp_locs. now rewrite Hloc.
  - destruct Hinv as [lt [lf [a [m [Hlt [Hlf [Hlfne [Hfr [Hnone [Hfile [Hok Hend]]]]]]]]]]].
    split; [congruence |]. split; [| discriminate]. intros _.
    split; [exact Hend |]. split; [exact Hok |]. split.
    + unfold read_file, stat. rewrite (frame_locate _ _ _ cache_path Hfr), Hlf.
      destruct lf; [congruence |]. now rewrite Hfile.
    + unfold read_file, stat. rewrite (frame_locate _ _ _ temp_path Hfr), Hlt.
      destruct lt; [reflexivity |]. now rewrite Hnone.
  - destruct Hinv as [Hfr Hread].
    split; [intros _; now apply Hkeep |]. split; [discriminate | auto].
  - split; [intros _; now apply Hkeep |]. split; discriminate.
Qed.

(** When the temporary file can be opened and the final location is not a
    directory, a stream that ends cleanly is committed once the server has
    pulled it to the end. *)
Lemma generate_cached_commits
    (temp_path cache_path : Path) (b : body) (now : Z) (w0 : world)
    (f1 : filesystem) (lt lf : list string) :
  with_suffix cache_path ".tmp" = Returned temp_path ->
  temp_path <> cache_path ->
  open_wb (fs w0) temp_path now = Returned (f1, lt) ->
  locate (fs w0) cache_path = Some lf ->
  is_dir_at (fs w0) lf = false -> is_dir_at (fs w0) (removelast lf) = true ->
  ending b = EndOfStream -> forallb write_ok (events b) = true ->
  phase_of (gen_run temp_path cache_path b now (2 + length (events b)) (GenState Created w0 []))
  = Finished Committed.
Proof.
  intros Hsuffix Hne Hopen Hlf Hnd Hparent Hend Hok.
  pose proof (temp_location_distinct _ _ Hsuffix Hne) as Hd.
  change (2 + length (events b))%nat with (S (S (length (events b)))).
  rewrite gen_run_next.
  eapply (gen_run_commits temp_path cache_path b now w0 Hd (events b) _ lt lf);
    try eassumption.
  - unfold gen_next. cbn [phase_of world_of]. now rewrite Hopen.
  - apply inv_next; [exact Hd | reflexivity].
Qed.

(** C5, as the code has it.  For a cache path whose temporary path
    [cache_path.with_suffix('.tmp')] is another path: in every state the
    generator reaches, whether it is pulled or closed, only the location of
    the temporary file has changed until the commit, so the final path shows
    what it showed before the fetch; in the committed state the stream ended
    cleanly with every write done, the final path holds all the bytes and
    the temporary file is gone; after an exception no regular file is left
    at the temporary path.  And a stream that ends cleanly is committed,
    provided the temporary file can be opened and the final location is
    not a directory. *)
Theorem generate_cached_atomic
    (temp_path cache_path : Path) (b : body) (now : Z) (w0 : world) :
  with_suffix cache_path ".tmp" = Returned temp_path ->
  temp_path <> cache_path ->
  let f0 := fs w0 in
  let start := GenState Created w0 [] in
  (forall s, rtc (gen_step temp_path cache_path b now) start s ->
     let f := fs (world_of s) in
     (phase_of s <> Finished Committed ->
      frame (tmp_locs temp_path f0) f0 f /\
      stat f cache_path = stat f0 cache_path /\
      read_file f cache_path = read_file f0 cache_path) /\
     (phase_of s = Finished Committed ->
      ending b = EndOfStream /\ forallb write_ok (events b) = true /\
      read_file f cache_path = Some (written (events b)) /\
      read_file f temp_path = None) /\
     (phase_of s = Finished Failed -> read_file f temp_path = None)) /\
  (forall f1 lt lf,
     open_wb f0 temp_path now = Returned (f1, lt) ->
     locate f0 cache_path = Some lf ->
     is_dir_at f0 lf = false -> is_dir_at f0 (removelast lf) = true ->
     ending b = EndOfStream -> forallb write_ok (events b) = true ->
     phase_of (gen_run temp_path cache_path b now (2 + length (events b)) start)
     = Finished Committed).
Proof.
  intros Hsuffix Hne f0 start. split.
  - intros s Hreach.
    exact (generate_cached_safe temp_path cache_path b now w0 s Hsuffix Hne Hreach).
  - intros f1 lt lf.
    exact (generate_cached_commits temp_path cache_path b now w0 f1 lt lf Hsuffix Hne).
Qed.

(** A cache directory with a stale entry [ab_x], and one without. *)
Definition final_x : Path := MkPath "/" ["c"; "ab"; "ab_x"].
Definition temp_x : Path := MkPath "/" ["c"; "ab"; "ab_x.tmp"].

Definition fs_dirs : gmap (list string) inode :=
  <[ ["c"] := Inode None 0 0 ]> (<[ ["c"; "ab"] := Inode None 0 0 ]> ∅).

Definition w_fresh : world :=
  {| fs := {| nodes := fs_dirs; cwd := [] |}; bytes_served := 0; requested := [] |}.

Definition w_stale : world :=
  {| fs := {| nodes := <[ ["c"; "ab"; "ab_x"] := Inode (Some "old") 1 1 ]> fs_dirs; cwd := [] |};
     bytes_served := 0; requested := [] |}.

Definition body_hello : body := Body [Data "HEL"; Data ""; Data "LO"] EndOfStream.
Definition body_broken : body := Body [Data "HEL"] StreamError.

(** C5 as stated fails: the entry is stale, the fetch that should replace
    it breaks off, and the stale file is still at the final path. *)
Lemma failed_fetch_keeps_stale_entry :
  ~ (forall (w0 : world) (cache_path temp_path : Path) (b : body) (now : Z) (s : gen_state),
       with_suffix cache_path ".tmp" = Returned temp_path ->
       rtc (gen_step temp_path cache_path b now) (GenState Created w0 []) s ->
       phase_of s = Finished Failed ->
       read_file (fs (world_of s)) cache_path = None).
Proof.
  intros H.
  specialize (H w_stale final_x temp_x body_broken 5
                (gen_run temp_x final_x body_broken 5 3 (GenState Created w_stale []))
                eq_refl (gen_run_reachable _ _ _ _ _ _)).
  assert (Hph : phase_of (gen_run temp_x final_x body_broken 5 3 (GenState Created w_stale []))
                = Finished Failed) by (vm_compute; reflexivity).
  specialize (H Hph). vm_compute in H. discriminate H.
Qed.

Example generate_cached_commit :
  let s := gen_run temp_x final_x body_hello 5 5 (GenState Created w_fresh []) in
  phase_of s = Finished Committed /\ yielded s = ["HEL"; "LO"] /\
  bytes_served (world_of s) = 5 /\
  read_file (fs (world_of s)) final_x = Some "HELLO" /\
  exists_ (fs (world_of s)) temp_x = false.
Proof. vm_compute. auto. Qed.

(** While the stream runs, the bytes are in the temporary file only. *)
Example generate_cached_midway :
  let s := gen_run temp_x final_x body_hello 5 2 (GenState Created w_stale []) in
  read_file (fs (world_of s)) final_x = Some "old" /\
  read_file (fs (world_of s)) temp_x = Some "HEL".
Proof. vm_compute. auto. Qed.

Example generate_cached_upstream_breaks :
  let s := gen_run temp_x final_x body_broken 5 3 (GenState Created w_fresh []) in
  phase_of s = Finished Failed /\
  exists_ (fs (world_of s)) final_x = false /\ exists_ (fs (world_of s)) temp_x = false.
Proof. vm_compute. auto. Qed.

(** The client goes away after the first chunk: the generator is closed,
    and the temporary file stays. *)
Example generate_cached_closed :
  let s := gen_close (gen_run temp_x final_x body_hello 5 2 (GenState Created w_fresh [])) in
  phase_of s = Finished Closed /\
  exists_ (fs (world_of s)) final_x = false /\
  read_file (fs (world_of s)) temp_x = Some "HEL".
Proof. vm_compute. auto. Qed.

(** An entry whose name ends in [.tmp] is its own temporary path: its
    bytes are written in place. *)
Example with_suffix_tmp_is_itself :
  let entry := MkPath "/" ["c"; "ab"; "ab_x.tmp"] in
  with_suffix entry ".tmp" = Returned entry /\
  read_file (fs (world_of (gen_run entry entry body_hello 5 2 (GenState Created w_fresh []))))
    entry = Some "HEL".
Proof. vm_compute. auto. Qed.

Lemma generate_cached_atomic_witness :
  let s := gen_run temp_x final_x body_hello 5 5 (GenState Created w_stale []) in
  with_suffix final_x ".tmp" = Returned temp_x /\
  phase_of s = Finished Committed /\
  read_file (fs (world_of s)) final_x = Some "HELLO" /\
  read_file (fs (world_of s)) temp_x = None.
Proof.
  intros s.
  assert (Hne : temp_x <> final_x) by discriminate.
  destruct (generate_cached_atomic temp_x final_x body_hello 5 w_stale eq_refl Hne)
    as [Hsafe Hlive].
  assert (Hc : phase_of s = Finished Committed).
  { eapply (Hlive _ ["c"; "ab"; "ab_x.tmp"] ["c"; "ab"; "ab_x"]); reflexivity. }
  destruct (Hsafe s (gen_run_reachable _ _ _ _ _ _)) as [_ [H _]].
  destruct (H Hc) as [_ [_ [Hfinal Htemp]]].
  split; [reflexivity |]. split; [exact Hc |]. split; [exact Hfinal | exact Htemp].
Defined.

End Fetch.

(** ** main.py: the request router *)

Module Router.
Import PyStr Py Config Mirrors.

(** [wsgi.url_scheme], the scheme the server was reached by. *)
Inductive url_scheme : Type := http | https.

Definition scheme_text (s : url_scheme) : string :=
  match s with
  | http => "http"
  | https => "https"
  end.

(** What [handle_all] reads of the request: [request.method], the [path]
    the route captured, [request.headers], and the parts [request.url] is
    built from: the scheme, [request.host] and the query string. *)
Record request := Request {
  method : string;
  path : string;
  scheme : url_scheme;
  host : string;
  query_string : string;
  headers : list (string * string)
}.

(** What [handle_all] returns: one of the three handlers it hands the
    request to, or a response of its own. *)
Inductive action : Type :=
| handle_connect (path : string)
| proxy_package_logic (distro package_path : string)
| direct_proxy (url : string) (headers : list (string * string))
| Response (body : string) (status : Z).

(** [s.lstrip(c)], [s.rstrip(c)] and [s.strip(c)] for one character. *)
Fixpoint lstrip (c : ascii) (s : string) : string :=
  match s with
  | EmptyString => EmptyString
  | String a s' => if ascii_dec a c then lstrip c s' else s
  end.

Fixpoint rstrip (c : ascii) (s : string) : string :=
  match s with
  | EmptyString => EmptyString
  | String a s' =>
      match rstrip c s' with
      | EmptyString => if ascii_dec a c then EmptyString else String a EmptyString
      | r => String a r
      end
  end.

Definition strip (c : ascii) (s : string) : string := rstrip c (lstrip c s).

(** The path with scheme and host cut off when it starts with one. *)
Definition clean_path (path : string) : string :=
  if startswith path "http://" || startswith path "https://"
  then "/" +:+ join "/" (skipn 3 (split "/" path))
  else path.

(** [parts = clean_path.strip('/').split('/', 1)], when [len(parts) >= 2]. *)
Definition route_parts (path : string) : option (string * string) :=
  match split1 "/" (strip "/" (clean_path path)) with
  | (distro, Some package_path) => Some (distro, package_path)
  | (_, None) => None
  end.

(** [{k: v for k, v in request.headers if k.lower() != 'host'}] *)
Definition forwarded_headers (hs : list (string * string)) : list (string * string) :=
  dict_of_items (List.filter (fun kv => negb (String.eqb (lower kv.1) "host")) hs).

Section HandleAll.

(** The path and the query string as they stand in [request.url], where
    Werkzeug has percent-encoded them. *)
Variable url_path : string -> string -> string.

(** [urlparse(url)], as its [scheme] and [netloc], or an exception. *)
Variable urlparse : string -> outcome (string * string).
Variable n : net.

(** [request.url].  It is not the request target the client sent: Werkzeug
    builds it from the scheme, the host and the path of the request, so it
    is a full URL for every request. *)
Definition url (req : request) : string :=
  scheme_text (scheme req) +:+ "://" +:+ host req +:+ "/"
  +:+ url_path (path req) (query_string req).

(** The code after the managed-distro test: passthrough or 404. *)
Definition unknown_request (CONFIG : gmap string value) (st : state) (req : request)
    : action * state :=
  if truthy (get_config CONFIG "passthrough_mode" (VBool true)) then
    if startswith (url req) "http" then
      let hs := forwarded_headers (headers req) in
      match urlparse (url req) with
      | Returned (scheme, host) =>
          let mirrors_config := get_all_mirrors (MIRRORS_CACHE st) in
          match mirrors_config !! host with
          | None =>
              let new_url := scheme +:+ "://" +:+ host in
              let '(_, st') := save_mirror_to_db n st host [new_url] "pending" in
              (direct_proxy (url req) hs, st')
          | Some _ => (direct_proxy (url req) hs, st)
          end
      | Raised => (direct_proxy (url req) hs, st)
      end
    else (Response ("Unknown path and not a full proxy URL: " +:+ path req) 404, st)
  else (Response ("Unsupported request: " +:+ path req) 404, st).

(** [handle_all(path)] *)
Definition handle_all (CONFIG : gmap string value) (st : state) (req : request)
    : action * state :=
  if String.eqb (method req) "CONNECT" then (handle_connect (path req), st)
  else
    match route_parts (path req) with
    | Some (distro, package_path) =>
        let mirrors_config := get_all_mirrors (MIRRORS_CACHE st) in
        let upstream_key := get_upstream_key (MIRRORS_CACHE st) distro package_path in
        if bool_decide (upstream_key ∈ dom mirrors_config)
           || bool_decide (distro ∈ dom mirrors_config)
        then (proxy_package_logic distro package_path, st)
        else unknown_request CONFIG st req
    | None => unknown_request CONFIG st req
    end.

End HandleAll.

(** The path of a request maps to a managed distro: it splits into a first
    segment and a rest, and the upstream key of the two, or the segment
    itself, is an approved mirror. *)
Definition managed (st : state) (req : request) : Prop :=
  exists distro package_path,
    route_parts (path req) = Some (distro, package_path) /\
    (get_upstream_key (MIRRORS_CACHE st) distro package_path
       ∈ dom (get_all_mirrors (MIRRORS_CACHE st)) \/
     distro ∈ dom (get_all_mirrors (MIRRORS_CACHE st))).

Definition passthrough_mode (CONFIG : gmap string value) : bool :=
  truthy (get_config CONFIG "passthrough_mode" (VBool true)).

(** [request.url] starts with [http] whatever the request was. *)
Lemma url_startswith_http (url_path : string -> string -> string) (req : request) :
  startswith (url url_path req) "http" = true.
Proof. unfold url. now destruct (scheme req). Qed.

Lemma unknown_request_cases url_path urlparse n CONFIG st (req : request) :
  (passthrough_mode CONFIG = true /\
   exists st', unknown_request url_path urlparse n CONFIG st req
               = (direct_proxy (url url_path req) (forwarded_headers (headers req)), st')) \/
  (passthrough_mode CONFIG = false /\
   unknown_request url_path urlparse n CONFIG st req
   = (Response ("Unsupported request: " +:+ path req) 404, st)).
Proof.
  unfold unknown_request, passthrough_mode.
  destruct (truthy _); [| right; eauto].
  rewrite url_startswith_http.
  left. split; [reflexivity |].
  destruct (urlparse (url url_path req)) as [[scheme host]|]; [| eauto].
  destruct (get_all_mirrors (MIRRORS_CACHE st) !! host); [eauto |].
  destruct (save_mirror_to_db n st host _ "pending") as [ok st']. eauto.
Qed.

Lemma handle_all_unmanaged url_path urlparse n CONFIG st (req : request) :
  method req <> "CONNECT" -> ~ managed st req ->
  handle_all url_path urlparse n CONFIG st req
  = unknown_request url_path urlparse n CONFIG st req.
Proof.
  intros Hm Hnot. unfold handle_all.
  destruct (String.eqb (method req) "CONNECT") eqn:E; [apply String.eqb_eq in E; contradiction |].
  destruct (route_parts (path req)) as [[distro pp]|] eqn:Er; [| reflexivity].
  destruct (_ || _) eqn:Eor; [| reflexivity].
  exfalso. apply Hnot. exists distro, pp. split; [exact Er |].
  apply orb_true_iff in Eor as [H|H]; apply bool_decide_eq_true in H; auto.
Qed.

(** With [passthrough_mode] on, every request that is not managed is
    proxied directly, to the URL Werkzeug has built for it; the answer
    [Unknown path and not a full proxy URL] is never given. *)
Lemma handle_all_passthrough url_path urlparse n CONFIG st (req : request) :
  (method req <> "CONNECT" -> ~ managed st req -> passthrough_mode CONFIG = true ->
   exists st', handle_all url_path urlparse n CONFIG st req
               = (direct_proxy (url url_path req) (forwarded_headers (headers req)), st')) /\
  (forall body status st',
     handle_all url_path urlparse n CONFIG st req = (Response body status, st') ->
     passthrough_mode CONFIG = false /\ ~ managed st req /\
     body = "Unsupported request: " +:+ path req /\ status = 404 /\ st' = st).
Proof.
  split.
  - intros Hm Hnot Hp. rewrite (handle_all_unmanaged url_path urlparse n CONFIG st req Hm Hnot).
    destruct (unknown_request_cases url_path urlparse n CONFIG st req)
      as [[_ Hd] | [Hno _]]; [exact Hd | congruence].
  - intros body status st'. unfold handle_all.
    destruct (String.eqb (method req) "CONNECT"); [discriminate |].
    assert (Hunknown : unknown_request url_path urlparse n CONFIG st req
                       = (Response body status, st') ->
              passthrough_mode CONFIG = false /\
              body = "Unsupported request: " +:+ path req /\ status = 404 /\ st' = st).
    { destruct (unknown_request_cases url_path urlparse n CONFIG st req)
        as [[_ [st1 Hd]] | [Hno H404]].
      - rewrite Hd. discriminate.
      - rewrite H404. intros [= <- <- <-]. auto. }
    destruct (route_parts (path req)) as [[distro pp]|] eqn:Er.
    + destruct (_ || _) eqn:Eor; [discriminate |].
      intros H. destruct (Hunknown H) as [Hp Hrest]. split; [exact Hp |].
      split; [| exact Hrest]. intros [d [p' [Hr Hin]]]. rewrite Er in Hr.
      injection Hr as <- <-. apply orb_false_iff in Eor as [H1 H2].
      apply bool_decide_eq_false in H1, H2. tauto.
    + intros H. destruct (Hunknown H) as [Hp Hrest]. split; [exact Hp |].
      split; [| exact Hrest]. intros [d [p' [Hr _]]]. congruence.
Qed.

(** [urlparse] for URLs of the form [scheme://host/path]. *)
Definition simple_urlparse (u : string) : outcome (string * string) :=
  match split "/" u with
  | scheme :: EmptyString :: host :: _ => Returned (rstrip ":" scheme, host)
  | _ => Returned (EmptyString, EmptyString)
  end.

(** [request.url] for a path and a query string that need no encoding. *)
Definition plain_url_path (path query_string : string) : string :=
  lstrip "/" path +:+
  (if String.eqb query_string EmptyString then EmptyString else "?" +:+ query_string).

Definition st_ubuntu : state :=
  {| db_mirrors := cache_ubuntu; MIRRORS_CACHE := cache_ubuntu |}.

Definition config_default : gmap string value := ∅.
Definition config_no_passthrough : gmap string value :=
  <["passthrough_mode" := VBool false]> ∅.

(** [GET http://new.example/repo/file HTTP/1.1], sent by a client that
    uses the server as its proxy. *)
Definition req_unknown_host : request :=
  {| method := "GET"; path := "repo/file"; scheme := http; host := "new.example";
     query_string := EmptyString;
     headers := [("Host", "new.example"); ("Accept", "*/*")] |}.

(** [GET /repo/file HTTP/1.1] with [Host: cache01:8080], sent to the server
    itself. *)
Definition req_origin_form : request :=
  {| method := "GET"; path := "repo/file"; scheme := http; host := "cache01:8080";
     query_string := EmptyString;
     headers := [("Host", "cache01:8080")] |}.

(** An unknown host is proxied directly and learned as a pending mirror. *)
Example handle_all_learns :
  handle_all plain_url_path simple_urlparse net_lan config_default st_ubuntu req_unknown_host
  = (direct_proxy "http://new.example/repo/file" [("Accept", "*/*")],
     {| db_mirrors := <["new.example" := Mirror ["http://new.example"] "pending"]> cache_ubuntu;
        MIRRORS_CACHE := <["new.example" := Mirror ["http://new.example"] "pending"]> cache_ubuntu |}).
Proof. vm_compute. reflexivity. Qed.

Example handle_all_managed :
  handle_all plain_url_path simple_urlparse net_lan config_default st_ubuntu
    {| method := "GET"; path := "http://archive.ubuntu.com/ubuntu/dists/jammy/InRelease";
       scheme := http; host := "cache01:8080"; query_string := EmptyString; headers := [] |}
  = (proxy_package_logic "ubuntu" "dists/jammy/InRelease", st_ubuntu).
Proof. vm_compute. reflexivity. Qed.

Example handle_all_security_variant :
  handle_all plain_url_path simple_urlparse net_lan config_no_passthrough
    {| db_mirrors := ∅;
       MIRRORS_CACHE := {[ "kali-security" := Mirror ["http://k/sec"] "approved" ]} |}
    {| method := "GET"; path := "kali/dists/kali-security/Release";
       scheme := http; host := "cache01"; query_string := EmptyString; headers := [] |}
  = (proxy_package_logic "kali" "dists/kali-security/Release",
     {| db_mirrors := ∅;
        MIRRORS_CACHE := {[ "kali-security" := Mirror ["http://k/sec"] "approved" ]} |}).
Proof. vm_compute. reflexivity. Qed.

Example handle_all_no_passthrough :
  handle_all plain_url_path simple_urlparse net_lan config_no_passthrough st_ubuntu
    req_unknown_host
  = (Response "Unsupported request: repo/file" 404, st_ubuntu).
Proof. vm_compute. reflexivity. Qed.

Example handle_all_connect :
  handle_all plain_url_path simple_urlparse net_lan config_default st_ubuntu
    {| method := "CONNECT"; path := "deb.example:443"; scheme := http;
       host := "deb.example:443"; query_string := EmptyString; headers := [] |}
  = (handle_connect "deb.example:443", st_ubuntu).
Proof. vm_compute. reflexivity. Qed.

Lemma req_unknown_host_unmanaged : ~ managed st_ubuntu req_unknown_host.
Proof.
  intros [distro [pp [Hr Hin]]]. vm_compute in Hr. injection Hr as <- <-.
  destruct Hin as [H|H]; apply elem_of_dom in H as [us H]; vm_compute in H; discriminate.
Qed.

(** C2 at a request in origin form.  [GET /repo/file] sent to the server
    itself names no managed distro; with [passthrough_mode] on (its
    default) the server does not answer 404 but proxies the request, to the
    URL [request.url] gives, which names the server itself.  So it is for
    every request: whenever [passthrough_mode] is on, a request that is not
    managed is proxied directly, and the only 404 of [handle_all] is the one
    it gives with [passthrough_mode] off. *)
Theorem handle_all_proxies_origin_form :
  ~ managed st_ubuntu req_origin_form /\
  passthrough_mode config_default = true /\
  handle_all plain_url_path simple_urlparse net_lan config_default st_ubuntu req_origin_form
  = (direct_proxy "http://cache01:8080/repo/file" [], st_ubuntu) /\
  (forall url_path urlparse n CONFIG st req,
     method req <> "CONNECT" -> ~ managed st req -> passthrough_mode CONFIG = true ->
     exists st', handle_all url_path urlparse n CONFIG st req
                 = (direct_proxy (url url_path req) (forwarded_headers (headers req)), st')) /\
  (forall url_path urlparse n CONFIG st req body status st',
     handle_all url_path urlparse n CONFIG st req = (Response body status, st') ->
     passthrough_mode CONFIG = false).
Proof.
  split; [| split; [reflexivity |]; split; [vm_compute; reflexivity |]; split].
  - intros [distro [pp [Hr Hin]]]. vm_compute in Hr. injection Hr as <- <-.
    destruct Hin as [H|H]; apply elem_of_dom in H as [us H]; vm_compute in H; discriminate.
  - intros url_path urlparse n CONFIG st req.
    exact (proj1 (handle_all_passthrough url_path urlparse n CONFIG st req)).
  - intros url_path urlparse n CONFIG st req body status st' H.
    exact (proj1 (proj2 (handle_all_passthrough url_path urlparse n CONFIG st req)
                    body status st' H)).
Qed.

End Router.

(** ** Download and removal of cache files

    [api_download_cache] of utils/routes.py and [delete_cached_file] of
    services/cache_manager.py, both given a path relative to the storage
    root by the caller of the API. *)

Module CacheFiles.
Import PyStr Py Config Fs.

(** [Path(p).resolve()] on a file system without symbolic links: the path
    made absolute, each ['..'] cancelling the component before it. *)
Definition resolve (f : filesystem) (p : Path) : Path :=
  let relative := String.eqb (root p) EmptyString in
  MkPath (if relative then "/" else root p)
         (fold_left (fun cur x => if String.eqb x ".." then removelast cur else cur ++ [x])
                    (parts p) (if relative then cwd f else [])).

(** [delete_cached_file(rel_path)]: the returned flag and the file system
    left.  Every exception ends in [return False]. *)
Definition delete_cached_file (CONFIG : gmap string value) (f : filesystem)
    (rel_path : string) : bool * filesystem :=
  match get_config CONFIG "storage_path_resolved" VNone with
  | VStr storage_path_str =>
      if String.eqb storage_path_str EmptyString then (false, f)
      else
        let full_path := joinpath (of_string storage_path_str) rel_path in
        if negb (startswith (str full_path) (str (resolve f (of_string storage_path_str))))
        then (false, f)
        else if exists_ f full_path then
          match unlink f full_path with
          | Returned f' => (true, f')
          | Raised => (false, f)
          end
        else (false, f)
  | _ => (false, f)
  end.

Inductive reply : Type :=
| Respond (body : string) (status : Z)
| send_file (p : Path) (download_name : string).

(** [api_download_cache()], given [request.args.get('path')]. *)
Definition api_download_cache (CONFIG : gmap string value) (f : filesystem)
    (arg : option string) : outcome reply :=
  match arg with
  | None => Returned (Respond "Missing path parameter" 400)
  | Some file_path =>
      if String.eqb file_path EmptyString
      then Returned (Respond "Missing path parameter" 400)
      else if contains ".." file_path || startswith file_path "/"
      then Returned (Respond "Invalid path" 400)
      else
        match get_config CONFIG "storage_path_resolved" VNone with
        | VStr storage_path_str =>
            if String.eqb storage_path_str EmptyString
            then Returned (Respond "Storage not configured" 500)
            else
              let full_path := joinpath (of_string storage_path_str) file_path in
              if negb (exists_ f full_path) then Returned (Respond "File not found" 404)
              else
                let filename := name full_path in
                let download_name :=
                  match split1 "_" filename with
                  | (_, Some t) => t
                  | (_, None) => filename
                  end in
                Returned (send_file full_path download_name)
        | v => if truthy v then Raised else Returned (Respond "Storage not configured" 500)
        end
  end.

(** *** The download stays under the storage root *)

Lemma split_fields_substrings (c : ascii) (s : string) :
  (exists r, s = hd EmptyString (split c s) +:+ r) /\
  (forall x, In x (split c s) -> exists l r, s = l +:+ x +:+ r).
Proof.
  induction s as [|a s [[r0 Hhd] IH]].
  - split; [now exists EmptyString |]. intros x [<-|[]]. now exists EmptyString, EmptyString.
  - cbn [split]. destruct (ascii_dec a c) as [->|Hne].
    + split; [now exists (String c s) |]. intros x [<-|Hin].
      * now exists EmptyString, (String c s).
      * destruct (IH x Hin) as [l [r Hs]]. exists (String c l), r.
        rewrite app_cons. now rewrite <- Hs.
    + destruct (split c s) as [|f fs] eqn:Es.
      * split; [now exists s |]. intros x [<-|[]]. exists EmptyString, s. reflexivity.
      * cbn [hd] in Hhd. split.
        -- exists r0. cbn [hd]. rewrite app_cons. now rewrite <- Hhd.
        -- intros x [<-|Hin].
           ++ exists EmptyString, r0. rewrite app_nil_l, app_cons. now rewrite <- Hhd.
           ++ destruct (IH x (or_intror Hin)) as [l [r Hs]]. exists (String a l), r.
              rewrite app_cons. now rewrite <- Hs.
Qed.

Lemma parse_parts_no_dotdot (s : string) :
  contains ".." s = false -> Forall (fun x => x <> "..") (parse_parts s).
Proof.
  intros Hc. unfold parse_parts. apply List.Forall_forall. intros x Hin.
  apply List.filter_In in Hin as [Hin _]. intros ->.
  destruct (split_fields_substrings "/" s) as [_ H]. destruct (H ".." Hin) as [l [r Hs]].
  assert (contains ".." s = true) by (apply contains_spec; eauto). congruence.
Qed.

Lemma walk_plain (f : filesystem) (ps cur l : list string) :
  Forall (fun x => x <> "..") ps -> walk f cur ps = Some l -> l = cur ++ ps.
Proof.
  revert cur; induction ps as [|p r IH]; intros cur Hps; cbn [walk].
  - intros [= <-]. now rewrite List.app_nil_r.
  - inversion Hps as [|? ? Hp Hr]; subst. destruct (is_dir_at f cur); [| discriminate].
    destruct (String.eqb p "..") eqn:E; [apply String.eqb_eq in E; contradiction |].
    intros H. rewrite (IH _ Hr H). now rewrite <- List.app_assoc.
Qed.

(** The file [api_download_cache] sends lies below the storage directory:
    the request path is relative and free of ['..'], and the location of
    the file extends that of the storage root. *)
Lemma api_download_cache_confined (CONFIG : gmap string value) (f : filesystem)
    (arg : option string) (p : Path) (download_name : string) :
  api_download_cache CONFIG f arg = Returned (send_file p download_name) ->
  exists file_path storage,
    arg = Some file_path /\
    contains ".." file_path = false /\ startswith file_path "/" = false /\
    get_config CONFIG "storage_path_resolved" VNone = VStr storage /\
    p = joinpath (of_string storage) file_path /\
    exists root_loc below,
      locate f (of_string storage) = Some root_loc /\
      locate f p = Some (root_loc ++ below).
Proof.
  unfold api_download_cache. destruct arg as [file_path|]; [| discriminate].
  destruct (String.eqb file_path EmptyString); [discriminate |].
  destruct (contains ".." file_path) eqn:Edd; [discriminate |].
  destruct (startswith file_path "/") eqn:Eabs; [discriminate |]. cbn [orb].
  destruct (get_config CONFIG "storage_path_resolved" VNone) as [| b | z | storage] eqn:Ecfg;
    try (destruct (truthy _); discriminate).
  destruct (String.eqb storage EmptyString); [discriminate |].
  destruct (exists_ f (joinpath (of_string storage) file_path)) eqn:Ex; [| discriminate].
  cbn [negb]. intros [= <- _]. exists file_path, storage.
  split; [reflexivity |]. split; [exact Edd |]. split; [exact Eabs |].
  do 2 (split; [reflexivity |]).
  revert Ex. unfold exists_, stat, locate.
  rewrite (CachePath.joinpath_relative _ _ Eabs). cbn [root parts]. rewrite walk_app.
  destruct (walk f _ (parts (of_string storage))) as [root_loc|]; [| discriminate].
  destruct (walk f root_loc (parse_parts file_path)) as [l|] eqn:Ew; [| discriminate].
  intros _. exists root_loc, (parse_parts file_path). split; [reflexivity |].
  f_equal. eapply walk_plain; [| exact Ew]. now apply parse_parts_no_dotdot.
Qed.

(** The storage root [/srv/cache] with one entry, and a file beside it. *)
Definition fs_victim : filesystem :=
  {| nodes :=
       <[ ["srv"] := Inode None 0 0 ]>
       (<[ ["srv"; "cache"] := Inode None 0 0 ]>
       (<[ ["srv"; "cache"; "ab_x"] := Inode (Some "pkg") 0 0 ]>
       (<[ ["srv"; "secrets.db"] := Inode (Some "secret") 0 0 ]>
       (<[ ["srv"; "cache-old"] := Inode None 0 0 ]>
       (<[ ["srv"; "cache-old"; "keep"] := Inode (Some "kept") 0 0 ]> ∅)))));
     cwd := ["srv"; "app"] |}.

Definition config_srv : gmap string value :=
  <["storage_path_resolved" := VStr "/srv/cache"]> ∅.

(** C3 at the path [../secrets.db]: the delete operation accepts it and
    removes [/srv/secrets.db], a file outside the storage root
    [/srv/cache]; the download operation refuses the same path. *)
Lemma delete_cached_file_escapes_storage_root :
  let '(deleted, f') := delete_cached_file config_srv fs_victim "../secrets.db" in
  deleted = true /\
  read_file fs_victim (of_string "/srv/secrets.db") = Some "secret" /\
  read_file f' (of_string "/srv/secrets.db") = None /\
  api_download_cache config_srv fs_victim (Some "../secrets.db")
    = Returned (Respond "Invalid path" 400).
Proof. vm_compute. auto. Qed.

(** An absolute path that merely starts with the text of the storage root
    passes the prefix test as well. *)
Example delete_cached_file_sibling_directory :
  let '(deleted, f') := delete_cached_file config_srv fs_victim "/srv/cache-old/keep" in
  deleted = true /\ read_file f' (of_string "/srv/cache-old/keep") = None.
Proof. vm_compute. auto. Qed.

Example delete_cached_file_inside :
  let '(deleted, f') := delete_cached_file config_srv fs_victim "ab_x" in
  deleted = true /\ read_file f' (of_string "/srv/cache/ab_x") = None /\
  read_file f' (of_string "/srv/secrets.db") = Some "secret".
Proof. vm_compute. auto. Qed.

Example delete_cached_file_absolute_elsewhere :
  delete_cached_file config_srv fs_victim "/etc/passwd" = (false, fs_victim).
Proof. vm_compute. reflexivity. Qed.

Example api_download_cache_entry :
  api_download_cache config_srv fs_victim (Some "ab_x")
  = Returned (send_file (of_string "/srv/cache/ab_x") "x").
Proof. vm_compute. reflexivity. Qed.

Example api_download_cache_absolute :
  api_download_cache config_srv fs_victim (Some "/srv/secrets.db")
  = Returned (Respond "Invalid path" 400).
Proof. vm_compute. reflexivity. Qed.

End CacheFiles.

(** ** services/proxy.py: serving a managed distro *)

Module Proxy.
Import PyStr Py Config Fs.

(** [os.utime(p, (atime, mtime))] *)
Definition utime (f : filesystem) (p : Path) (atime mtime : Z) : outcome filesystem :=
  match locate f p with
  | Some [] => Returned f
  | Some loc =>
      match nodes f !! loc with
      | Some i => Returned (set_nodes f (<[loc := Inode (content i) atime mtime]> (nodes f)))
      | None => Raised
      end
  | None => Raised
  end.

(** The counters of [STATS] beside [bytes_served]. *)
Record counters := Counters {
  requests_total : Z;
  cache_hits : Z;
  cache_misses : Z
}.

(** What [proxy_package_logic] returns: [send_file] of a cache entry, the
    response of [stream_and_cache], or a response of its own. *)
Inductive served : Type :=
| send_file (cache_path : Path)
| fetched (r : Fetch.Response)
| plain (body : string) (status : Z).

(** [serve_from_cache(cache_path)]; the size of a directory counts as 0. *)
Definition serve_from_cache (w : Fetch.world) (now : Z) (cache_path : Path)
    : served * Fetch.world :=
  let f1 :=
    match (i ← stat (Fetch.fs w) cache_path;
           utime (Fetch.fs w) cache_path now (st_mtime i)) with
    | Returned f' => f'
    | Raised => Fetch.fs w
    end in
  match stat f1 cache_path with
  | Returned i =>
      let file_size :=
        match content i with
        | Some d => Z.of_nat (String.length d)
        | None => 0
        end in
      let w' := {| Fetch.fs := f1;
                   Fetch.bytes_served := Fetch.bytes_served w + file_size;
                   Fetch.requested := Fetch.requested w |} in
      match content i with
      | Some _ => (send_file cache_path, w')
      | None => (plain "Error reading cache" 500, w')
      end
  | Raised => (plain "Error reading cache" 500, Fetch.set_fs w f1)
  end.

Section ProxyPackageLogic.

(** The offset of the local zone from UTC, by instant. *)
Variable utcoffset : Z -> Z.
Variable re_search_ignorecase : string -> string -> Blacklist.re_result.
Variable BLACKLIST_PATTERNS : list string.
Variable upstream : nat -> string -> list (string * string) -> Fetch.get_result.

(** [proxy_package_logic(distro, package_path)], given the request headers
    and the clock. *)
Definition proxy_package_logic (CONFIG : gmap string value)
    (MIRRORS_CACHE : gmap string Mirrors.mirror) (w : Fetch.world) (c : counters)
    (now : Z) (request_headers : list (string * string)) (distro package_path : string)
    : outcome (served * Fetch.world * counters) :=
  let c := {| requests_total := requests_total c + 1;
              cache_hits := cache_hits c; cache_misses := cache_misses c |} in
  r ← CachePath.get_cache_path CONFIG (Fetch.fs w) now distro package_path;
  let '(cache_path, f1) := r in
  let w := Fetch.set_fs w f1 in
  valid ← Freshness.is_cache_valid utcoffset CONFIG (Fetch.fs w) now cache_path;
  if valid : bool then
    let c := {| requests_total := requests_total c;
                cache_hits := cache_hits c + 1; cache_misses := cache_misses c |} in
    let '(s, w') := serve_from_cache w now cache_path in
    Returned (s, w', c)
  else
    let c := {| requests_total := requests_total c;
                cache_hits := cache_hits c; cache_misses := cache_misses c + 1 |} in
    let upstream_key := Mirrors.get_upstream_key MIRRORS_CACHE distro package_path in
    let mirrors_config := Mirrors.get_all_mirrors MIRRORS_CACHE in
    let chosen :=
      match mirrors_config !! upstream_key with
      | Some mirrors => Some mirrors
      | None => mirrors_config !! distro
      end in
    match chosen with
    | None => Returned (plain ("Unsupported: " +:+ upstream_key) 404, w, c)
    | Some mirrors =>
        let upstream_urls := List.map (fun mirror => mirror +:+ "/" +:+ package_path) mirrors in
        let headers := Router.forwarded_headers request_headers in
        r ← Fetch.stream_and_cache re_search_ignorecase BLACKLIST_PATTERNS upstream
              w (Fetch.UrlList upstream_urls) cache_path headers;
        Returned (fetched r.1, r.2, c)
    end.

End ProxyPackageLogic.

(** *** The first scenario of the specification

    [ubuntu] has one mirror, which answers [HELLO] to [pool/x.deb]. *)

Definition one_day : Z := Freshness.day_us.

Definition config_srv : gmap string value :=
  <["storage_path_resolved" := VStr "/srv/cache"]> (<["cache_days" := VInt 7]> ∅).

Definition mirrors_ubuntu : gmap string Mirrors.mirror :=
  {[ "ubuntu" := Mirrors.Mirror ["http://a/ubuntu"] "approved" ]}.

Definition w_start : Fetch.world :=
  {| Fetch.fs := {| nodes := <[ ["srv"] := Inode None 0 0 ]>
                            (<[ ["srv"; "cache"] := Inode None 0 0 ]> ∅);
                    cwd := [] |};
     Fetch.bytes_served := 0; Fetch.requested := [] |}.

Definition body_hello : Fetch.body := Fetch.Body [Fetch.Data "HELLO"] Fetch.EndOfStream.

Definition upstream_hello (n : nat) (url : string) (hs : list (string * string))
    : Fetch.get_result :=
  Fetch.GetResponse 200 [("Content-Length", "5")] body_hello.

Definition upstream_breaks (n : nat) (url : string) (hs : list (string * string))
    : Fetch.get_result :=
  Fetch.GetResponse 200 [] (Fetch.Body [Fetch.Data "HE"] Fetch.StreamError).

Definition entry_x : Path :=
  of_string "/srv/cache/ubuntu/9b/9bb592ca3754479107632ca45b632438_x.deb".
Definition entry_x_tmp : Path :=
  of_string "/srv/cache/ubuntu/9b/9bb592ca3754479107632ca45b632438_x.tmp".

Definition c0 : counters := Counters 0 0 0.

(** The world after the first request has been answered and its body
    pulled to the end. *)
Definition w_cached : Fetch.world :=
  match proxy_package_logic Freshness.utc Blacklist.glob_re_search [] upstream_hello config_srv
          mirrors_ubuntu w_start c0 one_day [] "ubuntu" "pool/x.deb" with
  | Returned (fetched r, w, _) =>
      match Fetch.payload_of r with
      | Fetch.Stream (Fetch.generate_cached t p b) =>
          Fetch.world_of (Fetch.gen_run t p b one_day 3 (Fetch.GenState Fetch.Created w []))
      | _ => w
      end
  | _ => w_start
  end.

Example first_request_is_a_miss :
  match proxy_package_logic Freshness.utc Blacklist.glob_re_search [] upstream_hello config_srv
          mirrors_ubuntu w_start c0 one_day [("Host", "cache01")] "ubuntu" "pool/x.deb" with
  | Returned (fetched r, w, c) =>
      Fetch.status r = 200 /\
      Fetch.payload_of r = Fetch.Stream (Fetch.generate_cached entry_x_tmp entry_x body_hello) /\
      c = Counters 1 0 1 /\
      Fetch.requested w = ["http://a/ubuntu/pool/x.deb"] /\
      exists_ (Fetch.fs w) entry_x = false
  | _ => False
  end.
Proof. vm_compute. auto 10. Qed.

Example first_request_is_cached :
  read_file (Fetch.fs w_cached) entry_x = Some "HELLO" /\
  exists_ (Fetch.fs w_cached) entry_x_tmp = false /\
  Fetch.bytes_served w_cached = 5.
Proof. vm_compute. auto. Qed.

(** An hour later the same request is a hit, and no mirror is asked. *)
Example second_request_is_a_hit :
  match proxy_package_logic Freshness.utc Blacklist.glob_re_search [] upstream_hello config_srv
          mirrors_ubuntu w_cached (Counters 1 0 1) (one_day + 3600000000) []
          "ubuntu" "pool/x.deb" with
  | Returned (s, w, c) =>
      s = send_file entry_x /\ c = Counters 2 1 1 /\
      Fetch.requested w = Fetch.requested w_cached /\ Fetch.bytes_served w = 10
  | Raised => False
  end.
Proof. vm_compute. auto. Qed.

(** Nine days later the entry has expired; the mirror now breaks off in
    mid-stream, and the expired entry is still in place afterwards. *)
Example expired_entry_survives_failed_fetch :
  match proxy_package_logic Freshness.utc Blacklist.glob_re_search [] upstream_breaks config_srv
          mirrors_ubuntu w_cached (Counters 1 0 1) (10 * one_day) [] "ubuntu" "pool/x.deb" with
  | Returned (fetched r, w, c) =>
      c = Counters 2 0 2 /\
      match Fetch.payload_of r with
      | Fetch.Stream (Fetch.generate_cached t p b) =>
          let s := Fetch.gen_run t p b (10 * one_day) 3 (Fetch.GenState Fetch.Created w []) in
          p = entry_x /\ Fetch.phase_of s = Fetch.Finished Fetch.Failed /\
          read_file (Fetch.fs (Fetch.world_of s)) entry_x = Some "HELLO" /\
          exists_ (Fetch.fs (Fetch.world_of s)) entry_x_tmp = false
      | _ => False
      end
  | _ => False
  end.
Proof. vm_compute. auto 10. Qed.

End Proxy.

(** ** services/mirrors.py: maintenance of the registry *)

Module Registry.
Import PyStr Py Mirrors.

(** [update_mirror(name, urls=None, status=None)], [urls] being a list of
    URLs when it is given. *)
Definition update_mirror (n : net) (st : state) (name : string)
    (new_urls : option (list string)) (new_status : option string) : bool * state :=
  match MIRRORS_CACHE st !! name with
  | None => (false, st)
  | Some current_data =>
      let status' := match new_status with
                     | Some s => s
                     | None => status current_data
                     end in
      let status_ok :=
        match new_status with
        | Some s => bool_decide (s ∈ ["approved"; "pending"; "blacklisted"])
        | None => true
        end in
      if negb status_ok then (false, st)
      else
        let checked :=
          match new_urls with
          | Some us =>
              match List.filter (validate_mirror n) us with
              | [] => None
              | valid_urls => Some valid_urls
              end
          | None => Some (urls current_data)
          end in
        match checked with
        | None => (false, st)
        | Some urls' =>
            if db_ok n then
              match db_mirrors st !! name with
              | None => (false, st)
              | Some _ =>
                  (true,
                   {| db_mirrors := <[name := Mirror urls' status']> (db_mirrors st);
                      MIRRORS_CACHE := <[name := Mirror urls' status']> (MIRRORS_CACHE st) |})
              end
            else (false, st)
        end
  end.

(** [delete_mirror(name)] *)
Definition delete_mirror (n : net) (st : state) (name : string) : bool * state :=
  if db_ok n then
    (true, {| db_mirrors := delete name (db_mirrors st);
              MIRRORS_CACHE := delete name (MIRRORS_CACHE st) |})
  else (false, st).

(** A row of the table as [load_mirrors_from_db] reads it: the name, what
    [json.loads] makes of the [urls] column ([None] when it raises), and
    the status. *)
Definition row : Type := string * option (list string) * string.

(** [load_mirrors_from_db()]: the new [MIRRORS_CACHE], filled from the
    rows in the order the database lists them; a row that does not decode
    is passed over, and nothing changes when the query fails. *)
Definition load_mirrors_from_db (n : net) (rows : list row)
    (cache : gmap string mirror) : gmap string mirror :=
  if db_ok n then
    fold_left (fun m (r : row) =>
                 match r with
                 | (name, Some us, status) => <[name := Mirror us status]> m
                 | (_, None, _) => m
                 end) rows ∅
  else cache.

(** The rows of a table this module has written: [json.loads] gives back
    the list [json.dumps] was given. *)
Definition rows_of (table : gmap string mirror) : list row :=
  (fun kv => (kv.1, Some (urls kv.2), status kv.2)) <$> map_to_list table.

(** [get_mirrors_management()] *)
Definition get_mirrors_management (st : state) : gmap string mirror := MIRRORS_CACHE st.

(** The table and the cache hold the same entries. *)
Definition in_sync (st : state) : Prop := db_mirrors st = MIRRORS_CACHE st.

Lemma save_mirror_to_db_cases (n : net) (st : state) (name : string)
    (us : list string) (status : string) :
  save_mirror_to_db n st name us status = (false, st) \/
  (List.filter (validate_mirror n) us <> [] /\ is_self n name = false /\ db_ok n = true /\
   save_mirror_to_db n st name us status
   = (true,
      {| db_mirrors :=
           <[name := Mirror (List.filter (validate_mirror n) us) status]> (db_mirrors st);
         MIRRORS_CACHE :=
           <[name := Mirror (List.filter (validate_mirror n) us) status]> (MIRRORS_CACHE st) |})).
Proof.
  unfold save_mirror_to_db. destruct (is_self n name); [now left |].
  destruct (List.filter (validate_mirror n) us) as [|u r] eqn:E; [now left |].
  destruct (db_ok n); [| now left]. right. repeat split. discriminate.
Qed.

Lemma update_mirror_cases (n : net) (st : state) (name : string)
    (new_urls : option (list string)) (new_status : option string) :
  update_mirror n st name new_urls new_status = (false, st) \/
  exists current urls' status',
    MIRRORS_CACHE st !! name = Some current /\ is_Some (db_mirrors st !! name) /\
    db_ok n = true /\
    match new_urls with
    | Some us => urls' = List.filter (validate_mirror n) us /\ urls' <> []
    | None => urls' = urls current
    end /\
    match new_status with
    | Some s => status' = s /\ s ∈ ["approved"; "pending"; "blacklisted"]
    | None => status' = status current
    end /\
    update_mirror n st name new_urls new_status
    = (true,
       {| db_mirrors := <[name := Mirror urls' status']> (db_mirrors st);
          MIRRORS_CACHE := <[name := Mirror urls' status']> (MIRRORS_CACHE st) |}).
Proof.
  unfold update_mirror. destruct (MIRRORS_CACHE st !! name) as [current|]; [| now left].
  assert (Hst : match new_status with
                | Some s => bool_decide (s ∈ ["approved"; "pending"; "blacklisted"])
                | None => true
                end = true ->
                match new_status with
                | Some s => s = s /\ s ∈ ["approved"; "pending"; "blacklisted"]
                | None => status current = status current
                end).
  { destruct new_status as [s|]; [| reflexivity].
    intros H. apply bool_decide_eq_true in H. auto. }
  destruct (match new_status with Some s => bool_decide _ | None => true end);
    [| now left].
  specialize (Hst eq_refl). cbn [negb].
  destruct new_urls as [us|].
  - destruct (List.filter (validate_mirror n) us) as [|u r] eqn:Ef; [now left |].
    destruct (db_ok n); [| now left].
    destruct (db_mirrors st !! name) as [row|] eqn:Erow; [| now left].
    right. exists current, (u :: r).
    exists (match new_status with Some s => s | None => status current end).
    split; [reflexivity |]. split; [eauto |]. split; [reflexivity |].
    split; [split; [reflexivity | discriminate] |]. split; [| reflexivity].
    destruct new_status; exact Hst.
  - destruct (db_ok n); [| now left].
    destruct (db_mirrors st !! name) as [row|] eqn:Erow; [| now left].
    right. exists current, (urls current).
    exists (match new_status with Some s => s | None => status current end).
    split; [reflexivity |]. split; [eauto |]. split; [reflexivity |].
    split; [reflexivity |]. split; [| reflexivity].
    destruct new_status; exact Hst.
Qed.

Lemma delete_mirror_cases (n : net) (st : state) (name : string) :
  delete_mirror n st name = (false, st) \/
  delete_mirror n st name
  = (true, {| db_mirrors := delete name (db_mirrors st);
              MIRRORS_CACHE := delete name (MIRRORS_CACHE st) |}).
Proof. unfold delete_mirror. destruct (db_ok n); auto. Qed.

(** X1. A registry operation that answers [False] has changed neither the
    table nor [MIRRORS_CACHE]. *)
Theorem registry_failure_changes_nothing
    (n : net) (st st' : state) (name : string) (us : list string) (status : string)
    (new_urls : option (list string)) (new_status : option string) :
  (save_mirror_to_db n st name us status = (false, st') -> st' = st) /\
  (update_mirror n st name new_urls new_status = (false, st') -> st' = st) /\
  (delete_mirror n st name = (false, st') -> st' = st).
Proof.
  split; [| split].
  - destruct (save_mirror_to_db_cases n st name us status) as [-> | [_ [_ [_ ->]]]];
      congruence.
  - destruct (update_mirror_cases n st name new_urls new_status)
      as [-> | [c [u [s [_ [_ [_ [_ [_ ->]]]]]]]]]; congruence.
  - destruct (delete_mirror_cases n st name) as [-> | ->]; congruence.
Qed.

(** X2. The table and [MIRRORS_CACHE] hold the same entries after every
    operation of the registry, successful or not, when they did before
    it. *)
Theorem registry_stays_in_sync
    (n : net) (st : state) (name : string) (us : list string) (status : string)
    (new_urls : option (list string)) (new_status : option string) :
  in_sync st ->
  in_sync (save_mirror_to_db n st name us status).2 /\
  in_sync (update_mirror n st name new_urls new_status).2 /\
  in_sync (delete_mirror n st name).2.
Proof.
  unfold in_sync. intros H. split; [| split].
  - destruct (save_mirror_to_db_cases n st name us status) as [-> | [_ [_ [_ ->]]]];
      cbn; congruence.
  - destruct (update_mirror_cases n st name new_urls new_status)
      as [-> | [c [u [s [_ [_ [_ [_ [_ ->]]]]]]]]]; cbn; congruence.
  - destruct (delete_mirror_cases n st name) as [-> | ->]; cbn; congruence.
Qed.

Definition load_row (m : gmap string mirror) (r : row) : gmap string mirror :=
  match r with
  | (name, Some us, status) => <[name := Mirror us status]> m
  | (_, None, _) => m
  end.

Lemma fold_load_rows_of (l : list (string * mirror)) (m : gmap string mirror) :
  fold_left load_row ((fun kv => (kv.1, Some (urls kv.2), status kv.2)) <$> l) m
  = fold_left (fun acc kv => <[kv.1 := kv.2]> acc) l m.
Proof.
  revert m. induction l as [|[k [us st']] l IH]; intros m; [reflexivity |].
  cbn [fmap list_fmap fold_left load_row fst snd urls status]. apply IH.
Qed.

Lemma fold_insert_lookup (l : list (string * mirror)) (m : gmap string mirror) (k : string) :
  NoDup l.*1 ->
  fold_left (fun acc kv => <[kv.1 := kv.2]> acc) l m !! k
  = match list_to_map (M := gmap string mirror) l !! k with
    | Some e => Some e
    | None => m !! k
    end.
Proof.
  revert m. induction l as [|[k' e] l IH]; intros m Hnd; [reflexivity |].
  cbn [fmap list_fmap fst] in Hnd. apply NoDup_cons in Hnd as [Hk' Hnd].
  cbn [fold_left fst snd list_to_map foldr]. rewrite IH by exact Hnd.
  destruct (decide (k = k')) as [-> | Hne].
  - rewrite !lookup_insert_eq.
    now rewrite (not_elem_of_list_to_map_1 (M := gmap string) l k' Hk').
  - rewrite !lookup_insert_ne by congruence. reflexivity.
Qed.

(** Whether [json.loads] accepts the [urls] column of a row. *)
Definition decodes (r : row) : bool :=
  match r with
  | (_, Some _, _) => true
  | (_, None, _) => false
  end.

Lemma fold_load_row_decodes (rows : list row) (m : gmap string mirror) :
  fold_left load_row rows m = fold_left load_row (List.filter decodes rows) m.
Proof.
  revert m. induction rows as [|[[name [us|]] status] rows IH]; intros m;
    cbn [List.filter decodes fold_left load_row]; [reflexivity | apply IH | apply IH].
Qed.

(** The rows of a table, in any order, give the table back. *)
Lemma fold_load_row_permutation (rows : list row) (table : gmap string mirror) :
  rows ≡ₚ rows_of table -> fold_left load_row rows ∅ = table.
Proof.
  intros Hperm. unfold rows_of in Hperm.
  change ((fun kv : string * mirror => (kv.1, Some (urls kv.2), status kv.2))
            <$> map_to_list table)
    with (List.map (fun kv : string * mirror => (kv.1, Some (urls kv.2), status kv.2))
            (map_to_list table)) in Hperm.
  apply Permutation_map_inv in Hperm as [l [-> Hl]].
  change (List.map (fun kv : string * mirror => (kv.1, Some (urls kv.2), status kv.2)) l)
    with ((fun kv : string * mirror => (kv.1, Some (urls kv.2), status kv.2)) <$> l).
  assert (Hnd : NoDup l.*1).
  { rewrite <- Hl. apply NoDup_fst_map_to_list. }
  rewrite fold_load_rows_of. apply map_eq. intros k.
  rewrite (fold_insert_lookup l ∅ k Hnd).
  rewrite <- (list_to_map_proper (M := gmap string) (map_to_list table) l
                (NoDup_fst_map_to_list table) Hl).
  rewrite list_to_map_to_list, lookup_empty. now destruct (table !! k).
Qed.

(** X3. What is saved is what a restart loads.  Let the rows of the query be,
    in whatever order the database lists them, the rows of a table this
    module has written, with any number of rows in between whose [urls]
    column does not decode.  Then [load_mirrors_from_db] rebuilds that
    table as [MIRRORS_CACHE], whatever the cache held; a row that does not
    decode is passed over without stopping the load. *)
Theorem load_mirrors_from_db_restores
    (n : net) (table cache : gmap string mirror) (rows before after : list row)
    (name status : string) :
  db_ok n = true ->
  List.filter decodes rows ≡ₚ rows_of table ->
  load_mirrors_from_db n rows cache = table /\
  load_mirrors_from_db n (before ++ (name, None, status) :: after) cache
  = load_mirrors_from_db n (before ++ after) cache.
Proof.
  intros Hdb Hperm. unfold load_mirrors_from_db. rewrite Hdb. split.
  - change (fold_left _ rows ∅) with (fold_left load_row rows ∅).
    rewrite fold_load_row_decodes. now apply fold_load_row_permutation.
  - now rewrite !fold_left_app.
Qed.

(** Every entry has at least one URL, and each of its URLs answers a HEAD
    request with a status below 400. *)
Definition urls_reachable (n : net) (m : gmap string mirror) : Prop :=
  forall name e, m !! name = Some e ->
    urls e <> [] /\ Forall (fun u => validate_mirror n u = true) (urls e).

Lemma filter_reachable (n : net) (us : list string) :
  Forall (fun u => validate_mirror n u = true) (List.filter (validate_mirror n) us).
Proof.
  apply List.Forall_forall. intros u Hu. now apply List.filter_In in Hu as [_ Hu].
Qed.

Lemma urls_reachable_insert (n : net) (m : gmap string mirror) (name : string) (e : mirror) :
  urls_reachable n m ->
  urls e <> [] -> Forall (fun u => validate_mirror n u = true) (urls e) ->
  urls_reachable n (<[name := e]> m).
Proof.
  intros Hm Hne Hall k e' Hk. destruct (decide (k = name)) as [-> | Hneq].
  - rewrite lookup_insert_eq in Hk. injection Hk as <-. auto.
  - rewrite lookup_insert_ne in Hk by congruence. eauto.
Qed.

Lemma urls_reachable_delete (n : net) (m : gmap string mirror) (name : string) :
  urls_reachable n m -> urls_reachable n (delete name m).
Proof.
  intros Hm k e Hk. apply lookup_delete_Some in Hk as [_ Hk]. eauto.
Qed.

(** X4. No operation of the registry stores an entry without URLs or with a
    URL that did not answer: when every entry of the table and of
    [MIRRORS_CACHE] has reachable URLs, so has every entry afterwards. *)
Theorem registry_urls_stay_reachable
    (n : net) (st : state) (name : string) (us : list string) (status : string)
    (new_urls : option (list string)) (new_status : option string) :
  urls_reachable n (db_mirrors st) -> urls_reachable n (MIRRORS_CACHE st) ->
  let after (r : bool * state) :=
    urls_reachable n (db_mirrors r.2) /\ urls_reachable n (MIRRORS_CACHE r.2) in
  after (save_mirror_to_db n st name us status) /\
  after (update_mirror n st name new_urls new_status) /\
  after (delete_mirror n st name).
Proof.
  intros Hdb Hc after. subst after. cbn beta. split; [| split].
  - destruct (save_mirror_to_db_cases n st name us status) as [-> | [Hne [_ [_ ->]]]];
      [auto |].
    cbn [snd db_mirrors MIRRORS_CACHE].
    split; apply urls_reachable_insert; cbn [urls]; try assumption; apply filter_reachable.
  - destruct (update_mirror_cases n st name new_urls new_status)
      as [-> | [c [u [s [Hcur [_ [_ [Hu [_ ->]]]]]]]]]; [auto |].
    assert (Hok : u = u -> u <> [] /\ Forall (fun x => validate_mirror n x = true) u).
    { intros _. destruct new_urls as [l|].
      - destruct Hu as [-> Hne]. split; [exact Hne | apply filter_reachable].
      - subst u. exact (Hc _ _ Hcur). }
    destruct (Hok eq_refl) as [Hne Hall].
    cbn [snd db_mirrors MIRRORS_CACHE].
    split; apply urls_reachable_insert; cbn [urls]; assumption.
  - destruct (delete_mirror_cases n st name) as [-> | ->]; [auto |].
    cbn. split; now apply urls_reachable_delete.
Qed.

Lemma get_all_mirrors_insert_ne (cache : gmap string mirror) (name other : string) (e : mirror) :
  other <> name ->
  get_all_mirrors (<[name := e]> cache) !! other = get_all_mirrors cache !! other.
Proof.
  intros Hne. unfold get_all_mirrors. rewrite !lookup_fmap, !map_lookup_filter.
  now rewrite lookup_insert_ne by congruence.
Qed.

Lemma get_all_mirrors_insert_eq (cache : gmap string mirror) (name : string) (e : mirror) :
  get_all_mirrors (<[name := e]> cache) !! name
  = if bool_decide (status e = "approved") then Some (urls e) else None.
Proof.
  unfold get_all_mirrors. rewrite lookup_fmap, map_lookup_filter, lookup_insert_eq. cbn.
  case_bool_decide as H.
  - rewrite option_guard_True by exact H. reflexivity.
  - rewrite option_guard_False by exact H. reflexivity.
Qed.

(** X5. A mirror stored as ['pending'] is not among the mirrors requests are
    routed to, and the routing of every other name is as before; once
    [update_mirror] sets its status to ['approved'], which succeeds, it is
    routed to the URLs that answered when it was stored. *)
Theorem pending_mirror_routes_after_approval
    (n : net) (st st1 : state) (name : string) (us : list string) :
  save_mirror_to_db n st name us "pending" = (true, st1) ->
  get_all_mirrors (MIRRORS_CACHE st1) !! name = None /\
  (forall other, other <> name ->
     get_all_mirrors (MIRRORS_CACHE st1) !! other
     = get_all_mirrors (MIRRORS_CACHE st) !! other) /\
  exists st2,
    update_mirror n st1 name None (Some "approved") = (true, st2) /\
    get_all_mirrors (MIRRORS_CACHE st2) !! name = Some (List.filter (validate_mirror n) us) /\
    (forall other, other <> name ->
       get_all_mirrors (MIRRORS_CACHE st2) !! other
       = get_all_mirrors (MIRRORS_CACHE st) !! other).
Proof.
  destruct (save_mirror_to_db_cases n st name us "pending") as [-> | [Hne [_ [Hdb ->]]]];
    [discriminate |].
  intros [= <-]. cbn [MIRRORS_CACHE db_mirrors].
  split; [now rewrite get_all_mirrors_insert_eq |].
  split; [intros other Ho; now apply get_all_mirrors_insert_ne |].
  unfold update_mirror. cbn [MIRRORS_CACHE db_mirrors].
  rewrite !lookup_insert_eq, Hdb. cbn. eexists. split; [reflexivity |].
  cbn [MIRRORS_CACHE]. split.
  - now rewrite get_all_mirrors_insert_eq.
  - intros other Ho. now rewrite !get_all_mirrors_insert_ne.
Qed.

(** X6. [delete_mirror] answers [True] whenever the database does, known name
    or not.  Afterwards the name is in neither store, no request is routed
    to it, [update_mirror] refuses it, and the routing of every other name
    is as before. *)
Theorem delete_mirror_forgets
    (n : net) (st : state) (name : string)
    (new_urls : option (list string)) (new_status : option string) :
  db_ok n = true ->
  exists st',
    delete_mirror n st name = (true, st') /\
    db_mirrors st' !! name = None /\ MIRRORS_CACHE st' !! name = None /\
    get_all_mirrors (MIRRORS_CACHE st') = delete name (get_all_mirrors (MIRRORS_CACHE st)) /\
    update_mirror n st' name new_urls new_status = (false, st').
Proof.
  intros Hdb. unfold delete_mirror. rewrite Hdb. eexists. split; [reflexivity |].
  cbn [db_mirrors MIRRORS_CACHE]. rewrite !lookup_delete_eq.
  split; [reflexivity |]. split; [reflexivity |]. split.
  - unfold get_all_mirrors. now rewrite map_filter_delete, fmap_delete.
  - unfold update_mirror. cbn [MIRRORS_CACHE]. now rewrite lookup_delete_eq.
Qed.

(** X7. An update of a name that is not in [MIRRORS_CACHE], with a status other
    than the three known ones, or with URLs none of which answers, is
    refused. *)
Theorem update_mirror_refuses
    (n : net) (st : state) (name : string)
    (new_urls : option (list string)) (new_status : option string) :
  MIRRORS_CACHE st !! name = None \/
  (exists s, new_status = Some s /\ s ∉ ["approved"; "pending"; "blacklisted"]) \/
  (exists us, new_urls = Some us /\ Forall (fun u => validate_mirror n u = false) us) ->
  update_mirror n st name new_urls new_status = (false, st).
Proof.
  intros H.
  destruct (update_mirror_cases n st name new_urls new_status)
    as [-> | [c [u [s [Hcur [_ [_ [Hu [Hs _]]]]]]]]]; [reflexivity |].
  exfalso. destruct H as [H | [[s' [-> H]] | [us [-> H]]]].
  - congruence.
  - destruct Hs as [_ Hs]. contradiction.
  - destruct Hu as [-> Hne]. apply Hne. clear Hne.
    induction H as [|x us Hx H IH]; [reflexivity |]. cbn. now rewrite Hx.
Qed.

Lemma update_mirror_refuses_witness :
  update_mirror net_lan st_empty "debian" None (Some "approved") = (false, st_empty).
Proof.
  apply (update_mirror_refuses net_lan st_empty "debian" None (Some "approved")).
  left. reflexivity.
Defined.

Definition st_learned : state :=
  {| db_mirrors := {[ "deb.debian.org" := Mirror ["http://deb.debian.org"] "pending" ]};
     MIRRORS_CACHE := {[ "deb.debian.org" := Mirror ["http://deb.debian.org"] "pending" ]} |}.

Lemma registry_stays_in_sync_witness :
  in_sync (save_mirror_to_db net_lan st_learned "deb.debian.org" ["http://ftp.debian.org"]
             "approved").2 /\
  in_sync (update_mirror net_lan st_learned "deb.debian.org" None (Some "approved")).2 /\
  in_sync (delete_mirror net_lan st_learned "deb.debian.org").2.
Proof.
  apply (registry_stays_in_sync net_lan st_learned "deb.debian.org" ["http://ftp.debian.org"]
           "approved" None (Some "approved")).
  reflexivity.
Defined.

(** The rows of [cache_ubuntu] in the order of their names, with a row in
    between that does not decode. *)
Definition rows_by_name : list row :=
  [("debian-security", Some ["http://security.debian.org"], "pending");
   ("mint", None, "approved");
   ("ubuntu", Some ["http://archive.ubuntu.com/ubuntu"], "approved");
   ("ubuntu-security", Some ["http://security.ubuntu.com/ubuntu"], "approved")].

Lemma rows_by_name_permutation : List.filter decodes rows_by_name ≡ₚ rows_of cache_ubuntu.
Proof.
  apply NoDup_Permutation.
  - apply (bool_decide_unpack _). vm_compute. exact I.
  - unfold rows_of. apply (NoDup_fmap_2_strong _).
    + intros [k1 [u1 s1]] [k2 [u2 s2]] _ _. cbn. congruence.
    + apply NoDup_map_to_list.
  - intros [[k [us|]] st]; unfold rows_of; rewrite list_elem_of_fmap.
    + split.
      * intros H. cbn in H.
        repeat (apply elem_of_cons in H as [H | H];
                [injection H as -> -> ->; eexists (_, Mirror _ _);
                 split; [reflexivity | apply elem_of_map_to_list; reflexivity] |]).
        now apply elem_of_nil in H.
      * intros [[k' [us' st']] [[= -> -> ->] H]]. apply elem_of_map_to_list in H.
        cbn. unfold cache_ubuntu in H.
        repeat (apply lookup_insert_Some in H as [[<- [= <- <-]] | [_ H]]; [set_solver |]).
        now rewrite lookup_empty in H.
    + split.
      * intros H. cbn in H.
        repeat (apply elem_of_cons in H as [H | H]; [discriminate |]).
        now apply elem_of_nil in H.
      * intros [[k' [us' st']] [[=] _]].
Qed.

Lemma load_mirrors_from_db_restores_witness :
  load_mirrors_from_db net_lan rows_by_name ∅ = cache_ubuntu.
Proof.
  exact (proj1 (load_mirrors_from_db_restores net_lan cache_ubuntu ∅ rows_by_name [] []
                  "x" "pending" eq_refl rows_by_name_permutation)).
Defined.

Lemma st_learned_reachable : urls_reachable net_lan (MIRRORS_CACHE st_learned).
Proof.
  intros name e H. cbn [st_learned MIRRORS_CACHE] in H.
  apply lookup_singleton_Some in H as [_ <-].
  split; [discriminate |]. repeat constructor.
Qed.

Lemma registry_urls_stay_reachable_witness :
  urls_reachable net_lan
    (MIRRORS_CACHE (update_mirror net_lan st_learned "deb.debian.org"
                      (Some ["http://ftp.debian.org"]) None).2).
Proof.
  apply (registry_urls_stay_reachable net_lan st_learned "deb.debian.org" [] "pending"
           (Some ["http://ftp.debian.org"]) None st_learned_reachable st_learned_reachable).
Defined.

Lemma pending_mirror_routes_after_approval_witness :
  get_all_mirrors (MIRRORS_CACHE st_learned) !! "deb.debian.org" = None /\
  exists st2,
    update_mirror net_lan st_learned "deb.debian.org" None (Some "approved") = (true, st2) /\
    get_all_mirrors (MIRRORS_CACHE st2) !! "deb.debian.org" = Some ["http://deb.debian.org"].
Proof.
  destruct (pending_mirror_routes_after_approval net_lan st_empty st_learned "deb.debian.org"
              ["http://deb.debian.org"] ltac:(vm_compute; reflexivity)) as [Hnone [_ [st2 [Hup [Hroute _]]]]].
  split; [exact Hnone |]. exists st2. split; [exact Hup | exact Hroute].
Defined.

Lemma delete_mirror_forgets_witness :
  exists st',
    delete_mirror net_lan st_learned "deb.debian.org" = (true, st') /\
    MIRRORS_CACHE st' !! "deb.debian.org" = None.
Proof.
  destruct (delete_mirror_forgets net_lan st_learned "deb.debian.org" None None eq_refl)
    as [st' [Hd [_ [Hc _]]]].
  exists st'. split; [exact Hd | exact Hc].
Defined.

End Registry.

(** ** main.py and services/proxy.py: what routing changes and relies on *)

Module Routing.
Import PyStr Py Config Mirrors Fs.

Lemma save_pending_keeps_routing (n : net) (st : state) (host : string) (us : list string) :
  get_all_mirrors (MIRRORS_CACHE st) !! host = None ->
  get_all_mirrors (MIRRORS_CACHE (save_mirror_to_db n st host us "pending").2)
  = get_all_mirrors (MIRRORS_CACHE st).
Proof.
  intros Hhost.
  destruct (Registry.save_mirror_to_db_cases n st host us "pending") as [-> | [_ [_ [_ ->]]]];
    [reflexivity |].
  cbn [snd MIRRORS_CACHE]. apply map_eq. intros k.
  destruct (decide (k = host)) as [-> | Hk].
  - now rewrite Registry.get_all_mirrors_insert_eq, Hhost.
  - now apply Registry.get_all_mirrors_insert_ne.
Qed.

Lemma save_pending_entries (n : net) (st : state) (host : string) (us : list string)
    (name : string) (e : mirror) :
  MIRRORS_CACHE (save_mirror_to_db n st host us "pending").2 !! name = Some e ->
  MIRRORS_CACHE st !! name = Some e \/ (name = host /\ status e = "pending").
Proof.
  destruct (Registry.save_mirror_to_db_cases n st host us "pending") as [-> | [_ [_ [_ ->]]]];
    [auto |].
  cbn [snd MIRRORS_CACHE]. destruct (decide (name = host)) as [-> | Hk].
  - rewrite lookup_insert_eq. intros [= <-]. auto.
  - rewrite lookup_insert_ne by congruence. auto.
Qed.

(** X8. No request changes where requests are routed: after [handle_all], the
    approved mirrors and their URLs are what they were.  What a request can
    add to [MIRRORS_CACHE] is one entry with status ['pending']. *)
Theorem handle_all_keeps_routing
    (url_path : string -> string -> string)
    (urlparse : string -> outcome (string * string)) (n : net)
    (CONFIG : gmap string value) (st : state) (req : Router.request) :
  let st' := (Router.handle_all url_path urlparse n CONFIG st req).2 in
  get_all_mirrors (MIRRORS_CACHE st') = get_all_mirrors (MIRRORS_CACHE st) /\
  (forall name e, MIRRORS_CACHE st' !! name = Some e ->
     MIRRORS_CACHE st !! name = Some e \/ status e = "pending").
Proof.
  assert (Hunknown :
    let st' := (Router.unknown_request url_path urlparse n CONFIG st req).2 in
    get_all_mirrors (MIRRORS_CACHE st') = get_all_mirrors (MIRRORS_CACHE st) /\
    (forall name e, MIRRORS_CACHE st' !! name = Some e ->
       MIRRORS_CACHE st !! name = Some e \/ status e = "pending")).
  { unfold Router.unknown_request.
    destruct (truthy _); [| cbn; auto].
    destruct (startswith (Router.url url_path req) "http"); [| cbn; auto].
    destruct (urlparse (Router.url url_path req)) as [[scheme host]|]; [| cbn; auto].
    destruct (get_all_mirrors (MIRRORS_CACHE st) !! host) eqn:Hhost; [cbn; auto |].
    pose proof (save_pending_keeps_routing n st host [scheme +:+ "://" +:+ host] Hhost) as H1.
    pose proof (save_pending_entries n st host [scheme +:+ "://" +:+ host]) as H2.
    destruct (save_mirror_to_db n st host _ "pending") as [ok st1]. cbn [snd] in *.
    split; [exact H1 |]. intros name e He. destruct (H2 name e He) as [? | [_ ?]]; auto. }
  unfold Router.handle_all.
  destruct (String.eqb (Router.method req) "CONNECT"); [cbn; auto |].
  destruct (Router.route_parts (Router.path req)) as [[distro pp]|]; [| exact Hunknown].
  destruct (_ || _); [cbn; auto | exact Hunknown].
Qed.

(** X9. A request that [handle_all] hands to [proxy_package_logic] has an
    upstream there: the answer is never the 404 for an unsupported
    upstream, and on a miss the URLs asked are those of the security
    variant when that is approved, of the distro otherwise, each followed
    by the package path. *)
Theorem routed_request_has_upstream
    (url_path : string -> string -> string)
    (urlparse : string -> outcome (string * string)) (n : net)
    (utcoffset : Z -> Z)
    (re : string -> string -> Blacklist.re_result) (patterns : list string)
    (upstream : nat -> string -> list (string * string) -> Fetch.get_result)
    (CONFIG : gmap string value) (st st' : state) (req : Router.request)
    (w : Fetch.world) (c : Proxy.counters) (now : Z) (distro package_path : string) :
  Router.handle_all url_path urlparse n CONFIG st req
  = (Router.proxy_package_logic distro package_path, st') ->
  st' = st /\
  exists key mirrors,
    get_all_mirrors (MIRRORS_CACHE st) !! key = Some mirrors /\
    (key = get_upstream_key (MIRRORS_CACHE st) distro package_path \/
     (key = distro /\
      get_all_mirrors (MIRRORS_CACHE st)
        !! get_upstream_key (MIRRORS_CACHE st) distro package_path = None)) /\
    forall s w' c',
      Proxy.proxy_package_logic utcoffset re patterns upstream CONFIG (MIRRORS_CACHE st) w c now
        (Router.headers req) distro package_path = Returned (s, w', c') ->
      (forall body, s <> Proxy.plain body 404) /\
      (Proxy.cache_misses c' = Proxy.cache_misses c + 1 ->
       exists r cache_path f1,
         s = Proxy.fetched r /\
         CachePath.get_cache_path CONFIG (Fetch.fs w) now distro package_path
         = Returned (cache_path, f1) /\
         Fetch.stream_and_cache re patterns upstream (Fetch.set_fs w f1)
           (Fetch.UrlList (List.map (fun m => m +:+ "/" +:+ package_path) mirrors))
           cache_path (Router.forwarded_headers (Router.headers req))
         = Returned (r, w')).
Proof.
  unfold Router.handle_all.
  destruct (String.eqb (Router.method req) "CONNECT"); [discriminate |].
  assert (Hunknown : Router.unknown_request url_path urlparse n CONFIG st req
                     <> (Router.proxy_package_logic distro package_path, st')).
  { destruct (Router.unknown_request_cases url_path urlparse n CONFIG st req)
      as [[_ [st1 ->]] | [_ ->]]; discriminate. }
  destruct (Router.route_parts (Router.path req)) as [[d pp]|]; [| contradiction].
  destruct (_ || _) eqn:Eor; [| contradiction].
  intros [= -> -> <-]. split; [reflexivity |].
  set (key0 := get_upstream_key (MIRRORS_CACHE st) distro package_path) in *.
  set (mc := get_all_mirrors (MIRRORS_CACHE st)) in *.
  assert (Hchosen : exists key mirrors,
            mc !! key = Some mirrors /\
            (key = key0 \/ (key = distro /\ mc !! key0 = None)) /\
            match mc !! key0 with
            | Some ms => Some ms
            | None => mc !! distro
            end = Some mirrors).
  { destruct (mc !! key0) as [ms|] eqn:E0.
    - exists key0, ms. auto.
    - apply orb_true_iff in Eor as [H | H]; apply bool_decide_eq_true in H;
        apply elem_of_dom in H as [ms Hms]; [congruence |].
      exists distro, ms. auto. }
  destruct Hchosen as [key [mirrors [Hkey [Hwhich Hchosen]]]].
  exists key, mirrors. split; [exact Hkey |]. split; [exact Hwhich |].
  intros s w' c'. unfold Proxy.proxy_package_logic.
  destruct (CachePath.get_cache_path CONFIG (Fetch.fs w) now distro package_path)
    as [[cache_path f1]|]; [| discriminate].
  cbn [mbind outcome_bind bind].
  destruct (Freshness.is_cache_valid utcoffset CONFIG _ now cache_path) as [[|]|];
    [| | discriminate].
  - unfold Proxy.serve_from_cache.
    destruct (stat _ cache_path) as [i|] eqn:Es.
    + destruct (content i); intros [= <- <- <-]; cbn; (split; [discriminate | lia]).
    + intros [= <- <- <-]; cbn; (split; [discriminate | lia]).
  - fold key0 mc. rewrite Hchosen.
    destruct (Fetch.stream_and_cache _ _ _ _ _ _ _) as [[r w1]|] eqn:Er; [| discriminate].
    cbn. intros [= <- <- <-]. split; [discriminate |]. intros _.
    exists r, cache_path, f1. split; [reflexivity |]. split; [reflexivity | exact Er].
Qed.

Lemma routed_request_has_upstream_witness :
  exists key mirrors,
    get_all_mirrors (MIRRORS_CACHE Router.st_ubuntu) !! key = Some mirrors /\
    key = "ubuntu-security".
Proof.
  destruct (routed_request_has_upstream Router.plain_url_path Router.simple_urlparse net_lan
              Freshness.utc
              Blacklist.glob_re_search [] Proxy.upstream_hello Router.config_default
              Router.st_ubuntu Router.st_ubuntu
              {| Router.method := "GET";
                 Router.path := "ubuntu/dists/jammy-security/InRelease";
                 Router.scheme := Router.http; Router.host := "cache01";
                 Router.query_string := EmptyString;
                 Router.headers := [] |}
              Proxy.w_start Proxy.c0 0 "ubuntu" "dists/jammy-security/InRelease"
              ltac:(vm_compute; reflexivity))
    as [_ [key [mirrors [Hkey [Hwhich _]]]]].
  exists key, mirrors. split; [exact Hkey |].
  destruct Hwhich as [-> | [_ Hnone]]; [vm_compute; reflexivity |].
  vm_compute in Hnone. discriminate Hnone.
Defined.

End Routing.

(** ** services/cache_manager.py: what a fetch delivers and accounts for *)

Module Streams.
Import PyStr Py Config Fs Blacklist Fetch.

(** The bytes a client has received: the chunks yielded so far, in order. *)
Definition total (ys : list string) : string :=
  fold_right (fun c acc => c +:+ acc) EmptyString ys.

Lemma total_snoc (ys : list string) (c : string) : total (ys ++ [c]) = total ys +:+ c.
Proof.
  unfold total. induction ys as [|y ys IH]; cbn [app fold_right].
  - now rewrite app_nil_r.
  - rewrite IH. now rewrite app_assoc.
Qed.

Section TryUrls.

Variable re_search_ignorecase : string -> string -> re_result.
Variable BLACKLIST_PATTERNS : list string.
Variable upstream : nat -> string -> list (string * string) -> get_result.

(** The loop over the mirrors writes no file and serves no byte; it asks a
    prefix of [urls], and a response that caches is a 200 for a name that
    is not blacklisted, writing beside the entry. *)
Lemma try_urls_world (sc : bool) (cp : Path) (hs : list (string * string))
    (urls : list string) (n : nat) (le : option string) (w w' : world) (r : Response) :
  try_urls upstream sc cp hs urls n le w = Returned (r, w') ->
  fs w' = fs w /\ bytes_served w' = bytes_served w /\
  (exists asked rest, urls = asked ++ rest /\ requested w' = requested w ++ asked) /\
  match payload_of r with
  | Stream (generate_cached t p b) =>
      sc = true /\ status r = 200 /\ p = cp /\ with_suffix cp ".tmp" = Returned t
  | Stream (generate_stream b) => sc = false /\ status r = 200
  | Stream (generate_partial b) => status r = 206
  | NoBody => status r = 304
  | Text _ => status r = 502
  end.
Proof.
  revert n le w. induction urls as [|url rest IH]; intros n le w.
  - cbn [try_urls]. intros [= <- <-]. split; [reflexivity |]. split; [reflexivity |].
    split; [| reflexivity]. exists [], [].
    split; [reflexivity | now rewrite List.app_nil_r].
  - assert (Hnext : forall n' le',
              try_urls upstream sc cp hs rest n' le' (send w url) = Returned (r, w') ->
              fs w' = fs w /\ bytes_served w' = bytes_served w /\
              (exists asked rest', url :: rest = asked ++ rest' /\
                                   requested w' = requested w ++ asked) /\
              match payload_of r with
              | Stream (generate_cached t p b) =>
                  sc = true /\ status r = 200 /\ p = cp /\ with_suffix cp ".tmp" = Returned t
              | Stream (generate_stream b) => sc = false /\ status r = 200
              | Stream (generate_partial b) => status r = 206
              | NoBody => status r = 304
              | Text _ => status r = 502
              end).
    { intros n' le' H. apply IH in H as [Hf [Hb [[asked [rest' [Hsplit Hreq]]] Hp]]].
      cbn [send fs bytes_served requested] in *.
      repeat (split; [assumption |]). split; [| exact Hp].
      exists (url :: asked), rest'. split; [now rewrite Hsplit |].
      now rewrite Hreq, <- List.app_assoc. }
    assert (Hhere : forall r0, r = r0 -> w' = send w url ->
              fs w' = fs w /\ bytes_served w' = bytes_served w /\
              (exists asked rest', url :: rest = asked ++ rest' /\
                                   requested w' = requested w ++ asked)).
    { intros r0 _ ->. cbn. split; [reflexivity |]. split; [reflexivity |].
      now exists [url], rest. }
    cbn [try_urls]. destruct (upstream n url hs) as [| e | code h b]; try apply Hnext.
    destruct (code =? 404); [apply Hnext |].
    destruct (bool_decide (code ∈ [200; 206; 304])); [| apply Hnext].
    destruct (code =? 304).
    { intros [= <- <-]. destruct (Hhere _ eq_refl eq_refl) as [? [? ?]]. cbn. auto. }
    destruct (code =? 206).
    { intros [= <- <-]. destruct (Hhere _ eq_refl eq_refl) as [? [? ?]]. cbn. auto. }
    destruct sc.
    + destruct (with_suffix cp ".tmp") as [t|] eqn:Et; [| discriminate].
      cbn. intros [= <- <-]. destruct (Hhere _ eq_refl eq_refl) as [? [? ?]]. cbn. auto 10.
    + intros [= <- <-]. destruct (Hhere _ eq_refl eq_refl) as [? [? ?]]. cbn. auto.
Qed.

Lemma try_urls_no_cache_returns (cp : Path) (hs : list (string * string))
    (urls : list string) (n : nat) (le : option string) (w : world) :
  exists r w', try_urls upstream false cp hs urls n le w = Returned (r, w').
Proof.
  revert n le w. induction urls as [|url rest IH]; intros n le w; cbn [try_urls]; [eauto |].
  destruct (upstream n url hs) as [| e | code h b]; try apply IH.
  destruct (code =? 404); [apply IH |].
  destruct (bool_decide (code ∈ [200; 206; 304])); [| apply IH].
  destruct (code =? 304); [eauto |]. destruct (code =? 206); eauto.
Qed.

End TryUrls.

(** X10. A file whose real name is blacklisted is answered but never cached:
    [stream_and_cache] returns a response whatever the entry is called, no
    response of it writes to the cache, a 200 streams through
    [generate_stream], and neither the files nor [bytes_served] have
    changed when it returns. *)
Theorem blacklisted_file_is_not_cached
    (re : string -> string -> re_result) (patterns : list string)
    (upstream : nat -> string -> list (string * string) -> get_result)
    (w : world) (urls : urls_arg) (cache_path : Path) (headers : list (string * string)) :
  is_blacklisted re patterns (real_filename (name cache_path)) = Returned true ->
  exists r w',
    stream_and_cache re patterns upstream w urls cache_path headers = Returned (r, w') /\
    fs w' = fs w /\ bytes_served w' = bytes_served w /\
    (forall t p b, payload_of r <> Stream (generate_cached t p b)) /\
    (status r = 200 -> exists b, payload_of r = Stream (generate_stream b)).
Proof.
  intros Hbl. unfold stream_and_cache. rewrite Hbl. cbn [mbind outcome_bind bind negb].
  destruct (try_urls_no_cache_returns upstream cache_path headers (urls_of urls) 0 None w)
    as [r [w' Hr]].
  exists r, w'. split; [exact Hr |].
  apply try_urls_world in Hr as [Hf [Hb [_ Hp]]].
  repeat (split; [assumption |]). split.
  - intros t p b Heq. rewrite Heq in Hp. destruct Hp as [Hsc _]. discriminate.
  - intros H200. destruct (payload_of r) as [txt| |[t p b|b|b]]; try lia. eauto.
Qed.

Lemma blacklisted_file_is_not_cached_witness :
  exists r w',
    stream_and_cache glob_re_search ["linux-image*"] mirrors_second w_empty
      (UrlList ["http://a/x"; "http://b/x"]) (of_string "/c/ab/ab_linux-image-6.1.deb") []
    = Returned (r, w') /\
    fs w' = fs w_empty /\ bytes_served w' = bytes_served w_empty.
Proof.
  destruct (blacklisted_file_is_not_cached glob_re_search ["linux-image*"] mirrors_second
              w_empty (UrlList ["http://a/x"; "http://b/x"])
              (of_string "/c/ab/ab_linux-image-6.1.deb") []
              ltac:(vm_compute; reflexivity))
    as [r [w' [Hr [Hf [Hb _]]]]].
  exists r, w'. split; [exact Hr |]. split; [exact Hf | exact Hb].
Defined.

(** *** The generators that do not cache

    [generate_partial] and [generate_stream] have the same body: each chunk
    that is not empty is counted and yielded.  One step is one chunk taken
    from the upstream, or the end of the loop; an exception of the upstream
    leaves the generator, and the server may close it. *)

Inductive pass_phase : Type :=
| Passing (rest : list stream_event)
| Ended
| Broken
| Shut.

Record pass_state := PassState {
  pass_phase_of : pass_phase;
  pass_world : world;
  pass_yielded : list string
}.

Section GeneratePassthrough.

Variable b : body.

Definition pass_next (s : pass_state) : pass_state :=
  let w := pass_world s in
  match pass_phase_of s with
  | Passing [] =>
      match ending b with
      | EndOfStream => PassState Ended w (pass_yielded s)
      | StreamError => PassState Broken w (pass_yielded s)
      end
  | Passing (e :: rest) =>
      let chunk := chunk_of e in
      if String.eqb chunk EmptyString then PassState (Passing rest) w (pass_yielded s)
      else
        PassState (Passing rest)
          {| fs := fs w;
             bytes_served := bytes_served w + Z.of_nat (String.length chunk);
             requested := requested w |}
          (pass_yielded s ++ [chunk])
  | _ => s
  end.

Definition pass_close (s : pass_state) : pass_state :=
  match pass_phase_of s with
  | Passing _ => PassState Shut (pass_world s) (pass_yielded s)
  | _ => s
  end.

Inductive pass_step : pass_state -> pass_state -> Prop :=
| pass_step_next (s : pass_state) : pass_step s (pass_next s)
| pass_step_close (s : pass_state) : pass_step s (pass_close s).

Definition pass_start (w0 : world) : pass_state := PassState (Passing (events b)) w0 [].

(** The generator pulled [n] times by a server that never closes it. *)
Definition pass_run (n : nat) (s : pass_state) : pass_state := Nat.iter n pass_next s.

Variable w0 : world.

Definition pass_inv (s : pass_state) : Prop :=
  let w := pass_world s in
  fs w = fs w0 /\ requested w = requested w0 /\
  bytes_served w = bytes_served w0 + Z.of_nat (String.length (total (pass_yielded s))) /\
  match pass_phase_of s with
  | Passing rest =>
      exists done, events b = done ++ rest /\ total (pass_yielded s) = written done
  | Ended => ending b = EndOfStream /\ total (pass_yielded s) = written (events b)
  | Broken => ending b = StreamError /\ total (pass_yielded s) = written (events b)
  | Shut => exists done rest, events b = done ++ rest /\ total (pass_yielded s) = written done
  end.

Lemma pass_inv_next (s : pass_state) : pass_inv s -> pass_inv (pass_next s).
Proof.
  destruct s as [ph w ys]. unfold pass_inv, pass_next.
  cbn [pass_phase_of pass_world pass_yielded].
  destruct ph as [rest | | |]; try auto.
  intros [Hf [Hr [Hb [done [Hev Ht]]]]]. destruct rest as [|e rest].
  - rewrite List.app_nil_r in Hev. subst done.
    destruct (ending b); cbn [pass_phase_of pass_world pass_yielded]; auto.
  - destruct (String.eqb (chunk_of e) EmptyString) eqn:Ec;
      cbn [pass_phase_of pass_world pass_yielded fs requested bytes_served].
    + repeat (split; [assumption |]). exists (done ++ [e]).
      rewrite <- List.app_assoc. split; [exact Hev |].
      apply String.eqb_eq in Ec. now rewrite written_snoc, Ec, app_nil_r.
    + split; [assumption |]. split; [assumption |]. split.
      * rewrite total_snoc, length_app, Hb. lia.
      * exists (done ++ [e]). rewrite <- List.app_assoc. split; [exact Hev |].
        now rewrite total_snoc, written_snoc, Ht.
Qed.

Lemma pass_inv_close (s : pass_state) : pass_inv s -> pass_inv (pass_close s).
Proof.
  destruct s as [ph w ys]. unfold pass_inv, pass_close.
  cbn [pass_phase_of pass_world pass_yielded].
  destruct ph as [rest | | |]; try auto.
  intros [Hf [Hr [Hb [done [Hev Ht]]]]]. cbn [pass_phase_of pass_world pass_yielded]. eauto 10.
Qed.

Lemma pass_inv_reachable (s : pass_state) : rtc pass_step (pass_start w0) s -> pass_inv s.
Proof.
  intros H. eapply (rtc_ind_r (fun s => pass_inv s) (pass_start w0)); [| | exact H].
  - unfold pass_inv, pass_start. cbn. repeat (split; [reflexivity || lia |]). now exists [].
  - intros y z _ Hstep Hy. destruct Hstep; [now apply pass_inv_next | now apply pass_inv_close].
Qed.

Lemma pass_run_ends (rest : list stream_event) (w : world) (ys : list string) :
  pass_phase_of (pass_run (S (length rest)) (PassState (Passing rest) w ys))
  = match ending b with
    | EndOfStream => Ended
    | StreamError => Broken
    end.
Proof.
  revert w ys. induction rest as [|e rest IH]; intros w ys.
  - cbv [length pass_run Nat.iter nat_rect pass_next pass_phase_of]. now destruct (ending b).
  - cbn [length]. unfold pass_run. rewrite Nat.iter_succ_r. fold (pass_run (S (length rest))).
    unfold pass_next at 2. cbn [pass_phase_of pass_world pass_yielded].
    destruct (String.eqb (chunk_of e) EmptyString); apply IH.
Qed.

End GeneratePassthrough.

(** X11. [generate_partial] and [generate_stream] touch no file.  In every
    state they reach, pulled or closed, the files are what they were,
    [bytes_served] has grown by the number of bytes yielded, and what was
    yielded is the start of the body; pulled to the end, the generator has
    yielded the whole body, or the part that came before the upstream
    broke off. *)
Theorem passthrough_generator_keeps_files (b : body) (w0 : world) :
  (forall s, rtc (pass_step b) (pass_start b w0) s ->
     fs (pass_world s) = fs w0 /\
     bytes_served (pass_world s)
     = bytes_served w0 + Z.of_nat (String.length (total (pass_yielded s))) /\
     exists done rest, events b = done ++ rest /\ total (pass_yielded s) = written done) /\
  let s := pass_run b (S (length (events b))) (pass_start b w0) in
  pass_phase_of s = match ending b with
                    | EndOfStream => Ended
                    | StreamError => Broken
                    end /\
  total (pass_yielded s) = written (events b).
Proof.
  split.
  - intros s Hs. apply pass_inv_reachable in Hs as [Hf [_ [Hb Hph]]].
    split; [exact Hf |]. split; [exact Hb |].
    destruct (pass_phase_of s) as [rest | | |].
    + destruct Hph as [done [Hev Ht]]. eauto.
    + destruct Hph as [_ Ht]. exists (events b), []. now rewrite List.app_nil_r.
    + destruct Hph as [_ Ht]. exists (events b), []. now rewrite List.app_nil_r.
    + exact Hph.
  - intros s. assert (Hph : pass_phase_of s = match ending b with
                                             | EndOfStream => Ended
                                             | StreamError => Broken
                                             end) by apply pass_run_ends.
    split; [exact Hph |].
    assert (Hinv : pass_inv b w0 s).
    { apply pass_inv_reachable. subst s. generalize (S (length (events b))). intros n.
      induction n as [|n IH]; [apply rtc_refl |].
      unfold pass_run in *. rewrite Nat.iter_succ. eapply rtc_r; [exact IH | apply pass_step_next]. }
    destruct Hinv as [_ [_ [_ Hlast]]]. rewrite Hph in Hlast.
    destruct (ending b); tauto.
Qed.

(** *** What [generate_cached] has delivered and counted *)

Section CachedAccounting.

Variables (temp_path cache_path : Path) (b : body) (now : Z) (w0 : world).

Lemma on_error_counters (w : world) :
  bytes_served (on_error temp_path w) = bytes_served w /\
  requested (on_error temp_path w) = requested w.
Proof.
  unfold on_error. destruct (exists_ (fs w) temp_path); [| auto].
  destruct (unlink (fs w) temp_path); auto.
Qed.

Definition acct (s : gen_state) : Prop :=
  let w := world_of s in
  requested w = requested w0 /\
  bytes_served w = bytes_served w0 + Z.of_nat (String.length (total (yielded s))) /\
  match phase_of s with
  | Created => yielded s = []
  | Writing _ rest => exists done, events b = done ++ rest /\ total (yielded s) = written done
  | Finished Committed => total (yielded s) = written (events b)
  | Finished _ => exists done rest, events b = done ++ rest /\ total (yielded s) = written done
  end.

Lemma acct_failed (w : world) (ys : list string) :
  requested w = requested w0 ->
  bytes_served w = bytes_served w0 + Z.of_nat (String.length (total ys)) ->
  (exists done rest, events b = done ++ rest /\ total ys = written done) ->
  acct (GenState (Finished Failed) (on_error temp_path w) ys).
Proof.
  intros Hr Hb Hp. destruct (on_error_counters w) as [Hb' Hr'].
  unfold acct. cbn [phase_of world_of yielded]. rewrite Hb', Hr'. auto.
Qed.

Lemma acct_next (s : gen_state) :
  acct s -> acct (gen_next temp_path cache_path b now s).
Proof.
  destruct s as [ph w ys]. unfold gen_next. cbn [phase_of world_of yielded].
  destruct ph as [| loc rest | how].
  - intros [Hr [Hb Hp]]. cbn [phase_of world_of yielded] in *.
    subst ys.
    destruct (open_wb (fs w) temp_path now) as [[f' loc]|].
    + unfold acct. cbn. repeat (split; [assumption |]). now exists [].
    + apply acct_failed; [assumption | assumption |]. now exists [], (events b).
  - intros [Hr [Hb [done [Hev Ht]]]]. cbn [phase_of world_of yielded] in *.
    assert (Hprefix : exists done rest, events b = done ++ rest /\ total ys = written done)
      by eauto.
    destruct rest as [|[chunk|chunk] rest].
    + destruct (ending b); [| now apply acct_failed].
      destruct (rename_file (fs w) temp_path cache_path); [| now apply acct_failed].
      unfold acct. cbn. repeat (split; [assumption |]).
      rewrite List.app_nil_r in Hev. now subst done.
    + destruct (String.eqb chunk EmptyString) eqn:Ec.
      * apply String.eqb_eq in Ec. subst chunk. unfold acct. cbn [phase_of world_of yielded].
        repeat (split; [assumption |]). exists (done ++ [Data EmptyString]).
        rewrite <- List.app_assoc. split; [exact Hev |].
        rewrite written_snoc. cbn [chunk_of]. now rewrite app_nil_r.
      * destruct (write_at (fs w) loc chunk now); [| now apply acct_failed].
        unfold acct. cbn [phase_of world_of yielded requested bytes_served].
        split; [assumption |]. split.
        -- rewrite total_snoc, length_app, Hb. lia.
        -- exists (done ++ [Data chunk]). rewrite <- List.app_assoc. split; [exact Hev |].
           now rewrite total_snoc, written_snoc, Ht.
    + destruct (String.eqb chunk EmptyString) eqn:Ec; [| now apply acct_failed].
      apply String.eqb_eq in Ec. subst chunk. unfold acct. cbn [phase_of world_of yielded].
      repeat (split; [assumption |]). exists (done ++ [DataWriteError EmptyString]).
      rewrite <- List.app_assoc. split; [exact Hev |].
      rewrite written_snoc. cbn [chunk_of]. now rewrite app_nil_r.
  - auto.
Qed.

Lemma acct_close (s : gen_state) : acct s -> acct (gen_close s).
Proof.
  destruct s as [ph w ys]. unfold gen_close, acct. cbn [phase_of world_of yielded].
  destruct ph as [| loc rest | how]; [| | auto].
  - intros [Hr [Hb ->]]. cbn. repeat (split; [assumption |]). now exists [], (events b).
  - intros [Hr [Hb [done [Hev Ht]]]]. cbn. eauto 10.
Qed.

Lemma acct_reachable (s : gen_state) :
  rtc (gen_step temp_path cache_path b now) (GenState Created w0 []) s -> acct s.
Proof.
  intros H.
  eapply (rtc_ind_r (fun s => acct s) (GenState Created w0 [])); [| | exact H].
  - unfold acct. cbn. repeat (split; [reflexivity || lia |]). reflexivity.
  - intros y z _ Hstep Hy. destruct Hstep; [now apply acct_next | now apply acct_close].
Qed.

(** The directories of [f] are those of [f0], so that every path names in
    [f] the location it names in [f0]. *)
Definition same_dirs (f0 f : filesystem) : Prop :=
  cwd f = cwd f0 /\ forall l, is_dir_at f l = is_dir_at f0 l.

Lemma same_dirs_refl (f : filesystem) : same_dirs f f.
Proof. split; reflexivity. Qed.

Lemma same_dirs_frame (ch : list (list string)) (f0 f f' : filesystem) :
  same_dirs f0 f -> frame ch f f' -> same_dirs f0 f'.
Proof.
  intros [Hc Hd] [Hc' [_ Hd']]. split; [congruence |]. intros l. now rewrite Hd', Hd.
Qed.

Lemma same_dirs_locate (f0 f : filesystem) (p : Path) :
  same_dirs f0 f -> locate f p = locate f0 p.
Proof.
  intros [Hc Hd]. unfold locate. rewrite Hc.
  generalize (if String.eqb (root p) EmptyString then cwd f0 else []).
  induction (parts p) as [|x r IH]; intros cur; [reflexivity |].
  cbn [walk]. rewrite Hd. destruct (is_dir_at f0 cur); [apply IH | reflexivity].
Qed.

Lemma same_dirs_on_error (f0 : filesystem) (w : world) :
  same_dirs f0 (fs w) -> same_dirs f0 (fs (on_error temp_path w)).
Proof.
  intros H. destruct (on_error_spec temp_path w) as [Hfr _].
  exact (same_dirs_frame _ _ _ _ H Hfr).
Qed.

(** A file that [open(p, 'wb')] creates carries the time of the call as
    its access time. *)
Lemma open_wb_stamps (f f' : filesystem) (p : Path) (loc : list string) :
  open_wb f p now = Returned (f', loc) ->
  exists a, nodes f' !! loc = Some (Inode (Some EmptyString) a now) /\
            (exists_ f p = false -> a = now).
Proof.
  unfold open_wb, exists_, stat. destruct (locate f p) as [[|x l]|]; try discriminate.
  destruct (nodes f !! (x :: l)) as [[[d|] a m]|]; try discriminate.
  - intros [= <- <-]. exists a. cbn [set_nodes nodes]. rewrite lookup_insert_eq.
    split; [reflexivity | discriminate].
  - destruct (is_dir_at f (removelast (x :: l))); [| discriminate].
    intros [= <- <-]. exists now. cbn [set_nodes nodes]. rewrite lookup_insert_eq. auto.
Qed.

(** What holds of every state the generator reaches from [w0], whether the
    temporary path is another path than the entry or the entry itself: the
    file being written holds the bytes taken so far, the committed entry
    holds the body, and either carries the time of the fetch as its access
    time when the fetch has created it. *)
Definition held (s : gen_state) : Prop :=
  let f := fs (world_of s) in
  same_dirs (fs w0) f /\
  match phase_of s with
  | Created => f = fs w0
  | Writing loc rest =>
      locate (fs w0) temp_path = Some loc /\ loc <> [] /\
      exists done a m,
        events b = done ++ rest /\ forallb write_ok done = true /\
        nodes f !! loc = Some (Inode (Some (written done)) a m) /\
        (exists_ (fs w0) temp_path = false -> a = now)
  | Finished Committed =>
      exists lf a m,
        locate (fs w0) cache_path = Some lf /\ lf <> [] /\
        nodes f !! lf = Some (Inode (Some (written (events b))) a m) /\
        (exists_ (fs w0) temp_path = false -> a = now)
  | Finished _ => True
  end.

Lemma held_failed (w : world) (ys : list string) :
  same_dirs (fs w0) (fs w) -> held (GenState (Finished Failed) (on_error temp_path w) ys).
Proof. intros H. split; [now apply same_dirs_on_error | exact I]. Qed.

Lemma held_next (s : gen_state) : held s -> held (gen_next temp_path cache_path b now s).
Proof.
  destruct s as [ph w ys]. unfold gen_next. cbn [phase_of world_of yielded].
  destruct ph as [| loc rest | how].
  - intros [Hsame Hf]. cbn [phase_of world_of] in *.
    destruct (open_wb (fs w) temp_path now) as [[f' loc]|] eqn:Eo; [| now apply held_failed].
    pose proof (open_wb_stamps _ _ _ _ Eo) as [a [Hnode Ha]].
    apply open_wb_frame in Eo as [Hloc [Hne [Hfr _]]]. rewrite Hf in *.
    split; [exact (same_dirs_frame _ _ _ _ Hsame Hfr) |].
    cbn [phase_of world_of fs set_fs]. split; [exact Hloc |]. split; [exact Hne |].
    exists [], a, now. auto.
  - intros [Hsame [Hloc [Hne [done [a [m [Hev [Hok [Hnode Ha]]]]]]]]].
    cbn [phase_of world_of] in *.
    destruct rest as [|[chunk|chunk] rest].
    + destruct (ending b); [| now apply held_failed].
      destruct (rename_file (fs w) temp_path cache_path) as [f'|] eqn:Er;
        [| now apply held_failed].
      apply rename_file_frame in Er as [ls [ld [d [a' [m' [Hls [Hld [Hd Hcase]]]]]]]].
      rewrite (same_dirs_locate _ _ temp_path Hsame), Hloc in Hls. injection Hls as <-.
      rewrite (same_dirs_locate _ _ cache_path Hsame) in Hld.
      rewrite Hnode in Hd. injection Hd as <- <- <-.
      rewrite List.app_nil_r in Hev. subst done.
      destruct Hcase as [[<- ->] | [_ [Hldne [Hfr [_ Hfile]]]]].
      * split; [exact Hsame |]. cbn [phase_of world_of fs set_fs].
        exists loc, a, m. auto.
      * split; [exact (same_dirs_frame _ _ _ _ Hsame Hfr) |].
        cbn [phase_of world_of fs set_fs]. exists ld, a, m. auto.
    + destruct (String.eqb chunk EmptyString) eqn:Ec.
      * apply String.eqb_eq in Ec. subst chunk. split; [exact Hsame |].
        cbn [phase_of world_of]. split; [exact Hloc |]. split; [exact Hne |].
        exists (done ++ [Data EmptyString]), a, m.
        rewrite <- List.app_assoc, written_snoc, forallb_snoc, Hok.
        cbn [chunk_of]. rewrite app_nil_r. auto.
      * destruct (write_at (fs w) loc chunk now) as [f'|] eqn:Ew; [| now apply held_failed].
        apply (write_at_frame _ _ _ _ _ Hne) in Ew as [Hfr [old [a' [m' [Hold Hnew]]]]].
        rewrite Hnode in Hold. injection Hold as <- <- <-.
        split; [exact (same_dirs_frame _ _ _ _ Hsame Hfr) |].
        cbn [phase_of world_of fs]. split; [exact Hloc |]. split; [exact Hne |].
        exists (done ++ [Data chunk]), a, now.
        rewrite <- List.app_assoc, written_snoc, forallb_snoc, Hok. cbn [chunk_of].
        auto.
    + destruct (String.eqb chunk EmptyString) eqn:Ec; [| now apply held_failed].
      apply String.eqb_eq in Ec. subst chunk. split; [exact Hsame |].
      cbn [phase_of world_of]. split; [exact Hloc |]. split; [exact Hne |].
      exists (done ++ [DataWriteError EmptyString]), a, m.
      rewrite <- List.app_assoc, written_snoc, forallb_snoc, Hok.
      cbn [chunk_of]. rewrite app_nil_r. auto.
  - auto.
Qed.

Lemma held_close (s : gen_state) : held s -> held (gen_close s).
Proof.
  destruct s as [ph w ys]. unfold gen_close. cbn [phase_of world_of yielded].
  destruct ph as [| loc rest | how]; [| | auto]; intros [Hsame _]; split; auto; exact I.
Qed.

Lemma held_reachable (s : gen_state) :
  rtc (gen_step temp_path cache_path b now) (GenState Created w0 []) s -> held s.
Proof.
  intros H.
  eapply (rtc_ind_r (fun s => held s) (GenState Created w0 [])); [| | exact H].
  - split; [apply same_dirs_refl | reflexivity].
  - intros y z _ Hstep Hy. destruct Hstep; [now apply held_next | now apply held_close].
Qed.

(** The committed entry, read at its path. *)
Lemma held_committed (s : gen_state) :
  held s -> phase_of s = Finished Committed ->
  exists a m,
    stat (fs (world_of s)) cache_path = Returned (Inode (Some (written (events b))) a m) /\
    (exists_ (fs w0) temp_path = false -> a = now).
Proof.
  intros [Hsame Hph] Hc. rewrite Hc in Hph.
  destruct Hph as [lf [a [m [Hlf [Hne [Hnode Ha]]]]]]. exists a, m. split; [| exact Ha].
  unfold stat. rewrite (same_dirs_locate _ _ cache_path Hsame), Hlf.
  destruct lf; [congruence |]. now rewrite Hnode.
Qed.

(** A stream that ends cleanly is committed once it is pulled to the end,
    when the final location is free or holds a regular file. *)
Lemma held_commits (rest : list stream_event) (s : gen_state) (lt lf : list string) :
  phase_of s = Writing lt rest -> held s ->
  locate (fs w0) cache_path = Some lf ->
  is_dir_at (fs w0) lf = false -> is_dir_at (fs w0) (removelast lf) = true ->
  ending b = EndOfStream -> forallb write_ok rest = true ->
  phase_of (gen_run temp_path cache_path b now (S (length rest)) s) = Finished Committed.
Proof.
  intros Hph Hheld Hlf Hnd Hparent Hend. revert s Hph Hheld.
  induction rest as [|e rest IH]; intros s Hph Hheld Hok.
  - cbv [length gen_run Nat.iter nat_rect]. destruct s as [ph w ys].
    cbn [phase_of] in Hph. subst ph.
    destruct Hheld as [Hsame [Hloc [Hne [done [a [m [Hev [Hdone [Hnode _]]]]]]]]].
    cbn [phase_of world_of] in *. unfold gen_next. cbn [phase_of world_of]. rewrite Hend.
    assert (Hrename : exists f', rename_file (fs w) temp_path cache_path = Returned f').
    { unfold rename_file.
      rewrite (same_dirs_locate _ _ temp_path Hsame), (same_dirs_locate _ _ cache_path Hsame).
      rewrite Hloc, Hlf. destruct lt as [|x lt]; [congruence |]. rewrite Hnode.
      destruct (decide (x :: lt = lf)); [eauto |].
      destruct lf as [|y lf]; [discriminate |].
      destruct Hsame as [_ Hd]. pose proof (Hd (y :: lf)) as Hy. rewrite Hnd in Hy.
      cbn [is_dir_at] in Hy.
      destruct (nodes (fs w) !! (y :: lf)) as [[[d|] a' m']|]; try discriminate; eauto.
      rewrite Hd, Hparent. eauto. }
    destruct Hrename as [f' ->]. reflexivity.
  - cbn [length]. rewrite gen_run_next.
    cbn [forallb] in Hok. apply andb_true_iff in Hok as [He Hok].
    apply IH; [| now apply held_next | exact Hok].
    destruct s as [ph w ys]. cbn [phase_of] in Hph. subst ph.
    destruct Hheld as [Hsame [Hloc [Hne [done [a [m [Hev [Hdone [Hnode _]]]]]]]]].
    cbn [phase_of world_of] in *. unfold gen_next. cbn [phase_of world_of].
    destruct e as [chunk|chunk]; cbn [write_ok] in He.
    + destruct (String.eqb chunk EmptyString); [reflexivity |].
      unfold write_at. rewrite Hnode. reflexivity.
    + rewrite He. reflexivity.
Qed.

Lemma pulled_to_the_end_commits (f1 : filesystem) (lt lf : list string) :
  open_wb (fs w0) temp_path now = Returned (f1, lt) ->
  locate (fs w0) cache_path = Some lf ->
  is_dir_at (fs w0) lf = false -> is_dir_at (fs w0) (removelast lf) = true ->
  ending b = EndOfStream -> forallb write_ok (events b) = true ->
  phase_of (gen_run temp_path cache_path b now (2 + length (events b))
              (GenState Created w0 []))
  = Finished Committed.
Proof.
  intros Hopen Hlf Hnd Hparent Hend Hok.
  change (2 + length (events b))%nat with (S (S (length (events b)))).
  rewrite gen_run_next.
  eapply (held_commits (events b) _ lt lf); try eassumption.
  - unfold gen_next. cbn [phase_of world_of]. now rewrite Hopen.
  - apply held_next. split; [apply same_dirs_refl | reflexivity].
Qed.

End CachedAccounting.

(** X12. What the client of a caching fetch has received is what the fetch
    counts and caches.  In every state [generate_cached] reaches, pulled or
    closed, [bytes_served] has grown by the number of bytes yielded, no
    mirror has been asked again, and the bytes yielded are the start of the
    body; once the entry is committed it holds exactly the bytes yielded,
    and they are the whole body.  This holds as well for an entry whose
    name ends in [.tmp], which is written in place. *)
Theorem generate_cached_delivers_what_it_caches
    (temp_path cache_path : Path) (b : body) (now : Z) (w0 : world) (s : gen_state) :
  with_suffix cache_path ".tmp" = Returned temp_path ->
  rtc (gen_step temp_path cache_path b now) (GenState Created w0 []) s ->
  bytes_served (world_of s)
  = bytes_served w0 + Z.of_nat (String.length (total (yielded s))) /\
  requested (world_of s) = requested w0 /\
  (exists done rest, events b = done ++ rest /\ total (yielded s) = written done) /\
  (phase_of s = Finished Committed ->
   total (yielded s) = written (events b) /\
   read_file (fs (world_of s)) cache_path = Some (total (yielded s))).
Proof.
  intros _ Hreach.
  pose proof (acct_reachable temp_path cache_path b now w0 s Hreach) as [Hr [Hb Hph]].
  split; [exact Hb |]. split; [exact Hr |]. split.
  - destruct (phase_of s) as [| loc rest | [ | | ]].
    + exists [], (events b). now rewrite Hph.
    + destruct Hph as [done [Hev Ht]]. now exists done, rest.
    + exists (events b), []. split; [now rewrite List.app_nil_r | exact Hph].
    + exact Hph.
    + exact Hph.
  - intros Hc. rewrite Hc in Hph. split; [exact Hph |].
    pose proof (held_reachable temp_path cache_path b now w0 s Hreach) as Hheld.
    destruct (held_committed temp_path cache_path b now w0 s Hheld Hc) as [a [m [Hs _]]].
    unfold read_file. rewrite Hs. cbn [content]. now rewrite Hph.
Qed.

(** An entry [ab_x.tmp], which is its own temporary path. *)
Definition final_tmp : Path := MkPath "/" ["c"; "ab"; "ab_x.tmp"].

Lemma generate_cached_delivers_what_it_caches_witness :
  let s := gen_run temp_x final_x body_hello 5 5 (GenState Created w_stale []) in
  let s' := gen_run final_tmp final_tmp body_hello 5 5 (GenState Created w_fresh []) in
  (bytes_served (world_of s) = 5 /\
   read_file (fs (world_of s)) final_x = Some (total (yielded s))) /\
  (bytes_served (world_of s') = 5 /\
   read_file (fs (world_of s')) final_tmp = Some (total (yielded s'))).
Proof.
  intros s s'. split.
  - destruct (generate_cached_delivers_what_it_caches temp_x final_x body_hello 5 w_stale s
                eq_refl (gen_run_reachable _ _ _ _ _ _))
      as [Hb [_ [_ Hc]]].
    split; [exact Hb |]. apply Hc. vm_compute. reflexivity.
  - destruct (generate_cached_delivers_what_it_caches final_tmp final_tmp body_hello 5
                w_fresh s' eq_refl (gen_run_reachable _ _ _ _ _ _))
      as [Hb [_ [_ Hc]]].
    split; [exact Hb |]. apply Hc. vm_compute. reflexivity.
Defined.

(** X13. An entry is fresh once it is committed.  When no file was at the
    temporary path before the fetch, the committed entry carries the time
    of the fetch as its access time.  [is_cache_valid] takes the age of an
    entry between two readings of the local wall clock, so, for instants
    that have a [datetime], it accepts the entry exactly when retention is
    off or that clock reads less than [cache_days] more than it read at
    the fetch: at every moment less than [cache_days] after the fetch at
    which the offset of the zone is not greater than it was at the
    fetch. *)
Theorem committed_entry_is_fresh
    (utcoffset : Z -> Z) (CONFIG : gmap string value) (temp_path cache_path : Path)
    (b : body) (now : Z) (w0 : world) (s : gen_state) (days t : Z) :
  with_suffix cache_path ".tmp" = Returned temp_path ->
  exists_ (fs w0) temp_path = false ->
  rtc (gen_step temp_path cache_path b now) (GenState Created w0 []) s ->
  phase_of s = Finished Committed ->
  get_config CONFIG "cache_days" (VInt 7) = VInt days -> Z.abs days <= 999999999 ->
  Freshness.representable utcoffset now -> Freshness.representable utcoffset t ->
  (exists i, stat (fs (world_of s)) cache_path = Returned i /\ st_atime i = now) /\
  Freshness.is_cache_valid utcoffset CONFIG (fs (world_of s)) t cache_path
  = Returned (negb (truthy (get_config CONFIG "cache_retention_enabled" (VBool true)))
              || (Freshness.wall_clock utcoffset t - Freshness.wall_clock utcoffset now
                  <? days * Freshness.day_us)) /\
  (utcoffset t <= utcoffset now -> t - now < days * Freshness.day_us ->
   Freshness.is_cache_valid utcoffset CONFIG (fs (world_of s)) t cache_path = Returned true).
Proof.
  intros _ Hno Hreach Hc Hdays Hrange Hnow Ht.
  pose proof (held_reachable temp_path cache_path b now w0 s Hreach) as Hheld.
  destruct (held_committed temp_path cache_path b now w0 s Hheld Hc) as [a [m [Hs Ha]]].
  rewrite (Ha Hno) in Hs.
  pose proof (Freshness.is_cache_valid_atime utcoffset CONFIG _ t cache_path _ days
                Hs Hdays Hrange Ht Hnow) as Hvalid.
  cbn [st_atime] in Hvalid.
  split; [eexists; split; [exact Hs | reflexivity] |]. split; [exact Hvalid |].
  intros Hzone Hsoon. rewrite Hvalid. f_equal. apply orb_true_iff. right.
  apply Z.ltb_lt. unfold Freshness.wall_clock. lia.
Qed.

Lemma committed_entry_is_fresh_witness :
  let s := gen_run temp_x final_x body_hello 5 5 (GenState Created w_stale []) in
  let zone := Freshness.summer_time Freshness.day_us (200 * Freshness.day_us) in
  Freshness.is_cache_valid zone Freshness.config_week (fs (world_of s))
    (6 * Freshness.day_us) final_x = Returned true /\
  Freshness.is_cache_valid zone Freshness.config_week (fs (world_of s))
    (7 * Freshness.day_us) final_x = Returned false.
Proof.
  intros s zone. split.
  - rewrite (proj1 (proj2 (committed_entry_is_fresh zone Freshness.config_week temp_x final_x
               body_hello 5 w_stale s 7 (6 * Freshness.day_us) eq_refl eq_refl
               (gen_run_reachable _ _ _ _ _ _) ltac:(vm_compute; reflexivity) eq_refl
               ltac:(vm_compute; discriminate)
               ltac:(vm_compute; split; discriminate)
               ltac:(vm_compute; split; discriminate)))).
    vm_compute. reflexivity.
  - rewrite (proj1 (proj2 (committed_entry_is_fresh zone Freshness.config_week temp_x final_x
               body_hello 5 w_stale s 7 (7 * Freshness.day_us) eq_refl eq_refl
               (gen_run_reachable _ _ _ _ _ _) ltac:(vm_compute; reflexivity) eq_refl
               ltac:(vm_compute; discriminate)
               ltac:(vm_compute; split; discriminate)
               ltac:(vm_compute; split; discriminate)))).
    vm_compute. reflexivity.
Defined.

(** The fetch of [w_stale] is made at 5 microseconds; had the clocks been
    put forward an hour on the next day, the entry would be stale half an
    hour before seven days have passed. *)
Example committed_entry_stale_by_the_wall_clock :
  let s := gen_run temp_x final_x body_hello 5 5 (GenState Created w_stale []) in
  let t := 7 * Freshness.day_us - Freshness.hour_us / 2 in
  Freshness.is_cache_valid Freshness.utc Freshness.config_week (fs (world_of s)) t final_x
  = Returned true /\
  Freshness.is_cache_valid (Freshness.summer_time Freshness.day_us (200 * Freshness.day_us))
    Freshness.config_week (fs (world_of s)) t final_x = Returned false.
Proof. split; vm_compute; reflexivity. Qed.

End Streams.

(** ** services/proxy.py: hits, misses and the renewal of an entry *)

Module Serving.
Import PyStr Py Config Fs.

Lemma stat_file_location (f : filesystem) (p : Path) (i : inode) (d : string) :
  stat f p = Returned i -> content i = Some d ->
  exists loc, locate f p = Some loc /\ loc <> [] /\ nodes f !! loc = Some i.
Proof.
  unfold stat. destruct (locate f p) as [[|x l]|]; try discriminate.
  - intros [= <-]. discriminate.
  - destruct (nodes f !! (x :: l)) as [j|] eqn:E; [| discriminate].
    intros [= <-] _. exists (x :: l). split; [reflexivity |]. split; [discriminate | exact E].
Qed.

Lemma utime_frame (f : filesystem) (p : Path) (i : inode) (d : string) (atime mtime : Z) :
  stat f p = Returned i -> content i = Some d ->
  exists loc f',
    locate f p = Some loc /\ loc <> [] /\
    Proxy.utime f p atime mtime = Returned f' /\ frame [loc] f f' /\
    nodes f' !! loc = Some (Inode (Some d) atime mtime).
Proof.
  intros Hs Hc. destruct (stat_file_location f p i d Hs Hc) as [loc [Hloc [Hne Hnode]]].
  exists loc. unfold Proxy.utime. rewrite Hloc. destruct loc as [|x l]; [congruence |].
  rewrite Hnode, Hc. eexists. split; [reflexivity |]. split; [discriminate |].
  split; [reflexivity |]. split.
  - repeat split.
    + intros l' Hl'. cbn [set_nodes nodes]. rewrite lookup_insert_ne; [reflexivity |].
      intros <-. apply Hl'. apply list_elem_of_singleton. reflexivity.
    + intros l'. apply is_dir_at_put_file; [discriminate |].
      destruct i as [ci a m]. cbn in Hc. subst ci.
      eapply is_dir_at_file; [exact Hnode | discriminate].
  - cbn [set_nodes nodes]. apply lookup_insert_eq.
Qed.


(** X15. Every request [proxy_package_logic] answers is counted once in
    [requests_total] and once as a hit or as a miss.  A hit is an entry
    [is_cache_valid] accepts, and no mirror is asked for it; a miss asks
    mirrors only, and leaves the files and [bytes_served] to the generator
    of the response. *)
Theorem proxy_package_logic_accounting
    (utcoffset : Z -> Z)
    (re : string -> string -> Blacklist.re_result) (patterns : list string)
    (upstream : nat -> string -> list (string * string) -> Fetch.get_result)
    (CONFIG : gmap string value) (MIRRORS_CACHE : gmap string Mirrors.mirror)
    (w w' : Fetch.world) (c c' : Proxy.counters) (now : Z)
    (request_headers : list (string * string)) (distro package_path : string)
    (s : Proxy.served) :
  Proxy.proxy_package_logic utcoffset re patterns upstream CONFIG MIRRORS_CACHE w c now
    request_headers distro package_path = Returned (s, w', c') ->
  Proxy.requests_total c' = Proxy.requests_total c + 1 /\
  exists cache_path f1 valid,
    CachePath.get_cache_path CONFIG (Fetch.fs w) now distro package_path
    = Returned (cache_path, f1) /\
    Freshness.is_cache_valid utcoffset CONFIG f1 now cache_path = Returned valid /\
    if valid
    then Proxy.cache_hits c' = Proxy.cache_hits c + 1 /\
         Proxy.cache_misses c' = Proxy.cache_misses c /\
         Fetch.requested w' = Fetch.requested w /\
         (s = Proxy.send_file cache_path \/ s = Proxy.plain "Error reading cache" 500)
    else Proxy.cache_hits c' = Proxy.cache_hits c /\
         Proxy.cache_misses c' = Proxy.cache_misses c + 1 /\
         Fetch.bytes_served w' = Fetch.bytes_served w /\
         Fetch.fs w' = f1.
Proof.
  unfold Proxy.proxy_package_logic.
  destruct (CachePath.get_cache_path CONFIG (Fetch.fs w) now distro package_path)
    as [[cache_path f1]|]; [| discriminate].
  cbn [mbind outcome_bind bind Fetch.set_fs Fetch.fs].
  destruct (Freshness.is_cache_valid utcoffset CONFIG f1 now cache_path) as [valid|] eqn:Ev;
    [| discriminate].
  intros H.
  assert (Hgoal : Proxy.requests_total c' = Proxy.requests_total c + 1 /\
            if valid
            then Proxy.cache_hits c' = Proxy.cache_hits c + 1 /\
                 Proxy.cache_misses c' = Proxy.cache_misses c /\
                 Fetch.requested w' = Fetch.requested w /\
                 (s = Proxy.send_file cache_path \/ s = Proxy.plain "Error reading cache" 500)
            else Proxy.cache_hits c' = Proxy.cache_hits c /\
                 Proxy.cache_misses c' = Proxy.cache_misses c + 1 /\
                 Fetch.bytes_served w' = Fetch.bytes_served w /\
                 Fetch.fs w' = f1);
    [| destruct Hgoal as [Ht Hv]; split; [exact Ht |]; exists cache_path, f1, valid; auto].
  destruct valid.
  - revert H. unfold Proxy.serve_from_cache.
    destruct (stat _ cache_path) as [i|].
    + destruct (content i); intros [= <- <- <-]; cbn; auto 10.
    + intros [= <- <- <-]; cbn; auto 10.
  - revert H.
    destruct (match Mirrors.get_all_mirrors MIRRORS_CACHE
                      !! Mirrors.get_upstream_key MIRRORS_CACHE distro package_path with
              | Some mirrors => Some mirrors
              | None => Mirrors.get_all_mirrors MIRRORS_CACHE !! distro
              end) as [mirrors|].
    + destruct (Fetch.stream_and_cache _ _ _ _ _ _ _) as [[r w1]|] eqn:Er; [| discriminate].
      cbn. intros [= <- <- <-]. cbn. unfold Fetch.stream_and_cache in Er.
      destruct (Blacklist.is_blacklisted re patterns _) as [bl|]; [| discriminate].
      cbn [mbind outcome_bind bind] in Er.
      apply Streams.try_urls_world in Er as [Hf [Hb _]]. cbn in Hf, Hb. auto.
    + intros [= <- <- <-]. cbn. auto.
Qed.

Lemma proxy_package_logic_accounting_witness :
  exists s w' c',
    Proxy.proxy_package_logic Freshness.utc Blacklist.glob_re_search [] Proxy.upstream_hello
      Proxy.config_srv Proxy.mirrors_ubuntu Proxy.w_cached (Proxy.Counters 1 0 1)
      (Proxy.one_day + 3600000000) [] "ubuntu" "pool/x.deb" = Returned (s, w', c') /\
    Proxy.requests_total c' = 2.
Proof.
  destruct (Proxy.proxy_package_logic Freshness.utc Blacklist.glob_re_search [] Proxy.upstream_hello
              Proxy.config_srv Proxy.mirrors_ubuntu Proxy.w_cached (Proxy.Counters 1 0 1)
              (Proxy.one_day + 3600000000) [] "ubuntu" "pool/x.deb")
    as [[[s w'] c']|] eqn:E; [| vm_compute in E; discriminate E].
  exists s, w', c'. split; [reflexivity |].
  exact (proj1 (proxy_package_logic_accounting _ _ _ _ _ _ _ _ _ _ _ _ _ _ _ E)).
Defined.

Definition entry_hello : Path := of_string "/srv/cache/ubuntu/3b/3b5d_InRelease".


End Serving.

(** ** services/cache_manager.py: maintenance of the blacklist *)

Module BlacklistStore.
Import PyStr Py Blacklist.

(** The rows of the table [package_blacklist], whose primary key is the
    pattern, and the list [BLACKLIST_PATTERNS]. *)
Record store := Store {
  package_blacklist : gset string;
  BLACKLIST_PATTERNS : list string
}.

(** [l.remove(x)]: the first occurrence of [x] is taken out. *)
Fixpoint list_remove (x : string) (l : list string) : list string :=
  match l with
  | [] => []
  | y :: r => if String.eqb y x then r else y :: list_remove x r
  end.

(** [load_blacklist_from_db()]; the rows come in the order the database
    lists them.  [db_ok] tells whether the statements sent to the database
    succeed. *)
Definition load_blacklist_from_db (db_ok : bool) (st : store) : store :=
  if db_ok then
    {| package_blacklist := package_blacklist st;
       BLACKLIST_PATTERNS := elements (package_blacklist st) |}
  else st.

(** [add_blacklist_pattern(pattern)] *)
Definition add_blacklist_pattern (db_ok : bool) (st : store) (pattern : string)
    : bool * store :=
  if db_ok then
    (true,
     {| package_blacklist := {[ pattern ]} ∪ package_blacklist st;
        BLACKLIST_PATTERNS :=
          if bool_decide (pattern ∈ BLACKLIST_PATTERNS st) then BLACKLIST_PATTERNS st
          else BLACKLIST_PATTERNS st ++ [pattern] |})
  else (false, st).

(** [remove_blacklist_pattern(pattern)] *)
Definition remove_blacklist_pattern (db_ok : bool) (st : store) (pattern : string)
    : bool * store :=
  if db_ok then
    (true,
     {| package_blacklist := package_blacklist st ∖ {[ pattern ]};
        BLACKLIST_PATTERNS :=
          if bool_decide (pattern ∈ BLACKLIST_PATTERNS st)
          then list_remove pattern (BLACKLIST_PATTERNS st)
          else BLACKLIST_PATTERNS st |})
  else (false, st).

(** [get_blacklist_patterns()] *)
Definition get_blacklist_patterns (st : store) : list string := BLACKLIST_PATTERNS st.

(** The list has no pattern twice and holds the patterns of the table. *)
Definition consistent (st : store) : Prop :=
  NoDup (BLACKLIST_PATTERNS st) /\
  forall p, p ∈ BLACKLIST_PATTERNS st <-> p ∈ package_blacklist st.

Lemma list_remove_absent (x : string) (l : list string) : x ∉ l -> list_remove x l = l.
Proof.
  induction l as [|y r IH]; [reflexivity |]. intros Hx. cbn [list_remove].
  destruct (String.eqb y x) eqn:E.
  - apply String.eqb_eq in E. subst y. exfalso. apply Hx. left.
  - f_equal. apply IH. intros Hin. apply Hx. now right.
Qed.

Lemma list_remove_snoc (x : string) (l : list string) :
  x ∉ l -> list_remove x (l ++ [x]) = l.
Proof.
  induction l as [|y r IH]; intros Hx; cbn [app list_remove].
  - now rewrite String.eqb_refl.
  - destruct (String.eqb y x) eqn:E.
    + apply String.eqb_eq in E. subst y. exfalso. apply Hx. left.
    + f_equal. apply IH. intros Hin. apply Hx. now right.
Qed.

Lemma elem_of_list_remove (x q : string) (l : list string) :
  NoDup l -> (q ∈ list_remove x l <-> q ∈ l /\ q <> x).
Proof.
  induction l as [|y r IH]; intros Hnd; cbn [list_remove].
  - split; [intros H; inversion H | intros [H _]; inversion H].
  - apply NoDup_cons in Hnd as [Hy Hnd]. destruct (String.eqb y x) eqn:E.
    + apply String.eqb_eq in E. subst y. rewrite elem_of_cons. split.
      * intros Hq. split; [now right |]. intros ->. contradiction.
      * intros [[-> | Hq] Hne]; [contradiction | exact Hq].
    + apply String.eqb_neq in E. rewrite !elem_of_cons, IH by exact Hnd. split.
      * intros [-> | [Hq Hne]]; auto.
      * intros [[-> | Hq] Hne]; auto.
Qed.

Lemma NoDup_list_remove (x : string) (l : list string) : NoDup l -> NoDup (list_remove x l).
Proof.
  induction l as [|y r IH]; intros Hnd; cbn [list_remove]; [exact Hnd |].
  pose proof Hnd as Hnd'. apply NoDup_cons in Hnd as [Hy Hnd].
  destruct (String.eqb y x); [exact Hnd |].
  apply NoDup_cons. split; [| now apply IH].
  intros Hin. apply (elem_of_list_remove x y r Hnd) in Hin as [Hin _]. contradiction.
Qed.

Lemma consistent_kept (db_ok : bool) (st : store) (pattern : string) :
  consistent st ->
  consistent (add_blacklist_pattern db_ok st pattern).2 /\
  consistent (remove_blacklist_pattern db_ok st pattern).2.
Proof.
  intros [Hnd Hsame]. unfold add_blacklist_pattern, remove_blacklist_pattern.
  destruct db_ok; cbn [snd]; [| repeat split; auto; apply Hsame].
  split.
  + unfold consistent. cbn [BLACKLIST_PATTERNS package_blacklist].
    case_bool_decide as Hin.
    * split; [exact Hnd |]. intros p. rewrite elem_of_union, elem_of_singleton, <- Hsame.
      split; [auto |]. intros [-> | H]; auto.
    * split.
      -- apply NoDup_app. split; [exact Hnd |]. split; [| apply NoDup_singleton].
         intros x Hx Hx'. apply list_elem_of_singleton in Hx'. now subst x.
      -- intros p. rewrite elem_of_app, list_elem_of_singleton, elem_of_union,
           elem_of_singleton, <- Hsame. tauto.
  + unfold consistent. cbn [BLACKLIST_PATTERNS package_blacklist].
    case_bool_decide as Hin.
    * split; [now apply NoDup_list_remove |]. intros p.
      rewrite (elem_of_list_remove pattern p _ Hnd), elem_of_difference,
        elem_of_singleton, <- Hsame. tauto.
    * split; [exact Hnd |]. intros p. rewrite elem_of_difference, elem_of_singleton, <- Hsame.
      split; [| tauto]. intros Hp. split; [exact Hp |]. now intros ->.
Qed.

(** X16. The blacklist stays without duplicates and equal, as a set, to its
    table: [add_blacklist_pattern] and [remove_blacklist_pattern] keep
    this, whether the database answers or not, and a successful
    [load_blacklist_from_db] brings it about. *)
Theorem blacklist_stays_consistent (db_ok : bool) (st : store) (pattern : string) :
  (consistent st ->
   consistent (add_blacklist_pattern db_ok st pattern).2 /\
   consistent (remove_blacklist_pattern db_ok st pattern).2) /\
  (db_ok = true -> consistent (load_blacklist_from_db db_ok st)).
Proof.
  split.
  - intros Hc. apply consistent_kept. exact Hc.
  - intros ->. unfold load_blacklist_from_db, consistent.
    cbn [BLACKLIST_PATTERNS package_blacklist]. split; [apply NoDup_elements |].
    intros p. apply elem_of_elements.
Qed.

Definition store_nvidia : store :=
  {| package_blacklist := {[ "nvidia" ]}; BLACKLIST_PATTERNS := ["nvidia"] |}.

Lemma store_nvidia_consistent : consistent store_nvidia.
Proof.
  split; [apply NoDup_singleton |]. intros p. cbn.
  now rewrite list_elem_of_singleton, elem_of_singleton.
Qed.

(** X17. Adding and removing a pattern.  After a successful
    [add_blacklist_pattern] the pattern is in the list and in the table,
    once, and adding it again changes nothing; after a successful
    [remove_blacklist_pattern] it is in neither, and every other pattern
    is where it was.  Removing a pattern that was just added to a list that
    did not have it gives the store back as it was. *)
Theorem blacklist_add_then_remove (st : store) (pattern : string) :
  consistent st ->
  let st1 := (add_blacklist_pattern true st pattern).2 in
  let st2 := (remove_blacklist_pattern true st1 pattern).2 in
  pattern ∈ BLACKLIST_PATTERNS st1 /\ pattern ∈ package_blacklist st1 /\
  add_blacklist_pattern true st1 pattern = (true, st1) /\
  (pattern ∉ BLACKLIST_PATTERNS st2) /\ (pattern ∉ package_blacklist st2) /\
  (forall q, q <> pattern ->
     (q ∈ BLACKLIST_PATTERNS st2 <-> q ∈ BLACKLIST_PATTERNS st)) /\
  (pattern ∉ BLACKLIST_PATTERNS st -> st2 = st).
Proof.
  intros Hc st1 st2.
  pose proof (proj1 (consistent_kept true st pattern Hc)) as Hc1.
  fold st1 in Hc1.
  pose proof (proj2 (consistent_kept true st1 pattern Hc1)) as Hc2.
  fold st2 in Hc2.
  assert (H1 : pattern ∈ BLACKLIST_PATTERNS st1).
  { subst st1. cbn. case_bool_decide as Hin; [exact Hin |].
    apply elem_of_app. right. now apply list_elem_of_singleton. }
  assert (H2 : pattern ∉ BLACKLIST_PATTERNS st2).
  { subst st2. cbn [remove_blacklist_pattern snd BLACKLIST_PATTERNS].
    rewrite bool_decide_eq_true_2 by exact H1.
    rewrite (elem_of_list_remove pattern pattern _ (proj1 Hc1)). tauto. }
  split; [exact H1 |]. split; [now apply Hc1 |]. split.
  { unfold add_blacklist_pattern at 1. f_equal. destruct st1 as [t l] eqn:E.
    cbn [BLACKLIST_PATTERNS package_blacklist] in *.
    rewrite bool_decide_eq_true_2 by exact H1. f_equal.
    apply set_eq. intros x. rewrite elem_of_union, elem_of_singleton.
    split; [| auto]. intros [-> | H]; [| exact H]. now apply Hc1. }
  split; [exact H2 |]. split; [intros H; apply H2; now apply Hc2 |]. split.
  - intros q Hq. subst st2. cbn [remove_blacklist_pattern snd BLACKLIST_PATTERNS].
    rewrite bool_decide_eq_true_2 by exact H1.
    rewrite (elem_of_list_remove pattern q _ (proj1 Hc1)).
    subst st1. cbn [add_blacklist_pattern snd BLACKLIST_PATTERNS].
    case_bool_decide as Hin; [tauto |].
    rewrite elem_of_app, list_elem_of_singleton. tauto.
  - intros Hnot. subst st2 st1. destruct st as [t l].
    cbn [add_blacklist_pattern remove_blacklist_pattern snd BLACKLIST_PATTERNS
         package_blacklist] in *.
    rewrite (bool_decide_eq_false_2 _ Hnot).
    rewrite bool_decide_eq_true_2
      by (apply elem_of_app; right; now apply list_elem_of_singleton).
    rewrite list_remove_snoc by exact Hnot. f_equal.
    apply set_eq. intros x. rewrite elem_of_difference, elem_of_union, elem_of_singleton.
    split; [tauto |]. intros Hx. split; [auto |]. intros ->. apply Hnot. now apply Hc.
Qed.

Lemma blacklist_add_then_remove_witness :
  snd (remove_blacklist_pattern true (snd (add_blacklist_pattern true store_nvidia "*.udeb"))
         "*.udeb") = store_nvidia.
Proof.
  apply (blacklist_add_then_remove store_nvidia "*.udeb" store_nvidia_consistent).
  cbn. intros H. apply list_elem_of_singleton in H. discriminate H.
Defined.

(** X18. What a change of the blacklist does to [is_blacklisted], for every
    regex engine: after a pattern is added, a file name is blacklisted
    exactly when it was before or the new pattern matches it; after a
    pattern is removed, exactly when one of the other patterns matches it. *)
Theorem blacklist_change_takes_effect
    (re : string -> string -> re_result) (st : store) (pattern filename : string) :
  consistent st ->
  is_blacklisted re (BLACKLIST_PATTERNS (add_blacklist_pattern true st pattern).2) filename
  = Returned (existsb (pattern_matches re filename) (BLACKLIST_PATTERNS st)
              || pattern_matches re filename pattern) /\
  (is_blacklisted re (BLACKLIST_PATTERNS (remove_blacklist_pattern true st pattern).2)
     filename = Returned true <->
   exists q, q ∈ BLACKLIST_PATTERNS st /\ q <> pattern /\
             pattern_matches re filename q = true).
Proof.
  intros [Hnd Hsame]. rewrite !is_blacklisted_existsb. split.
  - f_equal. cbn [add_blacklist_pattern snd BLACKLIST_PATTERNS].
    case_bool_decide as Hin.
    + destruct (pattern_matches re filename pattern) eqn:Hp;
        [| now rewrite orb_false_r].
      rewrite orb_true_r. apply existsb_exists. exists pattern.
      split; [now apply list_elem_of_In | exact Hp].
    + rewrite existsb_app. cbn [existsb]. now rewrite orb_false_r.
  - cbn [remove_blacklist_pattern snd BLACKLIST_PATTERNS]. split.
    + intros [= H]. apply existsb_exists in H as [q [Hq Hm]]. apply list_elem_of_In in Hq.
      exists q. case_bool_decide as Hin.
      * apply (elem_of_list_remove pattern q _ Hnd) in Hq as [Hq Hne]. auto.
      * split; [exact Hq |]. split; [| exact Hm]. now intros ->.
    + intros [q [Hq [Hne Hm]]]. f_equal. apply existsb_exists. exists q.
      split; [| exact Hm]. apply list_elem_of_In. case_bool_decide as Hin; [| exact Hq].
      apply (elem_of_list_remove pattern q _ Hnd). auto.
Qed.

Lemma blacklist_change_takes_effect_witness :
  is_blacklisted glob_re_search
    (BLACKLIST_PATTERNS (add_blacklist_pattern true store_nvidia "*.udeb").2)
    "netcfg_1.187.udeb" = Returned true.
Proof.
  rewrite (proj1 (blacklist_change_takes_effect glob_re_search store_nvidia "*.udeb"
                    "netcfg_1.187.udeb" store_nvidia_consistent)).
  vm_compute. reflexivity.
Defined.

Lemma blacklist_stays_consistent_witness :
  consistent (add_blacklist_pattern true store_nvidia "*.udeb").2.
Proof.
  apply (blacklist_stays_consistent true store_nvidia "*.udeb"). exact store_nvidia_consistent.
Defined.

End BlacklistStore.

(** ** services/cache_manager.py: the cleanup of old entries *)

Module Cleanup.
Import PyStr Py Config Fs.

(** [os.scandir(d)]: the entries of the directory at [d], each with its
    location; the names ['.'] and ['..'] are not entries. *)
Definition is_entry_of (d l : list string) : bool :=
  bool_decide (l <> [] /\ removelast l = d /\
               List.last l EmptyString <> "." /\ List.last l EmptyString <> "..").

Definition scandir (f : filesystem) (d : list string) : list (list string * inode) :=
  List.filter (fun kv => is_entry_of d kv.1) (map_to_list (nodes f)).

Definition is_dir (i : inode) : bool :=
  match content i with
  | None => true
  | Some _ => false
  end.

(** The body of the loop over the files of a directory: [os.stat], the
    test of the later stamp against the cutoff, [os.remove]; what either
    raises is logged and the loop goes on. *)
Definition clean_file (cache_days now : Z) (f : filesystem) (l : list string) : filesystem :=
  match nodes f !! l with
  | Some i =>
      if Freshness.clean_old_cache_removes cache_days now i then
        if is_dir i then f else set_nodes f (delete l (nodes f))
      else f
  | None => f
  end.

(** The loop over [os.walk(d)], top down: the files of [d] are gone
    through, then each subdirectory is walked in turn.  Nothing is walked
    when [d] is no directory.  [fuel] bounds the depth of the walk. *)
Fixpoint clean_tree (fuel : nat) (cache_days now : Z) (f : filesystem) (d : list string)
    : filesystem :=
  match fuel with
  | O => f
  | S k =>
      if is_dir_at f d then
        let entries := scandir f d in
        let files := List.filter (fun kv => negb (is_dir kv.2)) entries in
        let dirs := List.filter (fun kv => is_dir kv.2) entries in
        let f1 := fold_left (fun g kv => clean_file cache_days now g kv.1) files f in
        fold_left (fun g kv => clean_tree k cache_days now g kv.1) dirs f1
      else f
  end.

(** No location lies deeper than this. *)
Definition depth (f : filesystem) : nat :=
  S (list_max (List.map (fun kv => length kv.1) (map_to_list (nodes f)))).

(** [cache_days * 24 * 60 * 60] taken from the clock: a number of days, or
    a [TypeError] for a value that is no number.  The product is turned
    into a float for the subtraction, which overflows from
    [2^1024 - 2^970] on. *)
Definition days_of (v : value) : option Z :=
  let checked (z : Z) :=
    if Z.abs (z * 86400) <? 2 ^ 1024 - 2 ^ 970 then Some z else None in
  match v with
  | VInt z => checked z
  | VBool b => checked (if b then 1 else 0)
  | _ => None
  end.

(** [clean_old_cache()] at clock reading [now]: the file system it leaves. *)
Definition clean_old_cache (CONFIG : gmap string value) (f : filesystem) (now : Z)
    : filesystem :=
  if negb (truthy (get_config CONFIG "cache_retention_enabled" (VBool true))) then f
  else
    let storage_path_str := get_config CONFIG "storage_path_resolved" VNone in
    if negb (truthy storage_path_str) then f
    else
      match CachePath.path_of_value storage_path_str with
      | Raised => f
      | Returned storage_path =>
          match days_of (get_config CONFIG "cache_days" (VInt 7)) with
          | None => f
          | Some cache_days =>
              match locate f storage_path with
              | Some top => clean_tree (depth f) cache_days now f top
              | None => f
              end
          end
      end.

(** [l] lies below [d]. *)
Definition below (d l : list string) : Prop := exists s, s <> [] /\ l = d ++ s.

(** The file at [l] is one the cleanup removes. *)
Definition expired (cache_days now : Z) (f : filesystem) (l : list string) : Prop :=
  exists i, nodes f !! l = Some i /\ is_dir i = false /\
            Freshness.clean_old_cache_removes cache_days now i = true.

(** From [f] to [f'] nothing changed but expired files below [d], which
    are gone. *)
Definition cleaned (cache_days now : Z) (d : list string) (f f' : filesystem) : Prop :=
  cwd f' = cwd f /\
  forall l, nodes f' !! l = nodes f !! l \/
            (nodes f' !! l = None /\ below d l /\ expired cache_days now f l).

Section Cleaned.

Variables (cache_days now : Z).

Lemma cleaned_refl (d : list string) (f : filesystem) : cleaned cache_days now d f f.
Proof. split; auto. Qed.

Lemma cleaned_trans (d : list string) (f1 f2 f3 : filesystem) :
  cleaned cache_days now d f1 f2 -> cleaned cache_days now d f2 f3 ->
  cleaned cache_days now d f1 f3.
Proof.
  intros [Hc1 H1] [Hc2 H2]. split; [congruence |]. intros l.
  destruct (H2 l) as [E2 | [N2 [B2 [i [Hi X2]]]]], (H1 l) as [E1 | [N1 [B1 X1]]].
  - left. congruence.
  - right. split; [congruence | auto].
  - right. split; [exact N2 |]. split; [exact B2 |]. exists i. split; [congruence | exact X2].
  - congruence.
Qed.

Lemma cleaned_below (d d' : list string) (f f' : filesystem) :
  (forall l, below d' l -> below d l) ->
  cleaned cache_days now d' f f' -> cleaned cache_days now d f f'.
Proof.
  intros Hsub [Hc H]. split; [exact Hc |]. intros l.
  destruct (H l) as [E | [N [B X]]]; auto.
Qed.

Lemma cleaned_none (d : list string) (f f' : filesystem) (l : list string) :
  cleaned cache_days now d f f' -> nodes f !! l = None -> nodes f' !! l = None.
Proof. intros [_ H] Hn. destruct (H l) as [E | [N _]]; congruence. Qed.

Lemma cleaned_is_dir_at (d : list string) (f f' : filesystem) (l : list string) :
  cleaned cache_days now d f f' -> is_dir_at f' l = is_dir_at f l.
Proof.
  intros [_ H]. destruct l as [|x l]; [reflexivity |]. cbn [is_dir_at].
  destruct (H (x :: l)) as [E | [N [_ [i [Hi [Hd _]]]]]]; [now rewrite E |].
  rewrite N, Hi. destruct i as [[c|] a m]; [reflexivity | discriminate].
Qed.

Lemma cleaned_locate (d : list string) (f f' : filesystem) (p : Path) :
  cleaned cache_days now d f f' -> locate f' p = locate f p.
Proof.
  intros Hcl. unfold locate. destruct Hcl as [Hc H]. rewrite Hc.
  generalize (if String.eqb (root p) EmptyString then cwd f else []).
  induction (parts p) as [|x r IH]; intros cur; [reflexivity |].
  cbn [walk]. rewrite (cleaned_is_dir_at d f f' cur (conj Hc H)).
  destruct (is_dir_at f cur); [apply IH | reflexivity].
Qed.

Lemma clean_file_cleaned (d : list string) (f : filesystem) (l : list string) :
  below d l -> cleaned cache_days now d f (clean_file cache_days now f l).
Proof.
  intros Hb. unfold clean_file. destruct (nodes f !! l) as [i|] eqn:Hi; [| apply cleaned_refl].
  destruct (Freshness.clean_old_cache_removes cache_days now i) eqn:Hold;
    [| apply cleaned_refl].
  destruct (is_dir i) eqn:Hd; [apply cleaned_refl |].
  split; [reflexivity |]. intros l'. cbn [set_nodes nodes].
  destruct (decide (l' = l)) as [-> | Hne].
  - right. rewrite lookup_delete_eq. split; [reflexivity |]. split; [exact Hb |].
    exists i. auto.
  - left. now rewrite lookup_delete_ne by congruence.
Qed.

Lemma fold_left_cleaned {A : Type} (step : filesystem -> A -> filesystem)
    (d : list string) (xs : list A) (f : filesystem) :
  (forall g x, List.In x xs -> cleaned cache_days now d g (step g x)) ->
  cleaned cache_days now d f (fold_left step xs f).
Proof.
  revert f. induction xs as [|x xs IH]; intros f Hstep; [apply cleaned_refl |].
  cbn [fold_left]. eapply cleaned_trans.
  - apply Hstep. now left.
  - apply IH. intros g y Hy. apply Hstep. now right.
Qed.

Lemma scandir_entry (f : filesystem) (d l : list string) (i : inode) :
  List.In (l, i) (scandir f d) <->
  nodes f !! l = Some i /\ exists x, l = d ++ [x] /\ x <> "." /\ x <> "..".
Proof.
  unfold scandir, is_entry_of. rewrite List.filter_In, <- list_elem_of_In, elem_of_map_to_list.
  cbn [fst]. rewrite bool_decide_eq_true. split.
  - intros [Hi [Hne [Hd [H1 H2]]]]. split; [exact Hi |].
    exists (List.last l EmptyString). split; [| auto].
    rewrite <- Hd. now apply app_removelast_last.
  - intros [Hi [x [-> [H1 H2]]]]. split; [exact Hi |].
    rewrite removelast_last, last_last. split; [| auto].
    intros H. now apply app_eq_nil in H as [_ H].
Qed.

Lemma below_entry (d : list string) (x : string) : below d (d ++ [x]).
Proof. exists [x]. split; [discriminate | reflexivity]. Qed.

Lemma below_below (d : list string) (x : string) (l : list string) :
  below (d ++ [x]) l -> below d l.
Proof.
  intros [s [Hs ->]]. exists (x :: s). split; [discriminate |].
  now rewrite <- List.app_assoc.
Qed.

(** The walk changes nothing but expired files below its top. *)
Lemma clean_tree_cleaned (fuel : nat) (f : filesystem) (d : list string) :
  cleaned cache_days now d f (clean_tree fuel cache_days now f d).
Proof.
  revert f d. induction fuel as [|k IH]; intros f d; [apply cleaned_refl |].
  cbn [clean_tree]. destruct (is_dir_at f d); [| apply cleaned_refl].
  match goal with
  | |- cleaned _ _ _ _ (fold_left _ _ ?f1) => apply (cleaned_trans d f f1)
  end.
  - apply fold_left_cleaned. intros g [l i] Hin. cbn [fst].
    apply List.filter_In in Hin as [Hin _].
    apply scandir_entry in Hin as [_ [x [-> _]]].
    apply clean_file_cleaned, below_entry.
  - apply fold_left_cleaned. intros g [l i] Hin. cbn [fst].
    apply List.filter_In in Hin as [Hin _].
    apply scandir_entry in Hin as [_ [x [-> _]]].
    eapply cleaned_below; [| apply IH]. apply below_below.
Qed.

(** The location is free, or holds a file the cleanup removes. *)
Definition doomed (f : filesystem) (l : list string) : Prop :=
  nodes f !! l = None \/ expired cache_days now f l.

(** Every location from [d] down to the parent of [d ++ s] is a directory. *)
Definition dirs_between (f : filesystem) (d s : list string) : Prop :=
  forall k, (k < length s)%nat -> is_dir_at f (d ++ firstn k s) = true.

Lemma cleaned_doomed (d : list string) (f f' : filesystem) (l : list string) :
  cleaned cache_days now d f f' -> doomed f l -> doomed f' l.
Proof.
  intros [_ H] Hd. destruct (H l) as [E | [N _]]; [| now left].
  unfold doomed, expired in *. now rewrite E.
Qed.

Lemma cleaned_dirs_between (d : list string) (f f' : filesystem) (d' s : list string) :
  cleaned cache_days now d f f' -> dirs_between f d' s -> dirs_between f' d' s.
Proof.
  intros Hcl Hd k Hk. rewrite (cleaned_is_dir_at d f f' _ Hcl). now apply Hd.
Qed.

Lemma clean_file_hits (f : filesystem) (l : list string) :
  doomed f l -> nodes (clean_file cache_days now f l) !! l = None.
Proof.
  unfold clean_file. intros [Hn | [i [Hi [Hd Hold]]]].
  - now rewrite Hn.
  - rewrite Hi, Hold, Hd. cbn [set_nodes nodes]. apply lookup_delete_eq.
Qed.

Lemma fold_left_hits {A : Type} (step : filesystem -> A -> filesystem)
    (d l : list string) (Pre : filesystem -> Prop) (xs : list A) (x0 : A) :
  (forall g x, List.In x xs -> cleaned cache_days now d g (step g x)) ->
  (forall g g', cleaned cache_days now d g g' -> Pre g -> Pre g') ->
  (forall g, Pre g -> nodes (step g x0) !! l = None) ->
  List.In x0 xs ->
  forall g, Pre g -> nodes (fold_left step xs g) !! l = None.
Proof.
  intros Hstep Hkeep Hhit. induction xs as [|x xs IH]; intros Hin g Hpre; [destruct Hin |].
  cbn [fold_left]. destruct Hin as [-> | Hin].
  - eapply cleaned_none; [| apply Hhit, Hpre].
    apply fold_left_cleaned. intros g' y Hy. apply Hstep. now right.
  - apply IH.
    + intros g' y Hy. apply Hstep. now right.
    + exact Hin.
    + eapply Hkeep; [| exact Hpre]. apply Hstep. now left.
Qed.

(** The walk reaches every expired file under its top, given fuel for
    the depth of the file. *)
Lemma clean_tree_complete (fuel : nat) (f : filesystem) (d s : list string) :
  (length s <= fuel)%nat -> s <> [] ->
  Forall (fun x => x <> "." /\ x <> "..") s ->
  dirs_between f d s -> doomed f (d ++ s) ->
  nodes (clean_tree fuel cache_days now f d) !! (d ++ s) = None.
Proof.
  revert f d s. induction fuel as [|k IH]; intros f d s Hlen Hne Hnames Hdirs Hdoomed.
  { destruct s; [contradiction | cbn in Hlen; lia]. }
  destruct Hdoomed as [Hnone | Hexp].
  { eapply cleaned_none; [apply clean_tree_cleaned | exact Hnone]. }
  destruct s as [|x s']; [contradiction |].
  cbn [clean_tree].
  assert (Hd0 : is_dir_at f d = true).
  { specialize (Hdirs 0%nat). cbn [firstn length] in Hdirs. rewrite List.app_nil_r in Hdirs.
    apply Hdirs. lia. }
  rewrite Hd0. apply Forall_cons in Hnames as [[Hx1 Hx2] Hnames].
  set (files := List.filter (fun kv => negb (is_dir kv.2)) (scandir f d)).
  set (dirs := List.filter (fun kv => is_dir kv.2) (scandir f d)).
  set (f1 := fold_left (fun g kv => clean_file cache_days now g kv.1) files f).
  assert (Hfiles : forall g kv, List.In kv files ->
            cleaned cache_days now d g (clean_file cache_days now g kv.1)).
  { intros g [l i] Hin. cbn [fst]. apply List.filter_In in Hin as [Hin _].
    apply scandir_entry in Hin as [_ [y [-> _]]]. apply clean_file_cleaned, below_entry. }
  assert (Hsub : forall g kv, List.In kv dirs ->
            cleaned cache_days now d g (clean_tree k cache_days now g kv.1)).
  { intros g [l i] Hin. cbn [fst]. apply List.filter_In in Hin as [Hin _].
    apply scandir_entry in Hin as [_ [y [-> _]]].
    eapply cleaned_below; [| apply clean_tree_cleaned]. apply below_below. }
  assert (Hf1 : cleaned cache_days now d f f1) by (apply fold_left_cleaned; exact Hfiles).
  destruct s' as [|y s''].
  - (* a file of the directory itself *)
    destruct Hexp as [i [Hi [Hfile Hold]]].
    eapply cleaned_none; [apply fold_left_cleaned; exact Hsub |].
    apply (fold_left_hits (fun g kv => clean_file cache_days now g kv.1) d (d ++ [x])
             (fun g => doomed g (d ++ [x])) files (d ++ [x], i)).
    + exact Hfiles.
    + intros g g'. apply cleaned_doomed.
    + intros g. apply clean_file_hits.
    + apply List.filter_In. split; [| cbn; now rewrite Hfile].
      apply scandir_entry. split; [exact Hi |]. now exists x.
    + right. exists i. auto.
  - (* a file further down: the subdirectory [d ++ [x]] is walked *)
    assert (Hd1 : exists i1, nodes f !! (d ++ [x]) = Some i1 /\ is_dir i1 = true).
    { specialize (Hdirs 1%nat). cbn [firstn length] in Hdirs.
      assert (H1 : is_dir_at f (d ++ [x]) = true) by (apply Hdirs; lia).
      destruct (d ++ [x]) as [|a r] eqn:E; [now apply app_eq_nil in E as [_ E] |].
      cbn [is_dir_at] in H1. destruct (nodes f !! (a :: r)) as [[[c|] a' m']|];
        try discriminate. eexists. split; reflexivity. }
    destruct Hd1 as [i1 [Hi1 Hdir1]].
    replace (d ++ x :: y :: s'') with ((d ++ [x]) ++ y :: s'')
      by (now rewrite <- List.app_assoc).
    apply (fold_left_hits (fun g kv => clean_tree k cache_days now g kv.1) d
             ((d ++ [x]) ++ y :: s'')
             (fun g => dirs_between g (d ++ [x]) (y :: s'') /\
                       doomed g ((d ++ [x]) ++ y :: s''))
             dirs (d ++ [x], i1)).
    + exact Hsub.
    + intros g g' Hcl [Hdb Hdm]. split.
      * eapply cleaned_dirs_between; eassumption.
      * eapply cleaned_doomed; eassumption.
    + intros g [Hdb Hdm]. cbn [fst]. apply IH; try assumption.
      * cbn [length] in *. lia.
      * discriminate.
    + apply List.filter_In. split; [| exact Hdir1].
      apply scandir_entry. split; [exact Hi1 |]. now exists x.
    + split.
      * eapply cleaned_dirs_between; [exact Hf1 |]. intros j Hj.
        specialize (Hdirs (S j)). cbn [firstn length] in Hdirs.
        rewrite <- List.app_assoc. cbn [app]. apply Hdirs. cbn [length] in Hj. lia.
      * eapply cleaned_doomed; [exact Hf1 |]. right.
        rewrite <- List.app_assoc. exact Hexp.
Qed.

End Cleaned.

Lemma clean_old_cache_cases (CONFIG : gmap string value) (f : filesystem) (now : Z) :
  clean_old_cache CONFIG f now = f \/
  exists s top days,
    truthy (get_config CONFIG "cache_retention_enabled" (VBool true)) = true /\
    get_config CONFIG "storage_path_resolved" VNone = VStr s /\ s <> EmptyString /\
    days_of (get_config CONFIG "cache_days" (VInt 7)) = Some days /\
    locate f (of_string s) = Some top /\
    clean_old_cache CONFIG f now = clean_tree (depth f) days now f top.
Proof.
  unfold clean_old_cache.
  destruct (truthy (get_config CONFIG "cache_retention_enabled" (VBool true))); [| now left].
  cbn [negb].
  destruct (get_config CONFIG "storage_path_resolved" VNone) as [| b | z | s] eqn:Es;
    cbn [truthy negb CachePath.path_of_value]; try (now left).
  - destruct b; now left.
  - destruct (z =? 0); now left.
  - destruct (String.eqb s EmptyString) eqn:Ee; [now left |]. cbn [negb].
    destruct (days_of (get_config CONFIG "cache_days" (VInt 7))) as [days|]; [| now left].
    destruct (locate f (of_string s)) as [top|] eqn:El; [| now left].
    right. exists s, top, days. apply String.eqb_neq in Ee. auto 10.
Qed.

(** X19. The cleanup removes nothing but expired files of the storage tree.
    After [clean_old_cache], every path names the location it named
    before, and every location holds what it held, except that files
    below the storage root whose later stamp is more than [cache_days]
    before the clock are gone.  With retention switched off, no storage
    path, or a [cache_days] that is no number, nothing is removed at
    all; no directory is ever removed. *)
Theorem clean_old_cache_removes_only_expired
    (CONFIG : gmap string value) (f : filesystem) (now : Z) :
  let f' := clean_old_cache CONFIG f now in
  cwd f' = cwd f /\
  (forall p, locate f' p = locate f p) /\
  forall l,
    nodes f' !! l = nodes f !! l \/
    (nodes f' !! l = None /\
     truthy (get_config CONFIG "cache_retention_enabled" (VBool true)) = true /\
     exists s top days i,
       get_config CONFIG "storage_path_resolved" VNone = VStr s /\ s <> EmptyString /\
       locate f (of_string s) = Some top /\ below top l /\
       days_of (get_config CONFIG "cache_days" (VInt 7)) = Some days /\
       nodes f !! l = Some i /\ is_dir i = false /\
       Freshness.clean_old_cache_removes days now i = true).
Proof.
  intros f'. subst f'.
  destruct (clean_old_cache_cases CONFIG f now)
    as [-> | [s [top [days [Hret [Hs [Hne [Hdays [Htop ->]]]]]]]]]; [auto |].
  pose proof (clean_tree_cleaned days now (depth f) f top) as Hcl.
  split; [apply Hcl |]. split; [intros p; eapply cleaned_locate; exact Hcl |].
  intros l. destruct Hcl as [_ H]. destruct (H l) as [E | [N [B [i [Hi [Hd Hold]]]]]]; [auto |].
  right. split; [exact N |]. split; [exact Hret |]. exists s, top, days, i. auto 10.
Qed.

(** X20. The cleanup and [is_cache_valid] agree on an entry unless the clocks
    were put back since its last access.  [clean_old_cache] takes the age
    of a file between two instants, [is_cache_valid] between two readings
    of the local wall clock; when the offset of the zone at the entry's
    access time is not greater than it is now, the cleanup does not remove
    an entry that [is_cache_valid] accepts: the entry is found unchanged
    afterwards, and is still accepted. *)
Theorem clean_old_cache_keeps_valid_entries
    (utcoffset : Z -> Z) (CONFIG : gmap string value) (f : filesystem) (now : Z)
    (cache_path : Path) :
  Freshness.is_cache_valid utcoffset CONFIG f now cache_path = Returned true ->
  (forall i, stat f cache_path = Returned i -> utcoffset (st_atime i) <= utcoffset now) ->
  stat (clean_old_cache CONFIG f now) cache_path = stat f cache_path /\
  Freshness.is_cache_valid utcoffset CONFIG (clean_old_cache CONFIG f now) now cache_path
  = Returned true.
Proof.
  intros Hvalid Hzone.
  assert (Hstat : stat (clean_old_cache CONFIG f now) cache_path = stat f cache_path).
  { destruct (clean_old_cache_cases CONFIG f now)
      as [-> | [s [top [days [Hret [_ [_ [Hdays [_ ->]]]]]]]]]; [reflexivity |].
    pose proof (clean_tree_cleaned days now (depth f) f top) as Hcl.
    unfold stat. rewrite (cleaned_locate days now top _ _ cache_path Hcl).
    destruct (locate f cache_path) as [[|x l]|] eqn:El; try reflexivity.
    destruct Hcl as [_ Hnodes].
    destruct (Hnodes (x :: l)) as [E | [_ [_ [i [Hi [_ Hold]]]]]]; [now rewrite E |].
    exfalso.
    assert (Hoff : utcoffset (st_atime i) <= utcoffset now).
    { apply Hzone. unfold stat. now rewrite El, Hi. }
    revert Hvalid. unfold Freshness.is_cache_valid, exists_, stat.
    rewrite El, Hi, Hret. cbn [negb fmap outcome_fmap bind try_except mbind outcome_bind].
    revert Hdays Hold. unfold days_of, Freshness.timedelta_days,
      Freshness.clean_old_cache_removes.
    assert (Hage : forall d,
              (Freshness.wall_clock utcoffset now
               - Freshness.wall_clock utcoffset (st_atime i)
               <? d * Freshness.day_us) = true ->
              ((if st_mtime i >? st_atime i then st_mtime i else st_atime i)
               <? now - d * Freshness.day_us) = true -> False).
    { intros d H1 H2. apply Z.ltb_lt in H1, H2. unfold Freshness.wall_clock in H1.
      destruct (st_mtime i >? st_atime i) eqn:E; [apply Z.gtb_lt in E |]; lia. }
    destruct (Freshness.fromtimestamp utcoffset now) as [reading|] eqn:En;
      [| intros _ _; discriminate].
    apply Freshness.fromtimestamp_returned in En as [-> _].
    destruct (Freshness.fromtimestamp utcoffset (st_atime i)) as [reading|] eqn:Ea;
      [| intros _ _; discriminate].
    apply Freshness.fromtimestamp_returned in Ea as [-> _]. cbn [bind].
    destruct (get_config CONFIG "cache_days" (VInt 7)) as [| b | z |]; try discriminate.
    - destruct (Z.abs _ <? _); [| discriminate]. intros [= <-] Hold.
      cbn [bind]. intros [= H]. exact (Hage _ H Hold).
    - destruct (Z.abs (z * 86400) <? _); [| discriminate]. intros [= <-] Hold.
      destruct (Z.abs z <=? 999999999); [| discriminate].
      cbn [bind]. intros [= H]. exact (Hage _ H Hold). }
  split; [exact Hstat |].
  revert Hvalid. unfold Freshness.is_cache_valid, exists_. now rewrite Hstat.
Qed.

Lemma length_le_depth (f : filesystem) (l : list string) (i : inode) :
  nodes f !! l = Some i -> (length l < depth f)%nat.
Proof.
  intros Hi. unfold depth. apply Nat.lt_succ_r.
  assert (H : Forall (fun k => (k <= list_max (List.map (fun kv => length kv.1)
                                              (map_to_list (nodes f))))%nat)
                (List.map (fun kv : list string * inode => length kv.1)
                   (map_to_list (nodes f)))).
  { now apply list_max_le. }
  rewrite List.Forall_forall in H. apply H.
  apply (List.in_map (fun kv : list string * inode => length kv.1) _ (l, i)).
  apply list_elem_of_In. now apply elem_of_map_to_list.
Qed.


Definition config_cleanup : gmap string value :=
  <["storage_path_resolved" := VStr "/srv/cache"]> Freshness.config_week.

Lemma clean_old_cache_keeps_valid_entries_witness :
  stat (clean_old_cache config_cleanup Freshness.fs_rewritten (6 * Freshness.day_us))
    Freshness.entry_rewritten
  = stat Freshness.fs_rewritten Freshness.entry_rewritten.
Proof.
  apply (clean_old_cache_keeps_valid_entries
           (Freshness.summer_time (3 * Freshness.day_us) (200 * Freshness.day_us))
           config_cleanup Freshness.fs_rewritten
           (6 * Freshness.day_us) Freshness.entry_rewritten).
  - vm_compute. reflexivity.
  - intros i Hi. vm_compute in Hi. injection Hi as <-. vm_compute. discriminate.
Defined.

(** An entry last read in summer, half an hour more than seven days ago,
    the clocks having been put back an hour since: [is_cache_valid]
    accepts it, and the cleanup removes it at the same instant. *)
Definition fs_summer : filesystem :=
  {| nodes := <[ ["srv"; "cache"; "ubuntu"; "3b"; "3b5d_InRelease"]
                   := Inode (Some "Origin: Ubuntu") 0 0 ]> (nodes Freshness.fs_rewritten);
     cwd := [] |}.

Example clean_old_cache_removes_entry_valid_by_wall_clock :
  let zone := Freshness.summer_time (- 100 * Freshness.day_us) (3 * Freshness.day_us) in
  let now := 7 * Freshness.day_us + Freshness.hour_us / 2 in
  Freshness.is_cache_valid zone config_cleanup fs_summer now Freshness.entry_rewritten
  = Returned true /\
  exists_ (clean_old_cache config_cleanup fs_summer now) Freshness.entry_rewritten = false.
Proof. split; vm_compute; reflexivity. Qed.


(** The walk at work: on day 30 the entry of [fs_rewritten] is removed,
    and its directories stay. *)
Example clean_old_cache_day_30 :
  let f' := clean_old_cache config_cleanup Freshness.fs_rewritten (30 * Freshness.day_us) in
  exists_ f' Freshness.entry_rewritten = false /\
  exists_ f' (of_string "/srv/cache/ubuntu/3b") = true.
Proof. vm_compute. auto. Qed.

Example clean_old_cache_day_10 :
  clean_old_cache config_cleanup Freshness.fs_rewritten (10 * Freshness.day_us)
  = Freshness.fs_rewritten.
Proof. vm_compute. reflexivity. Qed.

End Cleanup.

(** ** A miss that is cached, and the hit that follows

    [proxy_package_logic] of services/proxy.py with [get_cache_path],
    [stream_and_cache] and [generate_cached] of services/cache_manager.py. *)

Module RoundTrip.
Import PyStr Py Config Fs.

Lemma mkdirs_is_dir_kept (ps : list string) (f f' : filesystem) (cur : list string) (now : Z)
    (l : list string) :
  mkdirs f cur ps now = Returned f' -> is_dir_at f l = true -> is_dir_at f' l = true.
Proof.
  intros H. destruct l as [|x l]; [reflexivity |]. cbn [is_dir_at].
  destruct (nodes f !! (x :: l)) as [[[d|] a m]|] eqn:E; try discriminate.
  intros _. now rewrite (CachePath.mkdirs_keeps _ _ _ _ _ _ _ H E).
Qed.

(** After [mkdir(parents=True)] the path names a directory. *)
Lemma mkdirs_makes (ps : list string) (f f' : filesystem) (cur : list string) (now : Z) :
  is_dir_at f cur = true -> mkdirs f cur ps now = Returned f' ->
  exists l, walk f' cur ps = Some l /\ is_dir_at f' l = true.
Proof.
  revert f cur. induction ps as [|p r IH]; intros f cur Hcur H.
  - cbn [mkdirs] in H. injection H as <-. exists cur. auto.
  - pose proof (mkdirs_is_dir_kept _ _ _ _ _ _ H Hcur) as Hcur'.
    cbn [walk]. rewrite Hcur'. revert H. cbn [mkdirs].
    set (next := if String.eqb p ".." then removelast cur else cur ++ [p]).
    destruct next as [|x next'] eqn:En; [now apply IH |].
    destruct (nodes f !! (x :: next')) as [[[d|] a m]|] eqn:E; [discriminate | |].
    + apply IH. cbn [is_dir_at]. now rewrite E.
    + apply IH. cbn [is_dir_at set_nodes nodes]. now rewrite lookup_insert_eq.
Qed.

(** [mkdir(parents=True, exist_ok=True)] looks at directories only: where
    it has nothing to make, it has nothing to make on any file system with
    the same directories. *)
Lemma mkdirs_dirs_only (ps : list string) (f g : filesystem) (cur : list string) (now now' : Z) :
  (forall l, is_dir_at g l = is_dir_at f l) ->
  mkdirs f cur ps now = Returned f -> mkdirs g cur ps now' = Returned g.
Proof.
  intros Hsame. revert cur. induction ps as [|p r IH]; intros cur; [reflexivity |].
  cbn [mkdirs]. set (next := if String.eqb p ".." then removelast cur else cur ++ [p]).
  destruct next as [|x next'] eqn:En; [apply IH |].
  destruct (nodes f !! (x :: next')) as [[[d|] a m]|] eqn:E; [discriminate | |].
  - intros H. specialize (Hsame (x :: next')). cbn [is_dir_at] in Hsame. rewrite E in Hsame.
    destruct (nodes g !! (x :: next')) as [[[d'|] a' m']|]; try discriminate. now apply IH.
  - intros H. exfalso.
    assert (Hn : nodes f !! (x :: next') = Some (Inode None now now)).
    { eapply CachePath.mkdirs_keeps; [exact H |]. cbn [set_nodes nodes].
      apply lookup_insert_eq. }
    congruence.
Qed.

(** The entry [get_cache_path] returns lies in a directory that exists
    when it returns. *)
Lemma get_cache_path_location (CONFIG : gmap string value) (f f1 : filesystem) (now : Z)
    (distro package_path : string) (p : Path) :
  is_dir_at f (cwd f) = true ->
  CachePath.get_cache_path CONFIG f now distro package_path = Returned (p, f1) ->
  exists cd dl,
    p = MkPath (root cd) (parts cd ++ [CachePath.entry_name package_path]) /\
    mkdir_parents f cd now = Returned f1 /\
    locate f1 cd = Some dl /\ is_dir_at f1 dl = true /\
    locate f1 p = Some (dl ++ [CachePath.entry_name package_path]).
Proof.
  intros Hcwd. unfold CachePath.get_cache_path.
  destruct (CachePath.path_of_value _) as [storage_path|]; [| discriminate].
  cbn [mbind outcome_bind bind].
  set (cd := joinpath (joinpath storage_path distro) (take 2 (MD5.hexdigest package_path))).
  destruct (mkdir_parents f cd now) as [f'|] eqn:Em; [| discriminate].
  cbn [mbind outcome_bind bind mret outcome_ret].
  assert (Hname : MD5.hexdigest package_path +:+ "_" +:+
                  (if String.eqb (basename package_path) EmptyString then "index"
                   else basename package_path)
                  = CachePath.entry_name package_path).
  { unfold CachePath.entry_name, CachePath.entry_basename.
    now rewrite <- CachePath.basename_last_segment. }
  rewrite Hname. destruct (CachePath.entry_name_component package_path) as [Hc Hs].
  rewrite (CachePath.joinpath_component cd _ Hc Hs). intros [= <- <-].
  unfold mkdir_parents in Em.
  assert (Hstart : is_dir_at f (if String.eqb (root cd) EmptyString then cwd f else []) = true).
  { destruct (String.eqb (root cd) EmptyString); [exact Hcwd | reflexivity]. }
  destruct (mkdirs_makes _ _ _ _ _ Hstart Em) as [dl [Hwalk Hdir]].
  assert (Hloc : locate f' cd = Some dl).
  { unfold locate. now rewrite (CachePath.mkdirs_cwd _ _ _ _ _ Em). }
  exists cd, dl. split; [reflexivity |]. split; [exact Em |]. split; [exact Hloc |].
  split; [exact Hdir |].
  unfold locate in *. cbn [root parts]. rewrite walk_app, Hloc. cbn [walk]. rewrite Hdir.
  assert (Hne : String.eqb (CachePath.entry_name package_path) ".." = false).
  { apply String.eqb_neq. unfold CachePath.entry_name.
    destruct (CachePath.hexdigest_cons package_path) as [a [b [t [E [Ha Hb]]]]].
    rewrite E, app_cons. intros [= -> _]. now apply CachePath.dot_not_hex. }
  now rewrite Hne.
Qed.

Lemma get_cache_path_again (CONFIG : gmap string value) (f f1 g : filesystem) (now now' : Z)
    (distro package_path : string) (p : Path) :
  CachePath.get_cache_path CONFIG f now distro package_path = Returned (p, f1) ->
  cwd g = cwd f1 -> (forall l, is_dir_at g l = is_dir_at f1 l) ->
  CachePath.get_cache_path CONFIG g now' distro package_path = Returned (p, g).
Proof.
  unfold CachePath.get_cache_path.
  destruct (CachePath.path_of_value _) as [storage_path|]; [| discriminate].
  cbn [mbind outcome_bind bind].
  set (cd := joinpath (joinpath storage_path distro) (take 2 (MD5.hexdigest package_path))).
  destruct (mkdir_parents f cd now) as [f'|] eqn:Em; [| discriminate].
  cbn [mbind outcome_bind bind mret outcome_ret]. intros [= <- <-] Hcwd Hdirs.
  pose proof (CachePath.mkdir_parents_idempotent _ _ _ _ now' Em) as Hagain.
  unfold mkdir_parents in *. rewrite Hcwd.
  now rewrite (mkdirs_dirs_only _ _ g _ _ now' Hdirs Hagain).
Qed.

(** The temporary path of an entry lies in the directory of the entry. *)
Lemma temp_path_location (f : filesystem) (r : string) (d dl : list string) (name : string)
    (t : Path) :
  with_suffix (MkPath r (d ++ [name])) ".tmp" = Returned t ->
  locate f (MkPath r d) = Some dl -> is_dir_at f dl = true ->
  exists tname, locate f t = Some (dl ++ [tname]).
Proof.
  intros Hs Hd Hdir. apply with_suffix_sibling in Hs as [d' [x [Hparts [Hx ->]]]].
  cbn [root parts] in *. apply app_inj_tail in Hparts as [<- <-].
  exists (fst (split_suffix name) +:+ ".tmp"). unfold locate in *. cbn [root parts] in *.
  rewrite walk_app, Hd. cbn [walk]. rewrite Hdir.
  assert (Hne : String.eqb (fst (split_suffix name) +:+ ".tmp") ".." = false).
  { apply String.eqb_neq. intros Heq. apply (f_equal String.length) in Heq.
    rewrite length_app in Heq. cbn in Heq. lia. }
  now rewrite Hne.
Qed.

(** What a miss that answers with a caching generator has done. *)
Lemma miss_facts
    (utcoffset : Z -> Z)
    (re : string -> string -> Blacklist.re_result) (patterns : list string)
    (upstream : nat -> string -> list (string * string) -> Fetch.get_result)
    (CONFIG : gmap string value) (MIRRORS_CACHE : gmap string Mirrors.mirror)
    (w w1 : Fetch.world) (c c1 : Proxy.counters) (now : Z)
    (hs : list (string * string)) (distro package_path : string)
    (r : Fetch.Response) (t p : Path) (b : Fetch.body) :
  Proxy.proxy_package_logic utcoffset re patterns upstream CONFIG MIRRORS_CACHE w c now hs
    distro package_path = Returned (Proxy.fetched r, w1, c1) ->
  Fetch.payload_of r = Fetch.Stream (Fetch.generate_cached t p b) ->
  CachePath.get_cache_path CONFIG (Fetch.fs w) now distro package_path
  = Returned (p, Fetch.fs w1) /\
  with_suffix p ".tmp" = Returned t.
Proof.
  unfold Proxy.proxy_package_logic.
  destruct (CachePath.get_cache_path CONFIG (Fetch.fs w) now distro package_path)
    as [[cache_path f1]|]; [| discriminate].
  cbn [mbind outcome_bind bind Fetch.set_fs Fetch.fs].
  destruct (Freshness.is_cache_valid utcoffset CONFIG f1 now cache_path) as [[|]|];
    [| | discriminate].
  - unfold Proxy.serve_from_cache. destruct (stat _ cache_path) as [i|].
    + destruct (content i); discriminate.
    + discriminate.
  - destruct (match Mirrors.get_all_mirrors MIRRORS_CACHE
                      !! Mirrors.get_upstream_key MIRRORS_CACHE distro package_path with
              | Some mirrors => Some mirrors
              | None => Mirrors.get_all_mirrors MIRRORS_CACHE !! distro
              end) as [mirrors|]; [| discriminate].
    destruct (Fetch.stream_and_cache _ _ _ _ _ _ _) as [[r' w']|] eqn:Er; [| discriminate].
    cbn. intros [= <- <- <-] Hpay. unfold Fetch.stream_and_cache in Er.
    destruct (Blacklist.is_blacklisted re patterns _) as [bl|]; [| discriminate].
    cbn [mbind outcome_bind bind] in Er.
    apply Streams.try_urls_world in Er as [Hf [_ [_ Hp]]]. rewrite Hpay in Hp.
    destruct Hp as [_ [_ [-> Ht]]]. cbn in Hf. rewrite Hf. auto.
Qed.

Lemma serve_from_cache_sends (w : Fetch.world) (now : Z) (cache_path : Path)
    (i : inode) (d : string) :
  stat (Fetch.fs w) cache_path = Returned i -> content i = Some d ->
  exists w',
    Proxy.serve_from_cache w now cache_path = (Proxy.send_file cache_path, w') /\
    Fetch.requested w' = Fetch.requested w /\
    Fetch.bytes_served w' = Fetch.bytes_served w + Z.of_nat (String.length d) /\
    read_file (Fetch.fs w') cache_path = Some d.
Proof.
  intros Hs Hc.
  destruct (Serving.utime_frame (Fetch.fs w) cache_path i d now (st_mtime i) Hs Hc)
    as [loc [f' [Hloc [Hne [Hut [Hfr Hnode]]]]]].
  assert (Hs' : stat f' cache_path = Returned (Inode (Some d) now (st_mtime i))).
  { unfold stat. rewrite (frame_locate _ _ _ cache_path Hfr), Hloc.
    destruct loc; [congruence |]. now rewrite Hnode. }
  unfold Proxy.serve_from_cache. rewrite Hs. cbn [mbind outcome_bind bind]. rewrite Hut, Hs'.
  cbn [content]. eexists. split; [reflexivity |].
  cbn [Fetch.fs Fetch.bytes_served Fetch.requested].
  split; [reflexivity |]. split; [reflexivity |]. unfold read_file. now rewrite Hs'.
Qed.

(** X22. A miss is cached, and the next request is a hit.  Take a request that
    [proxy_package_logic] answers with a caching fetch, whose body then
    arrives whole and is written without error, with no file at the
    temporary path and no directory in the way of the entry.  Pulled to
    the end, the generator commits, and the entry holds the body.  From
    then on, at every instant that has a [datetime] and at which the
    local wall clock reads less than [cache_days] more than it read at the
    fetch, the same request is a hit: it is answered by [send_file] of the
    entry, counted as a hit, and no mirror is asked, whatever the mirrors
    and the blacklist are by then. *)
Theorem miss_then_hit
    (utcoffset : Z -> Z)
    (re : string -> string -> Blacklist.re_result) (patterns : list string)
    (upstream : nat -> string -> list (string * string) -> Fetch.get_result)
    (CONFIG : gmap string value) (MIRRORS_CACHE : gmap string Mirrors.mirror)
    (w w1 : Fetch.world) (c c1 : Proxy.counters) (now : Z)
    (hs : list (string * string)) (distro package_path : string)
    (r : Fetch.Response) (t p : Path) (b : Fetch.body) (days : Z) :
  is_dir_at (Fetch.fs w) (cwd (Fetch.fs w)) = true ->
  get_config CONFIG "cache_days" (VInt 7) = VInt days -> Z.abs days <= 999999999 ->
  Freshness.representable utcoffset now ->
  Proxy.proxy_package_logic utcoffset re patterns upstream CONFIG MIRRORS_CACHE w c now hs
    distro package_path = Returned (Proxy.fetched r, w1, c1) ->
  Fetch.payload_of r = Fetch.Stream (Fetch.generate_cached t p b) ->
  Fetch.ending b = Fetch.EndOfStream ->
  forallb Fetch.write_ok (Fetch.events b) = true ->
  exists_ (Fetch.fs w1) t = false ->
  (forall i, stat (Fetch.fs w1) p = Returned i -> content i <> None) ->
  let s := Fetch.gen_run t p b now (2 + length (Fetch.events b))
             (Fetch.GenState Fetch.Created w1 []) in
  Fetch.phase_of s = Fetch.Finished Fetch.Committed /\
  read_file (Fetch.fs (Fetch.world_of s)) p = Some (Fetch.written (Fetch.events b)) /\
  forall re' patterns' upstream' MIRRORS_CACHE' c2 now2 hs2,
    Freshness.representable utcoffset now2 ->
    Freshness.wall_clock utcoffset now2 - Freshness.wall_clock utcoffset now
    < days * Freshness.day_us ->
    exists w2,
      Proxy.proxy_package_logic utcoffset re' patterns' upstream' CONFIG MIRRORS_CACHE'
        (Fetch.world_of s) c2 now2 hs2 distro package_path
      = Returned (Proxy.send_file p, w2,
                  {| Proxy.requests_total := Proxy.requests_total c2 + 1;
                     Proxy.cache_hits := Proxy.cache_hits c2 + 1;
                     Proxy.cache_misses := Proxy.cache_misses c2 |}) /\
      Fetch.requested w2 = Fetch.requested (Fetch.world_of s) /\
      read_file (Fetch.fs w2) p = Some (Fetch.written (Fetch.events b)).
Proof.
  intros Hcwd Hdays Hrange Hnow Hmiss Hpay Hend Hok Hno_temp Hno_dir s.
  destruct (miss_facts _ _ _ _ _ _ _ _ _ _ _ _ _ _ _ _ _ _ Hmiss Hpay) as [Hget Hsuffix].
  destruct (get_cache_path_location _ _ _ _ _ _ _ Hcwd Hget)
    as [cd [dl [Hp [Hmk [Hcd [Hdir Hlf]]]]]].
  set (f1 := Fetch.fs w1) in *.
  (* the temporary file can be opened *)
  assert (Hcdpath : locate f1 (MkPath (root cd) (parts cd)) = Some dl) by (now destruct cd).
  rewrite Hp in Hsuffix.
  destruct (temp_path_location f1 _ _ dl _ t Hsuffix Hcdpath Hdir) as [tname Hlt].
  rewrite <- Hp in Hsuffix.
  assert (Hopen : exists f2, open_wb f1 t now = Returned (f2, dl ++ [tname])).
  { revert Hno_temp. unfold exists_, stat, open_wb. rewrite Hlt.
    destruct (dl ++ [tname]) as [|x l] eqn:E; [now apply app_eq_nil in E as [_ E] |].
    destruct (nodes f1 !! (x :: l)) as [i|]; [discriminate |]. intros _. rewrite <- E.
    rewrite removelast_last, Hdir. eauto. }
  destruct Hopen as [f2 Hopen].
  assert (Hfile : is_dir_at f1 (dl ++ [CachePath.entry_name package_path]) = false).
  { specialize (Hno_dir). unfold stat in Hno_dir. rewrite Hlf in Hno_dir.
    destruct (dl ++ [CachePath.entry_name package_path]) as [|x l] eqn:E;
      [now apply app_eq_nil in E as [_ E] |].
    cbn [is_dir_at]. destruct (nodes f1 !! (x :: l)) as [[[d|] a m]|]; try reflexivity.
    exfalso. now apply (Hno_dir _ eq_refl). }
  assert (Hparent : is_dir_at f1 (removelast (dl ++ [CachePath.entry_name package_path]))
                    = true) by (now rewrite removelast_last).
  assert (Hc : Fetch.phase_of s = Fetch.Finished Fetch.Committed).
  { exact (Streams.pulled_to_the_end_commits t p b now w1 f2 _ _ Hopen Hlf Hfile
             Hparent Hend Hok). }
  assert (Hreach : rtc (Fetch.gen_step t p b now) (Fetch.GenState Fetch.Created w1 []) s)
    by apply Fetch.gen_run_reachable.
  pose proof (Streams.held_reachable t p b now w1 s Hreach) as Hheld.
  destruct (Streams.held_committed t p b now w1 s Hheld Hc) as [a [m [Hs Ha]]].
  rewrite (Ha Hno_temp) in Hs. destruct Hheld as [[Hsame_cwd Hsame_dirs] _].
  set (f := Fetch.fs (Fetch.world_of s)) in *.
  assert (Hread : read_file f p = Some (Fetch.written (Fetch.events b))).
  { unfold read_file. now rewrite Hs. }
  split; [exact Hc |]. split; [exact Hread |].
  intros re' patterns' upstream' MIRRORS_CACHE' c2 now2 hs2 Hnow2 Hsoon.
  assert (Hget2 : CachePath.get_cache_path CONFIG f now2 distro package_path
                  = Returned (p, f)).
  { eapply get_cache_path_again; [exact Hget | exact Hsame_cwd | exact Hsame_dirs]. }
  assert (Hvalid : Freshness.is_cache_valid utcoffset CONFIG f now2 p = Returned true).
  { rewrite (Freshness.is_cache_valid_atime utcoffset CONFIG f now2 p _ days Hs Hdays Hrange
               Hnow2 Hnow).
    cbn [st_atime]. apply Z.ltb_lt in Hsoon. rewrite Hsoon. now rewrite orb_true_r. }
  assert (Hw : Fetch.set_fs (Fetch.world_of s) f = Fetch.world_of s).
  { subst f. now destruct (Fetch.world_of s). }
  destruct (serve_from_cache_sends (Fetch.world_of s) now2 p _ _ Hs eq_refl)
    as [w2 [Hserve [Hreq [_ Hread2]]]].
  exists w2. unfold Proxy.proxy_package_logic. fold f. rewrite Hget2.
  cbn [mbind outcome_bind bind]. rewrite Hw. fold f. rewrite Hvalid, Hserve.
  split; [reflexivity |]. split; [exact Hreq | exact Hread2].
Qed.

(** The first request of the scenario, in a zone whose clocks are put
    forward on the third day: the entry is committed, and five days later
    the request is a hit. *)
Lemma miss_then_hit_witness :
  let zone := Freshness.summer_time (3 * Proxy.one_day) (200 * Proxy.one_day) in
  let s := Fetch.gen_run Proxy.entry_x_tmp Proxy.entry_x Proxy.body_hello Proxy.one_day 3
             (Fetch.GenState Fetch.Created
                (Fetch.send
                   (Fetch.set_fs Proxy.w_start
                      {| nodes := <[ ["srv"; "cache"; "ubuntu"; "9b"] :=
                                       Inode None Proxy.one_day Proxy.one_day ]>
                                  (<[ ["srv"; "cache"; "ubuntu"] :=
                                        Inode None Proxy.one_day Proxy.one_day ]>
                                   (nodes (Fetch.fs Proxy.w_start)));
                         cwd := [] |})
                   "http://a/ubuntu/pool/x.deb") []) in
  Fetch.phase_of s = Fetch.Finished Fetch.Committed /\
  read_file (Fetch.fs (Fetch.world_of s)) Proxy.entry_x = Some "HELLO" /\
  exists w2,
    Proxy.proxy_package_logic zone Blacklist.glob_re_search [] Proxy.upstream_breaks
      Proxy.config_srv ∅ (Fetch.world_of s) (Proxy.Counters 1 0 1) (6 * Proxy.one_day) []
      "ubuntu" "pool/x.deb"
    = Returned (Proxy.send_file Proxy.entry_x, w2, Proxy.Counters 2 1 1).
Proof.
  intros zone s.
  destruct (miss_then_hit zone Blacklist.glob_re_search [] Proxy.upstream_hello
              Proxy.config_srv
              Proxy.mirrors_ubuntu Proxy.w_start
              (Fetch.send
                 (Fetch.set_fs Proxy.w_start
                    {| nodes := <[ ["srv"; "cache"; "ubuntu"; "9b"] :=
                                     Inode None Proxy.one_day Proxy.one_day ]>
                                (<[ ["srv"; "cache"; "ubuntu"] :=
                                      Inode None Proxy.one_day Proxy.one_day ]>
                                 (nodes (Fetch.fs Proxy.w_start)));
                       cwd := [] |})
                 "http://a/ubuntu/pool/x.deb")
              Proxy.c0 (Proxy.Counters 1 0 1) Proxy.one_day [] "ubuntu" "pool/x.deb"
              (Fetch.MkResponse 200 []
                 (Fetch.Stream (Fetch.generate_cached Proxy.entry_x_tmp Proxy.entry_x
                                  Proxy.body_hello)))
              Proxy.entry_x_tmp Proxy.entry_x Proxy.body_hello 7
              eq_refl eq_refl ltac:(vm_compute; discriminate)
              ltac:(vm_compute; split; discriminate)
              ltac:(vm_compute; reflexivity) eq_refl eq_refl eq_refl
              ltac:(vm_compute; reflexivity)
              ltac:(vm_compute; intros i H; discriminate H))
    as [Hc [Hread Hhit]].
  split; [exact Hc |]. split; [exact Hread |].
  destruct (Hhit Blacklist.glob_re_search [] Proxy.upstream_breaks ∅ (Proxy.Counters 1 0 1)
              (6 * Proxy.one_day) [] ltac:(vm_compute; split; discriminate)
              ltac:(vm_compute; reflexivity)) as [w2 [H2 _]].
  exists w2. exact H2.
Defined.

End RoundTrip.

(** ** utils/routes.py: the admin token and the routes behind it *)

Module Admin.
Import PyStr Py Config Fs.

(** [check_auth()], given [request.headers.get('Authorization')]. *)
Definition check_auth (CONFIG : gmap string value) (authorization : option string) : bool :=
  let token := get_config CONFIG "admin_token" VNone in
  if negb (truthy token) then true
  else
    match authorization with
    | None => false
    | Some auth_header =>
        if String.eqb auth_header EmptyString then false
        else
          let received_token :=
            if startswith auth_header "Bearer "
            then nth 1 (split " " auth_header) EmptyString
            else auth_header in
          match token with
          | VStr t => String.eqb received_token t
          | _ => false
          end
    end.

(** The state the admin routes work on. *)
Record server := Server {
  files : filesystem;
  registry : Mirrors.state;
  blacklist : BlacklistStore.store
}.

Inductive reply : Type :=
| Response (body : string) (status : Z)
| status_success
| status_cleanup_completed
| patterns (l : list string)
| mirrors (m : gmap string Mirrors.mirror).

Definition Unauthorized : reply := Response "Unauthorized" 401.

Section Routes.

Variable CONFIG : gmap string value.
Variable n : Mirrors.net.

(** The [Authorization] header of the request. *)
Variable authorization : option string.

(** [api_delete_cache_file()], given [request.args.get('path')]. *)
Definition api_delete_cache_file (srv : server) (path : option string) : reply * server :=
  if negb (check_auth CONFIG authorization) then (Unauthorized, srv)
  else
    match path with
    | None => (Response "Missing path parameter" 400, srv)
    | Some file_path =>
        if String.eqb file_path EmptyString
        then (Response "Missing path parameter" 400, srv)
        else
          let '(deleted, f') := CacheFiles.delete_cached_file CONFIG (files srv) file_path in
          let srv' := {| files := f'; registry := registry srv; blacklist := blacklist srv |} in
          if deleted then (status_success, srv')
          else (Response "Failed to delete file (not found or invalid path)" 404, srv')
    end.

(** [api_get_blacklist()] *)
Definition api_get_blacklist (srv : server) : reply * server :=
  if negb (check_auth CONFIG authorization) then (Unauthorized, srv)
  else (patterns (BlacklistStore.get_blacklist_patterns (blacklist srv)), srv).

(** [api_remove_blacklist()], given [request.args.get('pattern')]. *)
Definition api_remove_blacklist (srv : server) (pattern : option string) : reply * server :=
  if negb (check_auth CONFIG authorization) then (Unauthorized, srv)
  else
    match pattern with
    | None => (Response "Missing pattern" 400, srv)
    | Some p =>
        if String.eqb p EmptyString then (Response "Missing pattern" 400, srv)
        else
          let '(ok, b') :=
            BlacklistStore.remove_blacklist_pattern (Mirrors.db_ok n) (blacklist srv) p in
          let srv' := {| files := files srv; registry := registry srv; blacklist := b' |} in
          if ok then (status_success, srv')
          else (Response "Failed to remove pattern" 500, srv')
    end.

(** [api_admin_mirrors()] *)
Definition api_admin_mirrors (srv : server) : reply * server :=
  if negb (check_auth CONFIG authorization) then (Unauthorized, srv)
  else (mirrors (Registry.get_mirrors_management (registry srv)), srv).

(** [api_delete_mirror(name)] *)
Definition api_delete_mirror (srv : server) (name : string) : reply * server :=
  if negb (check_auth CONFIG authorization) then (Unauthorized, srv)
  else
    let '(ok, r') := Registry.delete_mirror n (registry srv) name in
    let srv' := {| files := files srv; registry := r'; blacklist := blacklist srv |} in
    if ok then (status_success, srv')
    else (Response "Failed to delete mirror" 500, srv').

(** [manual_cleanup()] at clock reading [now]. *)
Definition manual_cleanup (srv : server) (now : Z) : reply * server :=
  if negb (check_auth CONFIG authorization) then (Unauthorized, srv)
  else
    (status_cleanup_completed,
     {| files := Cleanup.clean_old_cache CONFIG (files srv) now;
        registry := registry srv; blacklist := blacklist srv |}).

End Routes.

(** A request to one of the routes above. *)
Inductive admin_request : Type :=
| DELETE_cache (path : option string)
| GET_blacklist
| DELETE_blacklist (pattern : option string)
| GET_mirrors
| DELETE_mirror (mirror_name : string)
| GET_cleanup.

Definition admin_route (CONFIG : gmap string value) (n : Mirrors.net)
    (authorization : option string) (now : Z) (srv : server) (req : admin_request)
    : reply * server :=
  match req with
  | DELETE_cache path => api_delete_cache_file CONFIG authorization srv path
  | GET_blacklist => api_get_blacklist CONFIG authorization srv
  | DELETE_blacklist pattern => api_remove_blacklist CONFIG n authorization srv pattern
  | GET_mirrors => api_admin_mirrors CONFIG authorization srv
  | DELETE_mirror name => api_delete_mirror CONFIG n authorization srv name
  | GET_cleanup => manual_cleanup CONFIG authorization srv now
  end.

Lemma split_cons_sep (c : ascii) (s : string) :
  split c (String c s) = EmptyString :: split c s.
Proof. cbn [split]. now destruct (ascii_dec c c). Qed.

Lemma hd_split_cons (c a : ascii) (s : string) :
  a <> c -> hd EmptyString (split c (String a s)) = String a (hd EmptyString (split c s)).
Proof.
  intros Hne. cbn [split]. destruct (ascii_dec a c); [contradiction |].
  now destruct (split c s).
Qed.

Lemma tl_split_cons (c a : ascii) (s : string) :
  a <> c -> tl (split c (String a s)) = tl (split c s).
Proof.
  intros Hne. cbn [split]. destruct (ascii_dec a c); [contradiction |].
  destruct (split c s) as [|f fs] eqn:E; [| reflexivity].
  destruct s; cbn [split] in E; [discriminate |].
  destruct (ascii_dec _ c); [discriminate |]. now destruct (split c s).
Qed.

(** The first field of a split is the text before the first separator. *)
Lemma hd_split_spec (c : ascii) (x t : string) :
  hd EmptyString (split c x) = t <->
  has_char c t = false /\ (x = t \/ exists r, x = t +:+ String c r).
Proof.
  revert t. induction x as [|a s IH]; intros t.
  - cbn [split hd]. split.
    + intros <-. auto.
    + intros [_ [<- | [r Hr]]]; [reflexivity |].
      destruct t; cbn in Hr; discriminate.
  - destruct (ascii_dec a c) as [-> | Hne].
    + rewrite split_cons_sep. cbn [hd]. split.
      * intros <-. split; [reflexivity |]. right. now exists s.
      * intros [Hc [<- | [r Hr]]].
        -- cbn [has_char] in Hc. now destruct (ascii_dec c c).
        -- destruct t as [|b t]; [reflexivity |]. rewrite app_cons in Hr.
           injection Hr as <- _. cbn [has_char] in Hc. now destruct (ascii_dec c c).
    + rewrite (hd_split_cons c a s Hne). split.
      * intros <-. cbn [has_char]. destruct (ascii_dec a c); [contradiction |].
        destruct (proj1 (IH _) eq_refl) as [Hc [Hx | [r Hr]]].
        -- split; [exact Hc |]. left. now f_equal.
        -- split; [exact Hc |]. right. exists r. rewrite app_cons. now f_equal.
      * intros [Hc Hx]. destruct t as [|b t].
        -- destruct Hx as [Hx | [r Hr]]; [discriminate |].
           rewrite app_nil_l in Hr. injection Hr as -> _. contradiction.
        -- cbn [has_char] in Hc. destruct (ascii_dec b c); [discriminate |].
           assert (a = b /\ (s = t \/ exists r, s = t +:+ String c r)) as [<- Hs].
           { destruct Hx as [Hx | [r Hr]].
             - injection Hx as -> ->. auto.
             - rewrite app_cons in Hr. injection Hr as -> ->. eauto. }
           f_equal. apply IH. auto.
Qed.

Lemma nth1_split_bearer (x : string) :
  nth 1 (split " " ("Bearer " +:+ x)) EmptyString = hd EmptyString (split " " x).
Proof.
  assert (H : tl (split " " ("Bearer " +:+ x)) = split " " x).
  { rewrite !app_cons, app_nil_l.
    rewrite !tl_split_cons by discriminate. now rewrite split_cons_sep. }
  destruct (split " " ("Bearer " +:+ x)) as [|f fs]; cbn [tl] in H.
  - rewrite <- H. reflexivity.
  - rewrite H. cbn [nth]. now destruct (split " " x).
Qed.

Lemma check_auth_with_token
    (CONFIG : gmap string value) (authorization : option string) (t : string) :
  get_config CONFIG "admin_token" VNone = VStr t -> t <> EmptyString ->
  (check_auth CONFIG authorization = true <->
   exists a, authorization = Some a /\
     ((a = t /\ startswith t "Bearer " = false) \/
      (exists rest, a = "Bearer " +:+ t +:+ rest /\ has_char " " t = false /\
                    (rest = EmptyString \/ startswith rest " " = true)))).
Proof.
  intros Ht Hne. unfold check_auth. rewrite Ht. cbn [truthy negb].
  apply String.eqb_neq in Hne. rewrite Hne. cbn [negb].
  destruct authorization as [a|]; [| split; [discriminate | intros [a [H _]]; discriminate]].
  destruct (String.eqb a EmptyString) eqn:Ea.
  { apply String.eqb_eq in Ea. subst a. split; [discriminate |].
    intros [a [[= <-] [[<- _] | [rest [Hr _]]]]].
    - now apply String.eqb_neq in Hne.
    - discriminate Hr. }
  destruct (startswith a "Bearer ") eqn:Eb.
  - apply startswith_spec in Eb as [x ->]. rewrite nth1_split_bearer, String.eqb_eq.
    rewrite hd_split_spec. split.
    + intros [Hc Hx]. exists ("Bearer " +:+ x). split; [reflexivity |]. right.
      destruct Hx as [-> | [r ->]].
      * exists EmptyString. rewrite app_nil_r. auto.
      * exists (String " " r). split; [reflexivity |]. split; [exact Hc |]. now right.
    + intros [a [[= <-] [[Hat Hnb] | [rest [Hr [Hc Hrest]]]]]].
      * exfalso. rewrite <- Hat in Hnb. rewrite startswith_app in Hnb. discriminate.
      * rewrite !app_cons, !app_nil_l in Hr. injection Hr as ->.
        split; [exact Hc |]. destruct Hrest as [-> | Hrest].
        -- left. now rewrite app_nil_r.
        -- right. apply startswith_spec in Hrest as [r ->]. now exists r.
  - rewrite String.eqb_eq. split.
    + intros <-. exists a. auto.
    + intros [a' [[= <-] [[Hat _] | [rest [Hr _]]]]]; [exact Hat |].
      exfalso. rewrite Hr in Eb.
      change ("Bearer " +:+ t +:+ rest) with ("Bearer " +:+ (t +:+ rest)) in Eb.
      rewrite startswith_app in Eb. discriminate.
Qed.

Lemma check_auth_carries_token
    (CONFIG : gmap string value) (authorization : option string) (t : string) :
  get_config CONFIG "admin_token" VNone = VStr t -> t <> EmptyString ->
  check_auth CONFIG authorization = true ->
  exists a, authorization = Some a /\ contains t a = true.
Proof.
  intros Ht Hne H.
  apply (check_auth_with_token CONFIG authorization t Ht Hne) in H
    as [a [Ha [[Hat _] | [rest [Hr _]]]]]; exists a;
    (split; [exact Ha |]); apply contains_spec.
  - exists EmptyString, EmptyString. now rewrite app_nil_r, app_nil_l.
  - now exists "Bearer ", rest.
Qed.

(** X23. What [check_auth] lets through.  Without an [admin_token], or with an
    empty one, every request passes.  With a token [t], a request passes
    exactly when its [Authorization] header is [t] itself, not starting
    with ["Bearer "], or is ["Bearer "] followed by [t] and then nothing or
    a space and anything, [t] having no space; so the header of a request
    that passes contains the token.  A token that is not text lets
    nothing through. *)
Theorem check_auth_accepts_only_the_token
    (CONFIG : gmap string value) (authorization : option string) :
  let token := get_config CONFIG "admin_token" VNone in
  (truthy token = false -> check_auth CONFIG authorization = true) /\
  (forall t, token = VStr t -> t <> EmptyString ->
     (check_auth CONFIG authorization = true <->
      exists a, authorization = Some a /\
        ((a = t /\ startswith t "Bearer " = false) \/
         (exists rest, a = "Bearer " +:+ t +:+ rest /\ has_char " " t = false /\
                       (rest = EmptyString \/ startswith rest " " = true)))) /\
     (check_auth CONFIG authorization = true ->
      exists a, authorization = Some a /\ contains t a = true)) /\
  (truthy token = true -> (forall t, token <> VStr t) ->
   check_auth CONFIG authorization = false).
Proof.
  intros token. subst token.
  split; [unfold check_auth; intros ->; reflexivity |]. split.
  - intros t Ht Hne. split.
    + now apply check_auth_with_token.
    + now apply check_auth_carries_token.
  - unfold check_auth. intros Htruthy Hnot. rewrite Htruthy. cbn [negb].
    destruct authorization as [a|]; [| reflexivity].
    destruct (String.eqb a EmptyString); [reflexivity |].
    destruct (get_config CONFIG "admin_token" VNone) as [| b | z | t]; try reflexivity.
    exfalso. now apply (Hnot t).
Qed.

(** X24. The admin routes need the token.  With a token configured, a request
    whose [Authorization] header is missing or does not contain the token
    is answered 401 by each of these routes, and the files, the mirror
    registry and the blacklist are left as they were.  With the header
    ["Bearer "] followed by the token, none of them answers 401, provided
    the token holds no space; a token that holds a space is never accepted
    behind ["Bearer "], whatever follows it. *)
Theorem admin_routes_need_the_token
    (CONFIG : gmap string value) (n : Mirrors.net) (authorization : option string)
    (now : Z) (srv : server) (req : admin_request) (t : string) :
  get_config CONFIG "admin_token" VNone = VStr t -> t <> EmptyString ->
  ((forall a, authorization = Some a -> contains t a = false) ->
   admin_route CONFIG n authorization now srv req = (Unauthorized, srv)) /\
  (has_char " " t = false ->
   (admin_route CONFIG n (Some ("Bearer " +:+ t)) now srv req).1 <> Unauthorized) /\
  (has_char " " t = true ->
   forall x, admin_route CONFIG n (Some ("Bearer " +:+ x)) now srv req = (Unauthorized, srv)).
Proof.
  intros Htoken Hne.
  pose proof (check_auth_carries_token CONFIG authorization t Htoken Hne) as Hcarries.
  pose proof (check_auth_with_token CONFIG (Some ("Bearer " +:+ t)) t Htoken Hne)
    as Hbearer'.
  assert (Hrefused : forall auth, check_auth CONFIG auth = false ->
            admin_route CONFIG n auth now srv req = (Unauthorized, srv)).
  { intros auth Hno. destruct req; cbn [admin_route];
      unfold api_delete_cache_file, api_get_blacklist, api_remove_blacklist,
        api_admin_mirrors, api_delete_mirror, manual_cleanup; now rewrite Hno. }
  split; [| split].
  - intros Hnot. apply Hrefused.
    destruct (check_auth CONFIG authorization) eqn:E; [| reflexivity].
    destruct (Hcarries eq_refl) as [a [Ha Hc]]. rewrite (Hnot a Ha) in Hc. discriminate.
  - intros Hspace.
    assert (Hyes : check_auth CONFIG (Some ("Bearer " +:+ t)) = true).
    { apply Hbearer'. eexists. split; [reflexivity |]. right. exists EmptyString.
      rewrite app_nil_r. auto. }
    destruct req; cbn [admin_route];
      unfold api_delete_cache_file, api_get_blacklist, api_remove_blacklist,
        api_admin_mirrors, api_delete_mirror, manual_cleanup; rewrite Hyes; cbn [negb].
    + destruct path as [file_path|]; [| discriminate].
      destruct (String.eqb file_path EmptyString); [discriminate |].
      destruct (CacheFiles.delete_cached_file CONFIG (files srv) file_path) as [[|] f'];
        discriminate.
    + discriminate.
    + destruct pattern as [pt|]; [| discriminate].
      destruct (String.eqb pt EmptyString); [discriminate |].
      destruct (BlacklistStore.remove_blacklist_pattern _ _ pt) as [[|] b']; discriminate.
    + discriminate.
    + destruct (Registry.delete_mirror n (registry srv) _) as [[|] r']; discriminate.
    + discriminate.
  - intros Hspace x. apply Hrefused.
    destruct (check_auth CONFIG (Some ("Bearer " +:+ x))) eqn:E; [| reflexivity].
    apply (check_auth_with_token CONFIG _ t Htoken Hne) in E
      as [a [[= <-] [[Hat Hnb] | [rest [_ [Hc _]]]]]].
    + rewrite <- Hat, startswith_app in Hnb. discriminate.
    + rewrite Hc in Hspace. discriminate.
Qed.

Definition config_token : gmap string value :=
  <["admin_token" := VStr "s3cret"]> CacheFiles.config_srv.

Definition config_token_space : gmap string value :=
  <["admin_token" := VStr "s3 cret"]> CacheFiles.config_srv.

Definition srv_victim : server :=
  {| files := CacheFiles.fs_victim; registry := Router.st_ubuntu;
     blacklist := BlacklistStore.store_nvidia |}.

Lemma admin_routes_need_the_token_witness :
  admin_route config_token Mirrors.net_lan (Some "Bearer guess") 0 srv_victim
    (DELETE_cache (Some "../secrets.db")) = (Unauthorized, srv_victim) /\
  (admin_route config_token Mirrors.net_lan (Some ("Bearer " +:+ "s3cret")) 0 srv_victim
     (DELETE_cache (Some "../secrets.db"))).1 <> Unauthorized /\
  admin_route config_token_space Mirrors.net_lan (Some ("Bearer " +:+ "s3 cret")) 0 srv_victim
    GET_mirrors = (Unauthorized, srv_victim).
Proof.
  destruct (admin_routes_need_the_token config_token Mirrors.net_lan (Some "Bearer guess") 0
              srv_victim (DELETE_cache (Some "../secrets.db")) "s3cret" eq_refl
              ltac:(discriminate)) as [Hno [Hyes _]].
  destruct (admin_routes_need_the_token config_token_space Mirrors.net_lan None 0
              srv_victim GET_mirrors "s3 cret" eq_refl
              ltac:(discriminate)) as [_ [_ Hspace]].
  split; [| split].
  - apply Hno. intros a [= <-]. reflexivity.
  - apply Hyes. reflexivity.
  - apply Hspace. reflexivity.
Defined.

Example check_auth_headers :
  check_auth config_token (Some "Bearer s3cret") = true /\
  check_auth config_token (Some "s3cret") = true /\
  check_auth config_token (Some "Bearer s3cret extra") = true /\
  check_auth config_token (Some "Bearer s3cre") = false /\
  check_auth config_token None = false /\
  check_auth CacheFiles.config_srv None = true.
Proof. vm_compute. auto 10. Qed.

End Admin.

(** ** services/stats.py: the log ring and the counters *)

Module Stats.
Import PyStr Py.

(** An entry of [LOG_BUFFER]. *)
Record entry := Entry { time : string; level : string; message : string }.

Definition MAX_LOG_BUFFER : nat := 100.

(** [add_log(message, level)], given the text of the clock: the new
    [LOG_BUFFER]. *)
Definition add_log (timestamp : string) (LOG_BUFFER : list entry) (message level : string)
    : list entry :=
  let buffer := LOG_BUFFER ++ [Entry timestamp level message] in
  if (MAX_LOG_BUFFER <? length buffer)%nat then tl buffer else buffer.

(** The buffer after a run of calls of [add_log], one for each entry. *)
Definition add_logs (LOG_BUFFER : list entry) (new : list entry) : list entry :=
  fold_left (fun buffer e => add_log (time e) buffer (message e) (level e)) new LOG_BUFFER.

Lemma add_log_skipn (buffer : list entry) (e : entry) :
  (length buffer <= MAX_LOG_BUFFER)%nat ->
  add_log (time e) buffer (message e) (level e)
  = skipn (length (buffer ++ [e]) - MAX_LOG_BUFFER) (buffer ++ [e]).
Proof.
  intros Hlen. unfold add_log. destruct e as [t l m]. cbn [time level message].
  rewrite List.length_app. cbn [length].
  destruct (MAX_LOG_BUFFER <? length buffer + 1)%nat eqn:E.
  - apply Nat.ltb_lt in E.
    replace (length buffer + 1 - MAX_LOG_BUFFER)%nat with 1%nat by lia.
    now destruct (buffer ++ [Entry t l m]).
  - apply Nat.ltb_ge in E.
    replace (length buffer + 1 - MAX_LOG_BUFFER)%nat with 0%nat by lia. reflexivity.
Qed.

(** X25. [LOG_BUFFER] is a ring of the last hundred entries: from a buffer of
    at most a hundred entries, any run of calls of [add_log] leaves the
    last hundred of the old entries followed by the new ones, in order,
    and so never more than a hundred. *)
Theorem log_buffer_keeps_the_last_hundred (LOG_BUFFER new : list entry) :
  (length LOG_BUFFER <= MAX_LOG_BUFFER)%nat ->
  add_logs LOG_BUFFER new
  = skipn (length (LOG_BUFFER ++ new) - MAX_LOG_BUFFER) (LOG_BUFFER ++ new) /\
  (length (add_logs LOG_BUFFER new) <= MAX_LOG_BUFFER)%nat.
Proof.
  revert LOG_BUFFER. unfold add_logs.
  induction new as [|e new IH]; intros buffer Hlen.
  - cbn [fold_left]. rewrite List.app_nil_r.
    replace (length buffer - MAX_LOG_BUFFER)%nat with 0%nat by lia. auto.
  - cbn [fold_left]. rewrite (add_log_skipn buffer e Hlen).
    set (k := (length (buffer ++ [e]) - MAX_LOG_BUFFER)%nat).
    assert (Hk : (k <= length (buffer ++ [e]))%nat) by (subst k; lia).
    assert (Hlen' : (length (skipn k (buffer ++ [e])) <= MAX_LOG_BUFFER)%nat).
    { rewrite List.length_skipn. subst k. rewrite List.length_app in *. cbn [length] in *. lia. }
    destruct (IH _ Hlen') as [Heq Hle]. split; [| exact Hle].
    rewrite Heq.
    assert (Happ : skipn k (buffer ++ [e]) ++ new = skipn k ((buffer ++ [e]) ++ new)).
    { clear -Hk. revert Hk. generalize (buffer ++ [e]). intros X HX.
      rewrite List.skipn_app. replace (k - length X)%nat with 0%nat by lia. reflexivity. }
    rewrite Happ, List.skipn_skipn. rewrite <- List.app_assoc. cbn [app]. f_equal.
    rewrite List.length_skipn, !List.length_app. cbn [length].
    subst k. rewrite List.length_app in *. cbn [length] in *. lia.
Qed.

(** A full buffer: two new entries push the two oldest out. *)
Lemma log_buffer_keeps_the_last_hundred_witness :
  add_logs (repeat (Entry "09:59:59" "INFO" "HIT: y.deb") 100)
    [Entry "10:00:00" "INFO" "MISS: x.deb -> ubuntu";
     Entry "10:00:01" "SUCCESS" "CACHED: x.deb"]
  = repeat (Entry "09:59:59" "INFO" "HIT: y.deb") 98
    ++ [Entry "10:00:00" "INFO" "MISS: x.deb -> ubuntu";
        Entry "10:00:01" "SUCCESS" "CACHED: x.deb"].
Proof.
  exact (proj1 (log_buffer_keeps_the_last_hundred
                  (repeat (Entry "09:59:59" "INFO" "HIT: y.deb") 100)
                  [Entry "10:00:00" "INFO" "MISS: x.deb -> ubuntu";
                   Entry "10:00:01" "SUCCESS" "CACHED: x.deb"]
                  ltac:(vm_compute; apply le_n))).
Defined.

(** *** The counters and their table

    [STATS] maps its keys to numbers ([start_time] being kept as the clock
    reading), and the table [stats] maps a key to a value. *)

Definition counter_keys : list string :=
  ["requests_total"; "cache_hits"; "cache_misses"; "bytes_served"].

(** What [sqlite3] binds as an INTEGER; a larger number is an
    [OverflowError]. *)
Definition fits_int64 (z : Z) : bool := (- 2 ^ 63 <=? z) && (z <? 2 ^ 63).

(** One [UPDATE stats SET value = ? WHERE key = ?] of the loop; [None] is
    an exception ([KeyError], [OverflowError]). *)
Definition update_row (STATS : gmap string Z) (pending : option (gmap string Z))
    (key : string) : option (gmap string Z) :=
  match pending, STATS !! key with
  | Some table, Some v =>
      if fits_int64 v
      then Some (if bool_decide (is_Some (table !! key)) then <[key := v]> table else table)
      else None
  | _, _ => None
  end.

(** [save_stats_to_db()]: the table it leaves.  The updates are committed
    together at the end, or not at all. *)
Definition save_stats_to_db (db_ok : bool) (STATS table : gmap string Z) : gmap string Z :=
  if db_ok then
    match fold_left (update_row STATS) counter_keys (Some table) with
    | Some table' => table'
    | None => table
    end
  else table.

(** [load_stats_from_db()]: the new [STATS]; a row is taken when its key
    is one of [STATS]. *)
Definition load_row (STATS : gmap string Z) (row : string * Z) : gmap string Z :=
  if bool_decide (is_Some (STATS !! row.1)) then <[row.1 := row.2]> STATS else STATS.

Definition load_stats_from_db (db_ok : bool) (table STATS : gmap string Z)
    : gmap string Z :=
  if db_ok then fold_left load_row (map_to_list table) STATS else STATS.

Lemma fold_load_row_lookup (rows : list (string * Z)) (STATS : gmap string Z) (k : string) :
  NoDup rows.*1 ->
  fold_left load_row rows STATS !! k
  = match STATS !! k with
    | Some v0 => Some (default v0 (list_to_map (M := gmap string Z) rows !! k))
    | None => None
    end.
Proof.
  revert STATS. induction rows as [|[k' v] rows IH]; intros STATS Hnd.
  - cbn. now destruct (STATS !! k).
  - cbn [fmap list_fmap fst] in Hnd. apply NoDup_cons in Hnd as [Hk' Hnd].
    cbn [fold_left list_to_map foldr]. rewrite IH by exact Hnd. unfold load_row. cbn [fst snd].
    pose proof (not_elem_of_list_to_map_1 (M := gmap string) rows k' Hk') as Hnone.
    case_bool_decide as Hin.
    + destruct (decide (k = k')) as [-> | Hne].
      * rewrite !lookup_insert_eq, Hnone. destruct Hin as [v0 ->]. reflexivity.
      * rewrite !lookup_insert_ne by congruence. reflexivity.
    + destruct (decide (k = k')) as [-> | Hne].
      * destruct (STATS !! k') eqn:E; [exfalso; apply Hin; eauto | reflexivity].
      * rewrite lookup_insert_ne by congruence. reflexivity.
Qed.

Lemma load_stats_lookup (table STATS : gmap string Z) (k : string) :
  load_stats_from_db true table STATS !! k
  = match STATS !! k with
    | Some v0 => Some (default v0 (table !! k))
    | None => None
    end.
Proof.
  unfold load_stats_from_db.
  rewrite fold_load_row_lookup by apply NoDup_fst_map_to_list.
  now rewrite list_to_map_to_list.
Qed.

Lemma fold_update_row_none (STATS : gmap string Z) (keys : list string) :
  fold_left (update_row STATS) keys None = None.
Proof. induction keys as [|k keys IH]; [reflexivity | exact IH]. Qed.

Lemma fold_update_row_lookup (STATS : gmap string Z) (keys : list string)
    (table table' : gmap string Z) (k : string) :
  fold_left (update_row STATS) keys (Some table) = Some table' ->
  table' !! k = if bool_decide (k ∈ keys /\ is_Some (table !! k)) then STATS !! k
                else table !! k.
Proof.
  revert table. induction keys as [|key keys IH]; intros table.
  - cbn. intros [= <-]. rewrite bool_decide_eq_false_2; [reflexivity |].
    intros [H _]. inversion H.
  - cbn [fold_left]. unfold update_row at 2.
    destruct (STATS !! key) as [v|] eqn:Ev; [| now rewrite fold_update_row_none].
    destruct (fits_int64 v); [| now rewrite fold_update_row_none].
    intros H. rewrite (IH _ H). clear IH H.
    destruct (decide (is_Some (table !! key))) as [Hrow | Hrow].
    + rewrite (bool_decide_eq_true_2 (is_Some (table !! key)) Hrow).
      destruct (decide (k = key)) as [-> | Hne].
      * rewrite lookup_insert_eq.
        rewrite (bool_decide_eq_true_2 (key ∈ key :: keys /\ _))
          by (split; [left | exact Hrow]).
        case_bool_decide; congruence.
      * rewrite lookup_insert_ne by congruence.
        apply (f_equal (fun b : bool => if b then STATS !! k else table !! k)).
        apply bool_decide_ext. rewrite elem_of_cons. intuition congruence.
    + rewrite (bool_decide_eq_false_2 (is_Some (table !! key)) Hrow).
      destruct (decide (k = key)) as [-> | Hne].
      * rewrite (bool_decide_eq_false_2 (key ∈ key :: keys /\ _)) by tauto.
        rewrite bool_decide_eq_false_2 by tauto. reflexivity.
      * apply (f_equal (fun b : bool => if b then STATS !! k else table !! k)).
        apply bool_decide_ext. rewrite elem_of_cons. intuition congruence.
Qed.

(** X26. The counters survive a restart.  When the table has a row for each of
    the four counters and each counter fits a 64-bit integer,
    [save_stats_to_db] followed, in a process whose [STATS] starts afresh,
    by [load_stats_from_db] gives each counter the value it had; a key
    that [STATS] does not have is not taken from the table; and the save
    changes no other row. *)
Theorem counters_survive_a_restart (STATS table fresh : gmap string Z) :
  (forall k, k ∈ counter_keys ->
     is_Some (table !! k) /\ is_Some (fresh !! k) /\
     exists v, STATS !! k = Some v /\ fits_int64 v = true) ->
  let table' := save_stats_to_db true STATS table in
  let STATS' := load_stats_from_db true table' fresh in
  (forall k, k ∈ counter_keys -> STATS' !! k = STATS !! k) /\
  (forall k, fresh !! k = None -> STATS' !! k = None) /\
  (forall k, k ∉ counter_keys -> table' !! k = table !! k).
Proof.
  intros Hkeys table' STATS'.
  assert (Hsave : exists t, fold_left (update_row STATS) counter_keys (Some table) = Some t).
  { unfold counter_keys in *. cbn [fold_left].
    assert (Hstep : forall pending key, key ∈ counter_keys -> is_Some pending ->
              is_Some (update_row STATS pending key)).
    { intros pending key Hk [t ->]. destruct (Hkeys key Hk) as [_ [_ [v [Hv Hfit]]]].
      unfold update_row. rewrite Hv, Hfit. eauto. }
    unfold counter_keys in Hstep.
    assert (H4 : is_Some (update_row STATS (update_row STATS (update_row STATS
                   (update_row STATS (Some table) "requests_total") "cache_hits")
                   "cache_misses") "bytes_served")).
    { repeat apply Hstep; eauto; apply list_elem_of_In; cbn; tauto. }
    destruct H4 as [t Ht]. eauto. }
  destruct Hsave as [t Ht].
  assert (Htable : table' = t).
  { subst table'. unfold save_stats_to_db. now rewrite Ht. }
  split; [| split].
  - intros k Hk. subst STATS'. rewrite load_stats_lookup.
    destruct (Hkeys k Hk) as [Hrow [[v0 Hv0] [v [Hv _]]]]. rewrite Hv0, Htable.
    rewrite (fold_update_row_lookup _ _ _ _ k Ht).
    rewrite bool_decide_eq_true_2 by auto. rewrite Hv. reflexivity.
  - intros k Hk. subst STATS'. rewrite load_stats_lookup. now rewrite Hk.
  - intros k Hk. rewrite Htable, (fold_update_row_lookup _ _ _ _ k Ht).
    rewrite bool_decide_eq_false_2 by tauto. reflexivity.
Qed.

Definition stats_zero : gmap string Z :=
  <["requests_total" := 0]> (<["cache_hits" := 0]> (<["cache_misses" := 0]>
  (<["bytes_served" := 0]> (<["start_time" := 1700000000]> ∅)))).

Definition stats_busy : gmap string Z :=
  <["requests_total" := 12]> (<["cache_hits" := 7]> (<["cache_misses" := 5]>
  (<["bytes_served" := 4096]> (<["start_time" := 1600000000]> ∅)))).

Definition table_zero : gmap string Z :=
  <["requests_total" := 0]> (<["cache_hits" := 0]> (<["cache_misses" := 0]>
  (<["bytes_served" := 0]> ∅))).

Lemma counters_survive_a_restart_witness :
  load_stats_from_db true (save_stats_to_db true stats_busy table_zero) stats_zero
    !! "cache_hits" = Some 7.
Proof.
  assert (Hkeys : forall k, k ∈ counter_keys ->
            is_Some (table_zero !! k) /\ is_Some (stats_zero !! k) /\
            exists v, stats_busy !! k = Some v /\ fits_int64 v = true).
  { intros k Hk. unfold counter_keys in Hk.
    repeat (apply elem_of_cons in Hk as [-> | Hk];
            [split; [eexists; reflexivity |]; split; [eexists; reflexivity |];
             eexists; split; reflexivity |]).
    inversion Hk. }
  destruct (counters_survive_a_restart stats_busy table_zero stats_zero Hkeys) as [H _].
  rewrite (H "cache_hits"); [reflexivity |].
  apply list_elem_of_In. cbn. tauto.
Defined.

End Stats.

(** ** utils/config.py: the configuration file *)

Module ConfigFile.
Import PyStr Py Config Fs.

(** What [json.load] makes of [config.json]: nothing (the file is missing
    or is no JSON, an exception), a value that is no object and that
    [dict.update] refuses, or an object. *)
Inductive disk : Type :=
| Missing
| Unusable
| Object (m : gmap string value).

(** What becomes of [config.json] when [save_config_value] writes it:
    [open(config_path, 'w')] fails, and the file is as it was; or it has
    truncated the file and [json.dump] or the closing of the file fails,
    leaving a part of the new text, which is no JSON, or the whole of it;
    or the new text is written. *)
Inductive write_result : Type :=
| OpenFails
| WriteFails (whole : bool)
| Written.

Section WithBase.

(** The directory of the program, [Path(__file__).resolve().parent.parent]. *)
Variable BASE_DIR : Path.

(** Whether [logger.setLevel(getattr(logging, v))] accepts [v]. *)
Variable valid_level : value -> bool.

(** How the writing of [config.json] goes. *)
Variable writing : write_result.

(** [save_config_value(key, value)]: the flag, the file and [CONFIG]. *)
Definition save_config_value (d : disk) (CONFIG : gmap string value)
    (key : string) (v : value) : bool * disk * gmap string value :=
  match d with
  | Object current_disk_config =>
      let new_disk_config := Object (<[key := v]> current_disk_config) in
      match writing with
      | OpenFails => (false, d, CONFIG)
      | WriteFails whole => (false, if whole then new_disk_config else Missing, CONFIG)
      | Written =>
          let CONFIG' := <[key := v]> CONFIG in
          if String.eqb key "log_level" && negb (valid_level v)
          then (false, new_disk_config, CONFIG')
          else (true, new_disk_config, CONFIG')
      end
  | _ => (false, d, CONFIG)
  end.

(** [load_config()] at clock reading [now]: the flag, [CONFIG] and the
    file system.  (The directories a failing [mkdir] has made before it
    fails are not kept.) *)
Definition load_config (d : disk) (CONFIG : gmap string value) (f : filesystem) (now : Z)
    : bool * gmap string value * filesystem :=
  match d with
  | Missing => (false, CONFIG, f)
  | Unusable => (false, ∅, f)
  | Object new_config =>
      match get_config new_config "storage_path" (VStr "storage") with
      | VStr storage_path_str =>
          let storage_path :=
            if startswith storage_path_str "/" then of_string storage_path_str
            else joinpath BASE_DIR storage_path_str in
          match mkdir_parents f storage_path now with
          | Returned f' =>
              let CONFIG' :=
                <["storage_path_resolved" := VStr (str storage_path)]> new_config in
              if valid_level (get_config CONFIG' "log_level" (VStr "INFO"))
              then (true, CONFIG', f')
              else (false, CONFIG', f')
          | Raised => (false, new_config, f)
          end
      | _ => (false, new_config, f)
      end
  end.

End WithBase.

(** *** A path printed and read again *)

(** The components are names: not empty, not ['.'], without a slash. *)
Definition plain (ps : list string) : Prop :=
  Forall (fun x => is_component x = true /\ has_char "/" x = false) ps.

Lemma split_app_sep (c : ascii) (x r : string) :
  has_char c x = false -> split c (x +:+ String c r) = x :: split c r.
Proof.
  induction x as [|a x IH]; intros Hx.
  - rewrite app_nil_l. cbn [split]. now destruct (ascii_dec c c).
  - cbn [has_char] in Hx. destruct (ascii_dec a c) as [|Hne]; [discriminate |].
    rewrite app_cons. cbn [split]. destruct (ascii_dec a c); [contradiction |].
    now rewrite (IH Hx).
Qed.

Lemma split_join (ps : list string) :
  plain ps -> ps <> [] -> split "/" (join "/" ps) = ps.
Proof.
  induction ps as [|x ps IH]; intros Hp Hne; [contradiction |].
  apply Forall_cons in Hp as [[_ Hx] Hp]. destruct ps as [|y ps].
  - cbn [join]. now apply CachePath.split_no_sep.
  - cbn [join]. rewrite app_cons, app_nil_l.
    rewrite (split_app_sep "/" x _ Hx). f_equal. apply IH; [exact Hp | discriminate].
Qed.

Lemma parse_parts_plain (s : string) : plain (parse_parts s).
Proof.
  unfold plain, parse_parts. apply List.Forall_forall. intros x Hin.
  apply List.filter_In in Hin as [Hin Hc]. split; [exact Hc |].
  clear Hc. revert x Hin. induction s as [|a s IH]; intros x Hin.
  - destruct Hin as [<- | []]. reflexivity.
  - cbn [split] in Hin. destruct (ascii_dec a "/") as [-> | Hne].
    + destruct Hin as [<- | Hin]; [reflexivity | now apply IH].
    + destruct (split "/" s) as [|f fs] eqn:E.
      * destruct Hin as [<- | []]. cbn [has_char]. now destruct (ascii_dec a "/").
      * destruct Hin as [<- | Hin].
        -- cbn [has_char]. destruct (ascii_dec a "/"); [contradiction |].
           apply IH. now left.
        -- apply IH. now right.
Qed.

Lemma filter_plain (ps : list string) : plain ps -> List.filter is_component ps = ps.
Proof.
  induction 1 as [|x ps [Hc _] _ IH]; [reflexivity |]. cbn [List.filter]. now rewrite Hc, IH.
Qed.

Lemma plain_head (x : string) (ps : list string) :
  plain (x :: ps) -> exists a x', x = String a x' /\ a <> "/"%char.
Proof.
  intros H. apply Forall_cons in H as [[Hc Hs] _]. destruct x as [|a x']; [discriminate |].
  exists a, x'. split; [reflexivity |]. cbn [has_char] in Hs.
  now destruct (ascii_dec a "/").
Qed.

(** [Path(str(p))] is [p], for an absolute path whose components are names. *)
Lemma of_string_str (r : string) (ps : list string) :
  r = "/" \/ r = "//" -> plain ps -> of_string (str (MkPath r ps)) = MkPath r ps.
Proof.
  intros Hr Hp.
  assert (Hstr : str (MkPath r ps) = r +:+ join "/" ps).
  { unfold str. cbn [root parts]. destruct Hr as [-> | ->]; reflexivity. }
  rewrite Hstr. unfold of_string. destruct ps as [|x ps].
  - destruct Hr as [-> | ->]; reflexivity.
  - destruct (plain_head x ps Hp) as [a [x' [-> Ha]]].
    assert (Hsplit : split "/" (join "/" (String a x' :: ps)) = String a x' :: ps)
      by (apply split_join; [exact Hp | discriminate]).
    assert (Hjoin : exists rest, join "/" (String a x' :: ps) = String a rest).
    { destruct ps; cbn [join]; [eauto |]. rewrite app_cons. eauto. }
    destruct Hjoin as [rest Hjoin].
    assert (Hparts : forall pre, pre = "/" \/ pre = "//" ->
              parse_parts (pre +:+ join "/" (String a x' :: ps)) = String a x' :: ps).
    { intros pre Hpre. unfold parse_parts.
      assert (Hdrop : forall l, List.filter is_component (EmptyString :: l)
                                = List.filter is_component l) by reflexivity.
      destruct Hpre as [-> | ->]; rewrite !app_cons, app_nil_l, !Admin.split_cons_sep,
        Hsplit, !Hdrop; now rewrite (filter_plain _ Hp). }
    rewrite (Hparts r Hr). f_equal. rewrite Hjoin. unfold parse_root.
    destruct Hr as [-> | ->]; rewrite !app_cons, app_nil_l; cbn [startswith];
      destruct (ascii_dec "/" a); try congruence; reflexivity.
Qed.

Lemma of_string_root (s : string) :
  startswith s "/" = true -> root (of_string s) = "/" \/ root (of_string s) = "//".
Proof.
  unfold of_string, parse_root. cbn [root]. intros ->.
  destruct (startswith s "///"); [now left |]. destruct (startswith s "//"); auto.
Qed.

(** X27. After a successful [load_config], [CONFIG] is the object of the file
    (nothing of the old [CONFIG] is kept) with [storage_path_resolved]
    added; that entry is an absolute path, and read as a path again, as
    [get_cache_path] does, it names a directory that now exists. *)
Theorem load_config_resolves_storage
    (base : string) (valid_level : value -> bool) (d : disk)
    (CONFIG CONFIG' : gmap string value) (f f' : filesystem) (now : Z) :
  startswith base "/" = true ->
  load_config (of_string base) valid_level d CONFIG f now = (true, CONFIG', f') ->
  exists m p l,
    d = Object m /\
    CONFIG' = <["storage_path_resolved" := VStr p]> m /\
    startswith p "/" = true /\
    locate f' (of_string p) = Some l /\ is_dir_at f' l = true.
Proof.
  intros Hbase. unfold load_config. destruct d as [| | m]; try discriminate.
  destruct (get_config m "storage_path" (VStr "storage")) as [| | | s]; try discriminate.
  set (sp := if startswith s "/" then of_string s else joinpath (of_string base) s).
  assert (Hsp : (root sp = "/" \/ root sp = "//") /\ plain (parts sp)).
  { subst sp. destruct (startswith s "/") eqn:Es.
    - split; [now apply of_string_root | apply parse_parts_plain].
    - rewrite (CachePath.joinpath_relative _ _ Es). cbn [root parts]. split.
      + now apply of_string_root.
      + apply Forall_app. split; apply parse_parts_plain. }
  destruct Hsp as [Hroot Hplain].
  destruct (mkdir_parents f sp now) as [g|] eqn:Em; [| discriminate].
  destruct (valid_level _); [| discriminate]. intros [= <- <-].
  assert (Hrel : String.eqb (root sp) EmptyString = false).
  { destruct Hroot as [-> | ->]; reflexivity. }
  unfold mkdir_parents in Em. rewrite Hrel in Em.
  destruct (RoundTrip.mkdirs_makes (parts sp) f g [] now eq_refl Em) as [l [Hwalk Hdir]].
  assert (Hback : of_string (str sp) = sp).
  { destruct sp as [r ps]. cbn [root parts] in *. now apply of_string_str. }
  exists m, (str sp), l. split; [reflexivity |]. split; [reflexivity |]. split; [| split].
  - unfold str. destruct Hroot as [-> | ->]; destruct (parts sp); reflexivity.
  - rewrite Hback. unfold locate. now rewrite Hrel.
  - exact Hdir.
Qed.

Lemma load_config_resolves_storage_witness :
  exists m p l,
    Object (<["storage_path" := VStr "cache"]> ∅) = Object m /\
    (load_config (of_string "/opt/proxy") (fun _ => true)
       (Object (<["storage_path" := VStr "cache"]> ∅)) ∅
       {| nodes := ∅; cwd := [] |} 5).1.2
    = <["storage_path_resolved" := VStr p]> m /\
    startswith p "/" = true /\
    locate (load_config (of_string "/opt/proxy") (fun _ => true)
              (Object (<["storage_path" := VStr "cache"]> ∅)) ∅
              {| nodes := ∅; cwd := [] |} 5).2 (of_string p) = Some l /\
    is_dir_at (load_config (of_string "/opt/proxy") (fun _ => true)
                 (Object (<["storage_path" := VStr "cache"]> ∅)) ∅
                 {| nodes := ∅; cwd := [] |} 5).2 l = true.
Proof.
  destruct (load_config (of_string "/opt/proxy") (fun _ => true)
              (Object (<["storage_path" := VStr "cache"]> ∅)) ∅
              {| nodes := ∅; cwd := [] |} 5) as [[ok C] g] eqn:E.
  assert (Hok : ok = true) by (vm_compute in E; congruence). subst ok.
  exact (load_config_resolves_storage "/opt/proxy" (fun _ => true) _ _ _ _ _ _ eq_refl E).
Defined.


Definition disk_week : disk :=
  Object (<["cache_days" := VInt 7]> (<["storage_path" := VStr "cache"]> ∅)).


Example load_config_after_save :
  (load_config (of_string "/opt/proxy") (fun _ => true)
     (save_config_value (fun _ => true) Written disk_week ∅ "cache_days" (VInt 30)).1.2 ∅
     {| nodes := ∅; cwd := [] |} 5).1
  = (true,
     <["storage_path_resolved" := VStr "/opt/proxy/cache"]>
       (<["cache_days" := VInt 30]>
          (<["cache_days" := VInt 7]> (<["storage_path" := VStr "cache"]> ∅)))).
Proof. vm_compute. reflexivity. Qed.

End ConfigFile.

(** ** Cache files named by a plain relative path

    [delete_cached_file] of services/cache_manager.py and
    [api_download_cache] of utils/routes.py, for the paths a client is
    meant to send. *)

Module PlainPaths.
Import PyStr Py Config Fs.

(** X29. [delete_cached_file] answers [False] without touching the files, and
    it removes one regular file when it answers [True].  For a relative
    path without ['..'] that file is in the storage tree: its location is
    that of the storage root followed by the components of the path, and
    every other location is as it was. *)
Theorem delete_cached_file_plain_path
    (CONFIG : gmap string value) (f f' : filesystem) (rel_path : string) (deleted : bool) :
  CacheFiles.delete_cached_file CONFIG f rel_path = (deleted, f') ->
  (deleted = false -> f' = f) /\
  (deleted = true ->
   exists storage loc i,
     get_config CONFIG "storage_path_resolved" VNone = VStr storage /\
     locate f (joinpath (of_string storage) rel_path) = Some loc /\ loc <> [] /\
     nodes f !! loc = Some i /\ content i <> None /\
     nodes f' !! loc = None /\ frame [loc] f f' /\
     (contains ".." rel_path = false -> startswith rel_path "/" = false ->
      exists root_loc,
        locate f (of_string storage) = Some root_loc /\
        loc = root_loc ++ parse_parts rel_path)).
Proof.
  unfold CacheFiles.delete_cached_file.
  destruct (get_config CONFIG "storage_path_resolved" VNone) as [| b | z | storage] eqn:Ecfg;
    try (intros [= <- <-]; split; [reflexivity | discriminate]).
  destruct (String.eqb storage EmptyString);
    [intros [= <- <-]; split; [reflexivity | discriminate] |].
  destruct (negb _); [intros [= <- <-]; split; [reflexivity | discriminate] |].
  destruct (exists_ f _); [| intros [= <- <-]; split; [reflexivity | discriminate]].
  destruct (unlink f _) as [g|] eqn:Eu;
    [| intros [= <- <-]; split; [reflexivity | discriminate]].
  intros [= <- <-]. split; [discriminate |]. intros _.
  apply unlink_frame in Eu as [loc [Hloc [Hne [Hfr [Hnone [i [Hi Hfile]]]]]]].
  exists storage, loc, i. repeat (split; [assumption || reflexivity |]).
  intros Hdd Habs. revert Hloc. unfold locate.
  rewrite (CachePath.joinpath_relative _ _ Habs). cbn [root parts]. rewrite walk_app.
  destruct (walk f _ (parts (of_string storage))) as [root_loc|]; [| discriminate].
  intros Hw. exists root_loc. split; [reflexivity |].
  exact (CacheFiles.walk_plain f _ _ _ (CacheFiles.parse_parts_no_dotdot _ Hdd) Hw).
Qed.

Lemma delete_cached_file_plain_path_witness :
  exists storage loc i,
    get_config CacheFiles.config_srv "storage_path_resolved" VNone = VStr storage /\
    locate CacheFiles.fs_victim (joinpath (of_string storage) "ab_x") = Some loc /\
    nodes CacheFiles.fs_victim !! loc = Some i /\
    nodes (CacheFiles.delete_cached_file CacheFiles.config_srv CacheFiles.fs_victim "ab_x").2
      !! loc = None.
Proof.
  destruct (CacheFiles.delete_cached_file CacheFiles.config_srv CacheFiles.fs_victim "ab_x")
    as [deleted g] eqn:E.
  assert (Hd : deleted = true) by (vm_compute in E; congruence).
  destruct (delete_cached_file_plain_path _ _ _ _ _ E) as [_ H].
  destruct (H Hd) as [storage [loc [i [Hs [Hl [_ [Hi [_ [Hn _]]]]]]]]].
  exists storage, loc, i. auto.
Defined.

(** X30. [api_download_cache] sends files of the storage tree only, and
    changes nothing.  When it answers with [send_file], the request path
    is relative and has no ['..']; the file exists, its location is that
    of the storage root followed by the components of the request path;
    and the download name is the entry name after its first ['_']. *)
Theorem api_download_cache_stays_in_storage
    (CONFIG : gmap string value) (f : filesystem) (arg : option string)
    (p : Path) (download_name : string) :
  CacheFiles.api_download_cache CONFIG f arg
  = Returned (CacheFiles.send_file p download_name) ->
  exists file_path storage root_loc,
    arg = Some file_path /\
    contains ".." file_path = false /\ startswith file_path "/" = false /\
    get_config CONFIG "storage_path_resolved" VNone = VStr storage /\
    p = joinpath (of_string storage) file_path /\
    locate f (of_string storage) = Some root_loc /\
    locate f p = Some (root_loc ++ parse_parts file_path) /\
    exists_ f p = true /\
    download_name = Fetch.real_filename (name p).
Proof.
  intros H.
  destruct (CacheFiles.api_download_cache_confined CONFIG f arg p download_name H)
    as [file_path [storage [-> [Hdd [Habs [Hcfg [-> [root_loc [below [Hroot Hloc]]]]]]]]]].
  exists file_path, storage, root_loc. repeat (split; [assumption || reflexivity |]).
  revert H. unfold CacheFiles.api_download_cache.
  destruct (String.eqb file_path EmptyString); [discriminate |].
  rewrite Hdd, Habs, Hcfg. cbn [orb].
  destruct (String.eqb storage EmptyString); [discriminate |].
  destruct (exists_ f (joinpath (of_string storage) file_path)) eqn:Ex; [| discriminate].
  cbn [negb]. intros [= <-]. split; [| split; [reflexivity | reflexivity]].
  revert Hloc Hroot. unfold locate.
  rewrite (CachePath.joinpath_relative _ _ Habs). cbn [root parts]. rewrite walk_app.
  destruct (walk f _ (parts (of_string storage))) as [r|]; [| discriminate].
  intros Hw [= <-].
  destruct (walk f r (parse_parts file_path)) as [l|] eqn:Ew; [| discriminate].
  f_equal.
  exact (CacheFiles.walk_plain f _ _ _ (CacheFiles.parse_parts_no_dotdot _ Hdd) Ew).
Qed.

Lemma api_download_cache_stays_in_storage_witness :
  exists file_path storage root_loc,
    Some "ab_x" = Some file_path /\
    contains ".." file_path = false /\ startswith file_path "/" = false /\
    get_config CacheFiles.config_srv "storage_path_resolved" VNone = VStr storage /\
    of_string "/srv/cache/ab_x" = joinpath (of_string storage) file_path /\
    locate CacheFiles.fs_victim (of_string storage) = Some root_loc /\
    locate CacheFiles.fs_victim (of_string "/srv/cache/ab_x")
    = Some (root_loc ++ parse_parts file_path) /\
    exists_ CacheFiles.fs_victim (of_string "/srv/cache/ab_x") = true /\
    "x" = Fetch.real_filename (name (of_string "/srv/cache/ab_x")).
Proof.
  apply (api_download_cache_stays_in_storage CacheFiles.config_srv CacheFiles.fs_victim
           (Some "ab_x") (of_string "/srv/cache/ab_x") "x").
  vm_compute. reflexivity.
Defined.

End PlainPaths.
